(** * CrystalDFTConfiguration: the CRYSTAL output parser of xatu

    A shallow embedding of [src/CrystalDFTConfiguration.cpp] and the
    properties of its scanner, its section parsers and its assembler.

    Conventions of the embedding.
    - The input file [m_file] is the list of its lines; [std::getline]
      takes the head and, at end of file, fails and leaves its target
      string as it was.  [tellg]/[seekg] over a line that was read
      ahead becomes "that line is not consumed".
    - [std::istringstream] extraction ([>>]) is modelled on characters:
      leading white space is skipped, an [int] is an optional sign and
      decimal digits, a [double] is a decimal literal with optional
      fraction and exponent, a [std::string] is a maximal run of
      non-blank characters.  A failed extraction sets the fail bit, and
      later extractions from the same stream do nothing.
    - [int] is [Z] (the counts handled here are far from 2^31; an
      extracted integer out of the [int] range fails as in the library).
      [double] is [Q]: every decimal literal denotes one rational
      exactly, rounding is outside the model, and the Euclidean norm is
      compared on squares.  [arma::uword] is [Z] modulo 2^64.
    - A local variable without initialiser holds [None] until it is
      assigned; a test or a computation on it then is undefined
      behaviour.
    - A call returns an [outcome]: a value, a thrown exception, or
      undefined behaviour. *)

From Stdlib Require Import ZArith QArith Qround Ascii String List Lia.
From stdpp Require Import base list strings gmap.

Open Scope string_scope.
Open Scope Z_scope.

(** ** Outcomes of a call *)

Inductive exn : Type :=
| logic_error (what : string)
| out_of_range (what : string).

Inductive outcome (A : Type) : Type :=
| Ret (a : A)
| Throw (e : exn)
| Undefined.

Arguments Ret {A} a.
Arguments Throw {A} e.
Arguments Undefined {A}.

Definition bind {A B : Type} (k : A -> outcome B) (m : outcome A) : outcome B :=
  match m with
  | Ret a => k a
  | Throw e => Throw e
  | Undefined => Undefined
  end.

#[global] Instance outcome_ret : MRet outcome := @Ret.
#[global] Instance outcome_bind : MBind outcome := @bind.

(** Reading a variable: [None] is a variable that was never assigned. *)
Definition use {A : Type} (v : option A) : outcome A :=
  match v with
  | Some a => Ret a
  | None => Undefined
  end.

(** ** std::string *)

(** [line.find(s)]: the position of the first occurrence, [None] for [npos]. *)
Definition find (line s : string) : option nat := index 0 s line.

(** [line.find(s) != std::string::npos] *)
Definition contains (line s : string) : bool :=
  match find line s with
  | Some _ => true
  | None => false
  end.

Fixpoint drop_chars (n : nat) (s : string) : string :=
  match n, s with
  | O, _ => s
  | S n', String _ s' => drop_chars n' s'
  | S _, EmptyString => EmptyString
  end.

(** [line.substr(pos, line.length())]: the tail from [pos]; past the end
    it throws [std::out_of_range]. *)
Definition substr_from (line : string) (pos : nat) : outcome string :=
  if (String.length line <? pos)%nat
  then Throw (out_of_range "basic_string::substr")
  else Ret (drop_chars pos line).

(** [int pos = line.find(m); line.substr(pos + strlen(m), line.length())].
    When [m] does not occur, [npos] narrows to [-1] and the tail starts
    at [strlen(m) - 1]. *)
Definition after_marker (line m : string) : outcome string :=
  match find line m with
  | Some pos => substr_from line (pos + String.length m)
  | None => substr_from line (String.length m - 1)
  end.

(** ** std::istringstream *)

Definition isspace (c : ascii) : bool :=
  let n := nat_of_ascii c in
  ((n =? 32) || ((9 <=? n) && (n <=? 13)))%nat.

Definition digit_of (c : ascii) : option Z :=
  let n := nat_of_ascii c in
  if ((48 <=? n) && (n <=? 57))%nat then Some (Z.of_nat n - 48) else None.

Fixpoint skipws (s : string) : string :=
  match s with
  | String c s' => if isspace c then skipws s' else s
  | EmptyString => EmptyString
  end.

(** The longest prefix of decimal digits, and what follows it. *)
Fixpoint digits (s : string) : list Z * string :=
  match s with
  | String c s' =>
      match digit_of c with
      | Some d => let '(ds, rest) := digits s' in (d :: ds, rest)
      | None => ([], s)
      end
  | EmptyString => ([], EmptyString)
  end.

Definition decimal (ds : list Z) : Z := fold_left (fun a d => 10 * a + d) ds 0.

Definition sign (s : string) : bool * string :=
  match s with
  | String "-" s' => (true, s')
  | String "+" s' => (false, s')
  | _ => (false, s)
  end.

(** The result of one [>>]: a value and the rest of the buffer; a failed
    conversion, which still stores a value; or nothing left but white
    space, where the target keeps its old value.  The last two set the
    fail bit. *)
Inductive extracted (A : Type) : Type :=
| Got (v : A) (rest : string)
| Bad (v : A)
| Nothing.

Arguments Got {A} v rest.
Arguments Bad {A} v.
Arguments Nothing {A}.

Definition INT_MAX : Z := 2147483647.
Definition INT_MIN : Z := -2147483648.

(** [iss >> n] for [int n] *)
Definition extract_int (s : string) : extracted Z :=
  match skipws s with
  | EmptyString => Nothing
  | s1 =>
      let '(neg, s2) := sign s1 in
      match digits s2 with
      | ([], _) => Bad 0
      | (ds, rest) =>
          let v := if neg then - decimal ds else decimal ds in
          if v <? INT_MIN then Bad INT_MIN
          else if INT_MAX <? v then Bad INT_MAX
          else Got v rest
      end
  end.

Fixpoint nonblank (s : string) : string * string :=
  match s with
  | String c s' =>
      if isspace c then (EmptyString, s)
      else let '(w, rest) := nonblank s' in (String c w, rest)
  | EmptyString => (EmptyString, EmptyString)
  end.

(** [iss >> w] for [std::string w] *)
Definition extract_string (s : string) : extracted string :=
  match skipws s with
  | EmptyString => Nothing
  | s1 => let '(w, rest) := nonblank s1 in Got w rest
  end.

(** The exponent part of a decimal literal: [e] or [E], an optional
    sign, digits.  [None] when the [e] is followed by no digit. *)
Definition exponent (s : string) : option (Z * string) :=
  match s with
  | String c s' =>
      if ((c =? "e") || (c =? "E"))%char then
        let '(neg, s2) := sign s' in
        match digits s2 with
        | ([], _) => None
        | (ds, rest) => Some (if neg then - decimal ds else decimal ds, rest)
        end
      else Some (0, s)
  | EmptyString => Some (0, s)
  end.

(** [m * 10^k] as an exact rational *)
Definition scale10 (m k : Z) : Q :=
  if 0 <=? k then inject_Z (m * 10 ^ k)
  else Qred (Qmake m (Z.to_pos (10 ^ (- k)))).

(** [iss >> x] for [double x] *)
Definition extract_double (s : string) : extracted Q :=
  match skipws s with
  | EmptyString => Nothing
  | s1 =>
      let '(neg, s2) := sign s1 in
      let '(ip, s3) := digits s2 in
      let '(fp, s4) :=
        match s3 with
        | String "." t => digits t
        | _ => ([], s3)
        end in
      match (ip ++ fp)%list with
      | [] => Bad 0%Q
      | ds =>
          match exponent s4 with
          | None => Bad 0%Q
          | Some (e, rest) =>
              let m := if neg then - decimal ds else decimal ds in
              Got (scale10 m (e - Z.of_nat (length fp))) rest
          end
      end
  end.

(** A stream in use: the unread characters, or [None] once the fail bit
    is set. *)
Abbreviation istringstream := (option string) (only parsing).

(** One [>>] into a variable holding [old]. *)
Definition shift {A : Type} (ext : string -> extracted A)
    (iss : istringstream) (old : option A) : option A * istringstream :=
  match iss with
  | None => (old, None)
  | Some s =>
      match ext s with
      | Got v rest => (Some v, Some rest)
      | Bad v => (Some v, None)
      | Nothing => (old, None)
      end
  end.

(** [while (iss >> x) out.push_back(x);] *)
Fixpoint extract_all {A : Type} (ext : string -> extracted A)
    (fuel : nat) (s : string) : list A :=
  match fuel with
  | O => []
  | S fuel' =>
      match ext s with
      | Got v rest => v :: extract_all ext fuel' rest
      | _ => []
      end
  end.

(** [split(txt, strs)]: the doubles that [while (iss >> token)] yields.
    Every successful extraction consumes a character, so the length of
    the text bounds the number of rounds. *)
Definition split (txt : string) : list Q :=
  extract_all extract_double (String.length txt) txt.

Definition extract_ints (txt : string) : list Z :=
  extract_all extract_int (String.length txt) txt.

(** ** The input file *)

(** [std::getline(m_file, line)]: success, the new value of [line], the
    rest of the file. *)
Definition getline (file : list string) (line : string)
    : bool * string * list string :=
  match file with
  | l :: file' => (true, l, file')
  | [] => (false, line, [])
  end.

(** [line.empty()] *)
Definition empty (line : string) : bool :=
  match line with
  | EmptyString => true
  | _ => false
  end.

(** ** Armadillo *)

(** A dense matrix is the list of its rows; [arma::cx_mat] has entries
    [(re, im)].  A cube is the list of its slices. *)
Abbreviation mat A := (list (list A)) (only parsing).
Abbreviation complex := (Q * Q)%type (only parsing).
Abbreviation cx_mat := (list (list (Q * Q))) (only parsing).
Abbreviation cx_cube := (list (list (list (Q * Q)))) (only parsing).

Definition n_rows {A : Type} (M : mat A) : nat := length M.
Definition n_cols {A : Type} (M : mat A) : nat :=
  match M with
  | r :: _ => length r
  | [] => O
  end.
Definition n_slices (C : cx_cube) : nat := length C.

Definition same_size {A B : Type} (M : mat A) (N : mat B) : bool :=
  ((n_rows M =? n_rows N) && (n_cols M =? n_cols N))%nat.

Definition of_double (x : Q) : complex := (x, 0%Q).
Definition cx_zero : complex := (0%Q, 0%Q).
Definition cx_add (a b : complex) : complex :=
  (Qplus (fst a) (fst b), Qplus (snd a) (snd b)).
Definition cx_mul (a b : complex) : complex :=
  (Qminus (Qmult (fst a) (fst b)) (Qmult (snd a) (snd b)),
   Qplus (Qmult (fst a) (snd b)) (Qmult (snd a) (fst b))).

(** [arma::zeros(r, c)] with [int] arguments: a negative size converts
    to a huge [uword] and the allocation is refused. *)
Definition zeros {A : Type} (zero : A) (r c : Z) : outcome (mat A) :=
  if (r <? 0) || (c <? 0)
  then Throw (logic_error "Mat::init(): requested size is too large")
  else Ret (replicate (Z.to_nat r) (replicate (Z.to_nat c) zero)).

(** [M(r, c) = v] with [int] indices; the access is bounds-checked. *)
Definition mat_set {A : Type} (M : mat A) (r c : Z) (v : A) : outcome (mat A) :=
  if (0 <=? r) && (0 <=? c) then
    match M !! Z.to_nat r with
    | Some row =>
        if (Z.to_nat c <? length row)%nat
        then Ret (<[Z.to_nat r := <[Z.to_nat c := v]> row]> M)
        else Throw (logic_error "Mat::operator(): index out of bounds")
    | None => Throw (logic_error "Mat::operator(): index out of bounds")
    end
  else Throw (logic_error "Mat::operator(): index out of bounds").

(** [M.row(i)], bounds-checked *)
Definition row {A : Type} (M : mat A) (i : nat) : outcome (list A) :=
  match M !! i with
  | Some r => Ret r
  | None => Throw (logic_error "Mat::row(): index out of bounds")
  end.

(** [M.shed_row(i)], bounds-checked *)
Definition shed_row {A : Type} (M : mat A) (i : nat) : outcome (mat A) :=
  if (i <? n_rows M)%nat then Ret (take i M ++ drop (S i) M)%list
  else Throw (logic_error "Mat::shed_row(): index out of bounds").

(** [C.slice(i)], bounds-checked *)
Definition slice (C : cx_cube) (i : nat) : outcome cx_mat :=
  match C !! i with
  | Some M => Ret M
  | None => Throw (logic_error "Cube::slice(): index out of bounds")
  end.

(** [arma::join_slices(C, M)] as documented: the slices of [C] followed
    by [M], all of one size. *)
Definition join_slices (C : cx_cube) (M : cx_mat) : outcome cx_cube :=
  if forallb (fun S => same_size S M) C then Ret (C ++ [M])%list
  else Throw (logic_error "join_slices(): incompatible dimensions").

(** [arma::join_vert(M, r)] for a row vector [r] *)
Definition join_vert (M : mat Q) (r : list Q) : outcome (mat Q) :=
  if forallb (fun r' => (length r' =? length r)%nat) M then Ret (M ++ [r])%list
  else Throw (logic_error "join_vert(): number of columns must be the same").

(** [u += v * k] on row vectors *)
Definition axpy (u v : list Q) (k : Z) : outcome (list Q) :=
  if (length u =? length v)%nat
  then Ret (zip_with (fun a b => Qplus a (Qmult b (inject_Z k))) u v)
  else Throw (logic_error "addition: incompatible matrix dimensions").

(** [arma::kron(A, B)]: entry [(i * n_rows B + k, j * n_cols B + l)] is
    [A(i, j) * B(k, l)]. *)
Definition kron (A B : cx_mat) : cx_mat :=
  flat_map (fun ra =>
    map (fun rb => flat_map (fun a => map (fun b => cx_mul a b) rb) ra) B) A.

(** [A + B] *)
Definition mat_add (A B : cx_mat) : outcome cx_mat :=
  if same_size A B then Ret (zip_with (zip_with cx_add) A B)
  else Throw (logic_error "addition: incompatible matrix dimensions").

(** [arma::eye(2, 2)] and the two spin projectors of [mapContent],
    converted to complex as [kron] does for a real right operand. *)
Definition eye2 : cx_mat :=
  [[of_double 1; of_double 0]; [of_double 0; of_double 1]].
Definition spinUpBlock : cx_mat :=
  [[of_double 1; of_double 0]; [of_double 0; of_double 0]].
Definition spinDownBlock : cx_mat :=
  [[of_double 0; of_double 0]; [of_double 0; of_double 1]].

Definition Qlt_bool (x y : Q) : bool := negb (Qle_bool y x).

Definition sum_squares (v : list Q) : Q :=
  fold_right (fun x acc => Qplus (Qmult x x) acc) 0%Q v.

(** [arma::norm(v) > threshold].  The norm is the non-negative root of
    [sum_squares v], so the test is decided on squares. *)
Definition norm_gt (v : list Q) (threshold : Q) : bool :=
  Qlt_bool threshold 0 || Qlt_bool (Qmult threshold threshold) (sum_squares v).

(** [(size_t) x] for a [double]: truncation; a negative value is out of
    the range of the target type. *)
Definition index_of_double (x : Q) : outcome nat :=
  if Qlt_bool x 0 then Undefined else Ret (Z.to_nat (Qfloor x)).

(** [v[i]] on a [std::vector], not bounds-checked *)
Definition at_ {A : Type} (v : list A) (i : nat) : outcome A :=
  match v !! i with
  | Some a => Ret a
  | None => Undefined
  end.

Definition uword (z : Z) : Z := z mod 2 ^ 64.

(** ** The object under construction *)

(** [std::vector<std::vector<std::vector<double>>>]: per shell, the rows
    of its Gaussian expansion. *)
Abbreviation cube_vector := (list (list (list Q))) (only parsing).

(** The record that [mapContent] fills for the exciton code. *)
Record system_info : Type := {
  info_ndim : nat;
  info_bravaisLattice : mat Q;
  info_motif : mat Q;
  info_filling : Q;
  info_bravaisVectors : mat Q;
  info_overlap : cx_cube;
  info_norbitals : list Z;
  info_hamiltonian : cx_cube
}.

(** The data members that [CrystalDFTConfiguration.cpp] reads and writes,
    [m_file] included. *)
Record state : Type := {
  m_file : list string;
  natoms : Z;
  nshells : Z;
  norbitals : Z;
  totalElectrons : Z;
  coreElectrons : Z;
  ndim : nat;
  bravaisLattice : mat Q;
  motif : mat Q;
  shellsPerSpecies : list Z;
  nspecies : Z;
  orbitalsPerSpecies : list Z;
  gaussianCoefficients : gmap Z cube_vector;
  shellTypesPerSpecies : gmap Z (list string);
  overlapMatrices : cx_cube;
  fockMatrices : cx_cube;
  alphaMatrices : cx_cube;
  betaMatrices : cx_cube;
  bravaisVectors : mat Q;
  SOC_FLAG : bool;
  MAGNETIC_FLAG : bool;
  alpha_electrons : bool;
  systemInfo : system_info
}.

(** Assignments to one member. *)
Definition set_m_file (v : list string) (st : state) : state :=
  {| m_file := v; natoms := natoms st; nshells := nshells st;
     norbitals := norbitals st; totalElectrons := totalElectrons st;
     coreElectrons := coreElectrons st; ndim := ndim st;
     bravaisLattice := bravaisLattice st; motif := motif st;
     shellsPerSpecies := shellsPerSpecies st; nspecies := nspecies st;
     orbitalsPerSpecies := orbitalsPerSpecies st;
     gaussianCoefficients := gaussianCoefficients st;
     shellTypesPerSpecies := shellTypesPerSpecies st;
     overlapMatrices := overlapMatrices st; fockMatrices := fockMatrices st;
     alphaMatrices := alphaMatrices st; betaMatrices := betaMatrices st;
     bravaisVectors := bravaisVectors st; SOC_FLAG := SOC_FLAG st;
     MAGNETIC_FLAG := MAGNETIC_FLAG st;
     alpha_electrons := alpha_electrons st; systemInfo := systemInfo st |}.

Definition set_natoms (v : Z) (st : state) : state :=
  {| m_file := m_file st; natoms := v; nshells := nshells st;
     norbitals := norbitals st; totalElectrons := totalElectrons st;
     coreElectrons := coreElectrons st; ndim := ndim st;
     bravaisLattice := bravaisLattice st; motif := motif st;
     shellsPerSpecies := shellsPerSpecies st; nspecies := nspecies st;
     orbitalsPerSpecies := orbitalsPerSpecies st;
     gaussianCoefficients := gaussianCoefficients st;
     shellTypesPerSpecies := shellTypesPerSpecies st;
     overlapMatrices := overlapMatrices st; fockMatrices := fockMatrices st;
     alphaMatrices := alphaMatrices st; betaMatrices := betaMatrices st;
     bravaisVectors := bravaisVectors st; SOC_FLAG := SOC_FLAG st;
     MAGNETIC_FLAG := MAGNETIC_FLAG st;
     alpha_electrons := alpha_electrons st; systemInfo := systemInfo st |}.

Definition set_nshells (v : Z) (st : state) : state :=
  {| m_file := m_file st; natoms := natoms st; nshells := v;
     norbitals := norbitals st; totalElectrons := totalElectrons st;
     coreElectrons := coreElectrons st; ndim := ndim st;
     bravaisLattice := bravaisLattice st; motif := motif st;
     shellsPerSpecies := shellsPerSpecies st; nspecies := nspecies st;
     orbitalsPerSpecies := orbitalsPerSpecies st;
     gaussianCoefficients := gaussianCoefficients st;
     shellTypesPerSpecies := shellTypesPerSpecies st;
     overlapMatrices := overlapMatrices st; fockMatrices := fockMatrices st;
     alphaMatrices := alphaMatrices st; betaMatrices := betaMatrices st;
     bravaisVectors := bravaisVectors st; SOC_FLAG := SOC_FLAG st;
     MAGNETIC_FLAG := MAGNETIC_FLAG st;
     alpha_electrons := alpha_electrons st; systemInfo := systemInfo st |}.

Definition set_norbitals (v : Z) (st : state) : state :=
  {| m_file := m_file st; natoms := natoms st; nshells := nshells st;
     norbitals := v; totalElectrons := totalElectrons st;
     coreElectrons := coreElectrons st; ndim := ndim st;
     bravaisLattice := bravaisLattice st; motif := motif st;
     shellsPerSpecies := shellsPerSpecies st; nspecies := nspecies st;
     orbitalsPerSpecies := orbitalsPerSpecies st;
     gaussianCoefficients := gaussianCoefficients st;
     shellTypesPerSpecies := shellTypesPerSpecies st;
     overlapMatrices := overlapMatrices st; fockMatrices := fockMatrices st;
     alphaMatrices := alphaMatrices st; betaMatrices := betaMatrices st;
     bravaisVectors := bravaisVectors st; SOC_FLAG := SOC_FLAG st;
     MAGNETIC_FLAG := MAGNETIC_FLAG st;
     alpha_electrons := alpha_electrons st; systemInfo := systemInfo st |}.

Definition set_totalElectrons (v : Z) (st : state) : state :=
  {| m_file := m_file st; natoms := natoms st; nshells := nshells st;
     norbitals := norbitals st; totalElectrons := v;
     coreElectrons := coreElectrons st; ndim := ndim st;
     bravaisLattice := bravaisLattice st; motif := motif st;
     shellsPerSpecies := shellsPerSpecies st; nspecies := nspecies st;
     orbitalsPerSpecies := orbitalsPerSpecies st;
     gaussianCoefficients := gaussianCoefficients st;
     shellTypesPerSpecies := shellTypesPerSpecies st;
     overlapMatrices := overlapMatrices st; fockMatrices := fockMatrices st;
     alphaMatrices := alphaMatrices st; betaMatrices := betaMatrices st;
     bravaisVectors := bravaisVectors st; SOC_FLAG := SOC_FLAG st;
     MAGNETIC_FLAG := MAGNETIC_FLAG st;
     alpha_electrons := alpha_electrons st; systemInfo := systemInfo st |}.

Definition set_coreElectrons (v : Z) (st : state) : state :=
  {| m_file := m_file st; natoms := natoms st; nshells := nshells st;
     norbitals := norbitals st; totalElectrons := totalElectrons st;
     coreElectrons := v; ndim := ndim st;
     bravaisLattice := bravaisLattice st; motif := motif st;
     shellsPerSpecies := shellsPerSpecies st; nspecies := nspecies st;
     orbitalsPerSpecies := orbitalsPerSpecies st;
     gaussianCoefficients := gaussianCoefficients st;
     shellTypesPerSpecies := shellTypesPerSpecies st;
     overlapMatrices := overlapMatrices st; fockMatrices := fockMatrices st;
     alphaMatrices := alphaMatrices st; betaMatrices := betaMatrices st;
     bravaisVectors := bravaisVectors st; SOC_FLAG := SOC_FLAG st;
     MAGNETIC_FLAG := MAGNETIC_FLAG st;
     alpha_electrons := alpha_electrons st; systemInfo := systemInfo st |}.

Definition set_ndim (v : nat) (st : state) : state :=
  {| m_file := m_file st; natoms := natoms st; nshells := nshells st;
     norbitals := norbitals st; totalElectrons := totalElectrons st;
     coreElectrons := coreElectrons st; ndim := v;
     bravaisLattice := bravaisLattice st; motif := motif st;
     shellsPerSpecies := shellsPerSpecies st; nspecies := nspecies st;
     orbitalsPerSpecies := orbitalsPerSpecies st;
     gaussianCoefficients := gaussianCoefficients st;
     shellTypesPerSpecies := shellTypesPerSpecies st;
     overlapMatrices := overlapMatrices st; fockMatrices := fockMatrices st;
     alphaMatrices := alphaMatrices st; betaMatrices := betaMatrices st;
     bravaisVectors := bravaisVectors st; SOC_FLAG := SOC_FLAG st;
     MAGNETIC_FLAG := MAGNETIC_FLAG st;
     alpha_electrons := alpha_electrons st; systemInfo := systemInfo st |}.

Definition set_bravaisLattice (v : mat Q) (st : state) : state :=
  {| m_file := m_file st; natoms := natoms st; nshells := nshells st;
     norbitals := norbitals st; totalElectrons := totalElectrons st;
     coreElectrons := coreElectrons st; ndim := ndim st; bravaisLattice := v;
     motif := motif st; shellsPerSpecies := shellsPerSpecies st;
     nspecies := nspecies st; orbitalsPerSpecies := orbitalsPerSpecies st;
     gaussianCoefficients := gaussianCoefficients st;
     shellTypesPerSpecies := shellTypesPerSpecies st;
     overlapMatrices := overlapMatrices st; fockMatrices := fockMatrices st;
     alphaMatrices := alphaMatrices st; betaMatrices := betaMatrices st;
     bravaisVectors := bravaisVectors st; SOC_FLAG := SOC_FLAG st;
     MAGNETIC_FLAG := MAGNETIC_FLAG st;
     alpha_electrons := alpha_electrons st; systemInfo := systemInfo st |}.

Definition set_motif (v : mat Q) (st : state) : state :=
  {| m_file := m_file st; natoms := natoms st; nshells := nshells st;
     norbitals := norbitals st; totalElectrons := totalElectrons st;
     coreElectrons := coreElectrons st; ndim := ndim st;
     bravaisLattice := bravaisLattice st; motif := v;
     shellsPerSpecies := shellsPerSpecies st; nspecies := nspecies st;
     orbitalsPerSpecies := orbitalsPerSpecies st;
     gaussianCoefficients := gaussianCoefficients st;
     shellTypesPerSpecies := shellTypesPerSpecies st;
     overlapMatrices := overlapMatrices st; fockMatrices := fockMatrices st;
     alphaMatrices := alphaMatrices st; betaMatrices := betaMatrices st;
     bravaisVectors := bravaisVectors st; SOC_FLAG := SOC_FLAG st;
     MAGNETIC_FLAG := MAGNETIC_FLAG st;
     alpha_electrons := alpha_electrons st; systemInfo := systemInfo st |}.

Definition set_shellsPerSpecies (v : list Z) (st : state) : state :=
  {| m_file := m_file st; natoms := natoms st; nshells := nshells st;
     norbitals := norbitals st; totalElectrons := totalElectrons st;
     coreElectrons := coreElectrons st; ndim := ndim st;
     bravaisLattice := bravaisLattice st; motif := motif st;
     shellsPerSpecies := v; nspecies := nspecies st;
     orbitalsPerSpecies := orbitalsPerSpecies st;
     gaussianCoefficients := gaussianCoefficients st;
     shellTypesPerSpecies := shellTypesPerSpecies st;
     overlapMatrices := overlapMatrices st; fockMatrices := fockMatrices st;
     alphaMatrices := alphaMatrices st; betaMatrices := betaMatrices st;
     bravaisVectors := bravaisVectors st; SOC_FLAG := SOC_FLAG st;
     MAGNETIC_FLAG := MAGNETIC_FLAG st;
     alpha_electrons := alpha_electrons st; systemInfo := systemInfo st |}.

Definition set_nspecies (v : Z) (st : state) : state :=
  {| m_file := m_file st; natoms := natoms st; nshells := nshells st;
     norbitals := norbitals st; totalElectrons := totalElectrons st;
     coreElectrons := coreElectrons st; ndim := ndim st;
     bravaisLattice := bravaisLattice st; motif := motif st;
     shellsPerSpecies := shellsPerSpecies st; nspecies := v;
     orbitalsPerSpecies := orbitalsPerSpecies st;
     gaussianCoefficients := gaussianCoefficients st;
     shellTypesPerSpecies := shellTypesPerSpecies st;
     overlapMatrices := overlapMatrices st; fockMatrices := fockMatrices st;
     alphaMatrices := alphaMatrices st; betaMatrices := betaMatrices st;
     bravaisVectors := bravaisVectors st; SOC_FLAG := SOC_FLAG st;
     MAGNETIC_FLAG := MAGNETIC_FLAG st;
     alpha_electrons := alpha_electrons st; systemInfo := systemInfo st |}.

Definition set_orbitalsPerSpecies (v : list Z) (st : state) : state :=
  {| m_file := m_file st; natoms := natoms st; nshells := nshells st;
     norbitals := norbitals st; totalElectrons := totalElectrons st;
     coreElectrons := coreElectrons st; ndim := ndim st;
     bravaisLattice := bravaisLattice st; motif := motif st;
     shellsPerSpecies := shellsPerSpecies st; nspecies := nspecies st;
     orbitalsPerSpecies := v;
     gaussianCoefficients := gaussianCoefficients st;
     shellTypesPerSpecies := shellTypesPerSpecies st;
     overlapMatrices := overlapMatrices st; fockMatrices := fockMatrices st;
     alphaMatrices := alphaMatrices st; betaMatrices := betaMatrices st;
     bravaisVectors := bravaisVectors st; SOC_FLAG := SOC_FLAG st;
     MAGNETIC_FLAG := MAGNETIC_FLAG st;
     alpha_electrons := alpha_electrons st; systemInfo := systemInfo st |}.

Definition set_gaussianCoefficients (v : gmap Z cube_vector) (st : state) : state :=
  {| m_file := m_file st; natoms := natoms st; nshells := nshells st;
     norbitals := norbitals st; totalElectrons := totalElectrons st;
     coreElectrons := coreElectrons st; ndim := ndim st;
     bravaisLattice := bravaisLattice st; motif := motif st;
     shellsPerSpecies := shellsPerSpecies st; nspecies := nspecies st;
     orbitalsPerSpecies := orbitalsPerSpecies st; gaussianCoefficients := v;
     shellTypesPerSpecies := shellTypesPerSpecies st;
     overlapMatrices := overlapMatrices st; fockMatrices := fockMatrices st;
     alphaMatrices := alphaMatrices st; betaMatrices := betaMatrices st;
     bravaisVectors := bravaisVectors st; SOC_FLAG := SOC_FLAG st;
     MAGNETIC_FLAG := MAGNETIC_FLAG st;
     alpha_electrons := alpha_electrons st; systemInfo := systemInfo st |}.

Definition set_shellTypesPerSpecies (v : gmap Z (list string)) (st : state) : state :=
  {| m_file := m_file st; natoms := natoms st; nshells := nshells st;
     norbitals := norbitals st; totalElectrons := totalElectrons st;
     coreElectrons := coreElectrons st; ndim := ndim st;
     bravaisLattice := bravaisLattice st; motif := motif st;
     shellsPerSpecies := shellsPerSpecies st; nspecies := nspecies st;
     orbitalsPerSpecies := orbitalsPerSpecies st;
     gaussianCoefficients := gaussianCoefficients st;
     shellTypesPerSpecies := v; overlapMatrices := overlapMatrices st;
     fockMatrices := fockMatrices st; alphaMatrices := alphaMatrices st;
     betaMatrices := betaMatrices st; bravaisVectors := bravaisVectors st;
     SOC_FLAG := SOC_FLAG st; MAGNETIC_FLAG := MAGNETIC_FLAG st;
     alpha_electrons := alpha_electrons st; systemInfo := systemInfo st |}.

Definition set_overlapMatrices (v : cx_cube) (st : state) : state :=
  {| m_file := m_file st; natoms := natoms st; nshells := nshells st;
     norbitals := norbitals st; totalElectrons := totalElectrons st;
     coreElectrons := coreElectrons st; ndim := ndim st;
     bravaisLattice := bravaisLattice st; motif := motif st;
     shellsPerSpecies := shellsPerSpecies st; nspecies := nspecies st;
     orbitalsPerSpecies := orbitalsPerSpecies st;
     gaussianCoefficients := gaussianCoefficients st;
     shellTypesPerSpecies := shellTypesPerSpecies st; overlapMatrices := v;
     fockMatrices := fockMatrices st; alphaMatrices := alphaMatrices st;
     betaMatrices := betaMatrices st; bravaisVectors := bravaisVectors st;
     SOC_FLAG := SOC_FLAG st; MAGNETIC_FLAG := MAGNETIC_FLAG st;
     alpha_electrons := alpha_electrons st; systemInfo := systemInfo st |}.

Definition set_fockMatrices (v : cx_cube) (st : state) : state :=
  {| m_file := m_file st; natoms := natoms st; nshells := nshells st;
     norbitals := norbitals st; totalElectrons := totalElectrons st;
     coreElectrons := coreElectrons st; ndim := ndim st;
     bravaisLattice := bravaisLattice st; motif := motif st;
     shellsPerSpecies := shellsPerSpecies st; nspecies := nspecies st;
     orbitalsPerSpecies := orbitalsPerSpecies st;
     gaussianCoefficients := gaussianCoefficients st;
     shellTypesPerSpecies := shellTypesPerSpecies st;
     overlapMatrices := overlapMatrices st; fockMatrices := v;
     alphaMatrices := alphaMatrices st; betaMatrices := betaMatrices st;
     bravaisVectors := bravaisVectors st; SOC_FLAG := SOC_FLAG st;
     MAGNETIC_FLAG := MAGNETIC_FLAG st;
     alpha_electrons := alpha_electrons st; systemInfo := systemInfo st |}.

Definition set_alphaMatrices (v : cx_cube) (st : state) : state :=
  {| m_file := m_file st; natoms := natoms st; nshells := nshells st;
     norbitals := norbitals st; totalElectrons := totalElectrons st;
     coreElectrons := coreElectrons st; ndim := ndim st;
     bravaisLattice := bravaisLattice st; motif := motif st;
     shellsPerSpecies := shellsPerSpecies st; nspecies := nspecies st;
     orbitalsPerSpecies := orbitalsPerSpecies st;
     gaussianCoefficients := gaussianCoefficients st;
     shellTypesPerSpecies := shellTypesPerSpecies st;
     overlapMatrices := overlapMatrices st; fockMatrices := fockMatrices st;
     alphaMatrices := v; betaMatrices := betaMatrices st;
     bravaisVectors := bravaisVectors st; SOC_FLAG := SOC_FLAG st;
     MAGNETIC_FLAG := MAGNETIC_FLAG st;
     alpha_electrons := alpha_electrons st; systemInfo := systemInfo st |}.

Definition set_betaMatrices (v : cx_cube) (st : state) : state :=
  {| m_file := m_file st; natoms := natoms st; nshells := nshells st;
     norbitals := norbitals st; totalElectrons := totalElectrons st;
     coreElectrons := coreElectrons st; ndim := ndim st;
     bravaisLattice := bravaisLattice st; motif := motif st;
     shellsPerSpecies := shellsPerSpecies st; nspecies := nspecies st;
     orbitalsPerSpecies := orbitalsPerSpecies st;
     gaussianCoefficients := gaussianCoefficients st;
     shellTypesPerSpecies := shellTypesPerSpecies st;
     overlapMatrices := overlapMatrices st; fockMatrices := fockMatrices st;
     alphaMatrices := alphaMatrices st; betaMatrices := v;
     bravaisVectors := bravaisVectors st; SOC_FLAG := SOC_FLAG st;
     MAGNETIC_FLAG := MAGNETIC_FLAG st;
     alpha_electrons := alpha_electrons st; systemInfo := systemInfo st |}.

Definition set_bravaisVectors (v : mat Q) (st : state) : state :=
  {| m_file := m_file st; natoms := natoms st; nshells := nshells st;
     norbitals := norbitals st; totalElectrons := totalElectrons st;
     coreElectrons := coreElectrons st; ndim := ndim st;
     bravaisLattice := bravaisLattice st; motif := motif st;
     shellsPerSpecies := shellsPerSpecies st; nspecies := nspecies st;
     orbitalsPerSpecies := orbitalsPerSpecies st;
     gaussianCoefficients := gaussianCoefficients st;
     shellTypesPerSpecies := shellTypesPerSpecies st;
     overlapMatrices := overlapMatrices st; fockMatrices := fockMatrices st;
     alphaMatrices := alphaMatrices st; betaMatrices := betaMatrices st;
     bravaisVectors := v; SOC_FLAG := SOC_FLAG st;
     MAGNETIC_FLAG := MAGNETIC_FLAG st;
     alpha_electrons := alpha_electrons st; systemInfo := systemInfo st |}.

Definition set_SOC_FLAG (v : bool) (st : state) : state :=
  {| m_file := m_file st; natoms := natoms st; nshells := nshells st;
     norbitals := norbitals st; totalElectrons := totalElectrons st;
     coreElectrons := coreElectrons st; ndim := ndim st;
     bravaisLattice := bravaisLattice st; motif := motif st;
     shellsPerSpecies := shellsPerSpecies st; nspecies := nspecies st;
     orbitalsPerSpecies := orbitalsPerSpecies st;
     gaussianCoefficients := gaussianCoefficients st;
     shellTypesPerSpecies := shellTypesPerSpecies st;
     overlapMatrices := overlapMatrices st; fockMatrices := fockMatrices st;
     alphaMatrices := alphaMatrices st; betaMatrices := betaMatrices st;
     bravaisVectors := bravaisVectors st; SOC_FLAG := v;
     MAGNETIC_FLAG := MAGNETIC_FLAG st;
     alpha_electrons := alpha_electrons st; systemInfo := systemInfo st |}.

Definition set_MAGNETIC_FLAG (v : bool) (st : state) : state :=
  {| m_file := m_file st; natoms := natoms st; nshells := nshells st;
     norbitals := norbitals st; totalElectrons := totalElectrons st;
     coreElectrons := coreElectrons st; ndim := ndim st;
     bravaisLattice := bravaisLattice st; motif := motif st;
     shellsPerSpecies := shellsPerSpecies st; nspecies := nspecies st;
     orbitalsPerSpecies := orbitalsPerSpecies st;
     gaussianCoefficients := gaussianCoefficients st;
     shellTypesPerSpecies := shellTypesPerSpecies st;
     overlapMatrices := overlapMatrices st; fockMatrices := fockMatrices st;
     alphaMatrices := alphaMatrices st; betaMatrices := betaMatrices st;
     bravaisVectors := bravaisVectors st; SOC_FLAG := SOC_FLAG st;
     MAGNETIC_FLAG := v; alpha_electrons := alpha_electrons st;
     systemInfo := systemInfo st |}.

Definition set_alpha_electrons (v : bool) (st : state) : state :=
  {| m_file := m_file st; natoms := natoms st; nshells := nshells st;
     norbitals := norbitals st; totalElectrons := totalElectrons st;
     coreElectrons := coreElectrons st; ndim := ndim st;
     bravaisLattice := bravaisLattice st; motif := motif st;
     shellsPerSpecies := shellsPerSpecies st; nspecies := nspecies st;
     orbitalsPerSpecies := orbitalsPerSpecies st;
     gaussianCoefficients := gaussianCoefficients st;
     shellTypesPerSpecies := shellTypesPerSpecies st;
     overlapMatrices := overlapMatrices st; fockMatrices := fockMatrices st;
     alphaMatrices := alphaMatrices st; betaMatrices := betaMatrices st;
     bravaisVectors := bravaisVectors st; SOC_FLAG := SOC_FLAG st;
     MAGNETIC_FLAG := MAGNETIC_FLAG st; alpha_electrons := v;
     systemInfo := systemInfo st |}.

Definition set_systemInfo (v : system_info) (st : state) : state :=
  {| m_file := m_file st; natoms := natoms st; nshells := nshells st;
     norbitals := norbitals st; totalElectrons := totalElectrons st;
     coreElectrons := coreElectrons st; ndim := ndim st;
     bravaisLattice := bravaisLattice st; motif := motif st;
     shellsPerSpecies := shellsPerSpecies st; nspecies := nspecies st;
     orbitalsPerSpecies := orbitalsPerSpecies st;
     gaussianCoefficients := gaussianCoefficients st;
     shellTypesPerSpecies := shellTypesPerSpecies st;
     overlapMatrices := overlapMatrices st; fockMatrices := fockMatrices st;
     alphaMatrices := alphaMatrices st; betaMatrices := betaMatrices st;
     bravaisVectors := bravaisVectors st; SOC_FLAG := SOC_FLAG st;
     MAGNETIC_FLAG := MAGNETIC_FLAG st;
     alpha_electrons := alpha_electrons st; systemInfo := v |}.

(** ** Lattice *)

(** Modelled from the spec: [ConfigurationBase::parseVectors] is declared
    outside this file; section 4.1 has it parse one lattice vector of
    three numbers per line, anything else being a fatal parse error. *)
Definition parseVectors (vectors : list string) : outcome (mat Q) :=
  mapM (fun l =>
          let v := split l in
          if (length v =? 3)%nat then Ret v
          else Throw (logic_error "parseVectors: expected three components"))
       vectors.

(** The loop of [extractDimension]: [i] runs up to the current number of
    rows, which [shed_row] lowers while [i] still advances. *)
Fixpoint extractDimension_loop (fuel : nat) (threshold : Q) (i : nat)
    (lattice : mat Q) : outcome (mat Q) :=
  match fuel with
  | O => Ret lattice
  | S fuel' =>
      if (i <? n_rows lattice)%nat then
        r ← row lattice i;
        lattice' ← (if norm_gt r threshold then shed_row lattice i
                    else Ret lattice);
        extractDimension_loop fuel' threshold (S i) lattice'
      else Ret lattice
  end.

Definition extractDimension (threshold : Q) (st : state) : outcome state :=
  lattice ← extractDimension_loop (n_rows (bravaisLattice st)) threshold O
              (bravaisLattice st);
  Ret (set_ndim (n_rows lattice) (set_bravaisLattice lattice st)).

Definition parseBravaisLattice (threshold : Q) (st : state) : outcome state :=
  let '(_, l1, f1) := getline (m_file st) "" in
  let '(_, l2, f2) := getline f1 l1 in
  let '(_, l3, f3) := getline f2 l2 in
  lattice ← parseVectors [l1; l2; l3];
  extractDimension threshold (set_bravaisLattice lattice (set_m_file f3 st)).

(** ** Atoms *)

(** The locals of [parseAtoms] that [>>] writes. *)
Record atom_vars : Type := {
  a_index : option Z;
  a_natom : option Z;
  a_species : string;
  a_nshells : option Z;
  a_x : option Q;
  a_y : option Q;
  a_z : option Q
}.

(** [>>] into a [std::string], which always holds a value. *)
Definition shift_string (iss : istringstream) (old : string)
    : string * istringstream :=
  let '(v, iss') := shift extract_string iss (Some old) in (default old v, iss').

(** [>>] into an [int] that was initialised. *)
Definition shift_int (iss : istringstream) (old : Z) : Z * istringstream :=
  let '(v, iss') := shift extract_int iss (Some old) in (default old v, iss').

(** [iss >> index >> natom >> chemical_species >> nshells >> x >> y >> z] *)
Definition read_atom (line : string) (v : atom_vars) : atom_vars :=
  let iss := Some line in
  let '(index, iss) := shift extract_int iss (a_index v) in
  let '(natom, iss) := shift extract_int iss (a_natom v) in
  let '(species, iss) := shift_string iss (a_species v) in
  let '(nshells, iss) := shift extract_int iss (a_nshells v) in
  let '(x, iss) := shift extract_double iss (a_x v) in
  let '(y, iss) := shift extract_double iss (a_y v) in
  let '(z, _) := shift extract_double iss (a_z v) in
  {| a_index := index; a_natom := natom; a_species := species;
     a_nshells := nshells; a_x := x; a_y := y; a_z := z |}.

(** [std::find(species.begin(), species.end(), s) == species.end()] *)
Definition absent (species : list string) (s : string) : bool :=
  negb (existsb (String.eqb s) species).

(** What the loop of [parseAtoms] carries from one atom to the next. *)
Record atoms_loop : Type := {
  al_file : list string;
  al_line : string;
  al_vars : atom_vars;
  al_species : list string;
  al_to_index : gmap string Z;
  al_shells : list Z;
  al_nspecies : Z;
  al_motif : mat Q
}.

(** One round of the loop, for atom [i].  In
    [chemical_species_to_index[s] = chemical_species_to_index.size()]
    the right operand is evaluated first (C++17), so a new species gets
    the number of species seen before it. *)
Definition parseAtoms_body (i : nat) (s : atoms_loop) : outcome atoms_loop :=
  let '(_, line, file) := getline (al_file s) (al_line s) in
  let v := read_atom line (al_vars s) in
  let sp := a_species v in
  '(species, to_index, shells, nspecies) ←
    (if absent (al_species s) sp then
       nshells ← use (a_nshells v);
       Ret ((al_species s ++ [sp])%list,
            <[sp := Z.of_nat (size (al_to_index s))]> (al_to_index s),
            (al_shells s ++ [nshells])%list,
            al_nspecies s + 1)
     else Ret (al_species s, al_to_index s, al_shells s, al_nspecies s));
  let index := default 0 (to_index !! sp) in
  x ← use (a_x v);
  y ← use (a_y v);
  z ← use (a_z v);
  Ret {| al_file := file; al_line := line; al_vars := v;
         al_species := species; al_to_index := to_index;
         al_shells := shells; al_nspecies := nspecies;
         al_motif := <[i := [x; y; z; inject_Z index]]> (al_motif s) |}.

(** [for (int i = 0; i < natoms; i++)], with [n] rounds to go *)
Fixpoint parseAtoms_loop (n : nat) (i : nat) (s : atoms_loop)
    : outcome atoms_loop :=
  match n with
  | O => Ret s
  | S n' => s' ← parseAtoms_body i s; parseAtoms_loop n' (S i) s'
  end.

Definition no_atom_vars : atom_vars :=
  {| a_index := None; a_natom := None; a_species := "";
     a_nshells := None; a_x := None; a_y := None; a_z := None |}.

(** [parseAtoms].  The loop that would subtract [refAtom] from every row
    is commented out in the source, so the motif is stored as read;
    [motif.row(0)] is still evaluated. *)
Definition parseAtoms (st : state) : outcome state :=
  motif0 ← zeros 0%Q (natoms st) 4;
  let '(_, line, file) := getline (m_file st) "" in
  s ← parseAtoms_loop (Z.to_nat (natoms st)) O
        {| al_file := file; al_line := line; al_vars := no_atom_vars;
           al_species := []; al_to_index := ∅; al_shells := [];
           al_nspecies := 0; al_motif := motif0 |};
  _ ← row (al_motif s) O;
  Ret (set_nspecies (al_nspecies s)
        (set_shellsPerSpecies (al_shells s)
          (set_motif (al_motif s) (set_m_file (al_file s) st)))).

(** ** Atomic basis *)

(** The table of one shell: [while (std::getline(m_file, line))] takes
    lines as long as they split into exactly four numbers; the first line
    that does not is put back ([seekg]).  The four extractions that follow
    [split] read the same four tokens. *)
Fixpoint parseCoefficients (file : list string) (line : string)
    : list (list Q) * string * list string :=
  match file with
  | [] => ([], line, [])
  | l :: file' =>
      let tokenized_line := split l in
      if (length tokenized_line =? 4)%nat then
        let '(coefList, line', rest) := parseCoefficients file' l in
        (tokenized_line :: coefList, line', rest)
      else ([], l, file)
  end.

(** What the loops of [parseAtomicBasis] carry. *)
Record basis_loop : Type := {
  bl_file : list string;
  bl_line : string;
  bl_species_name : string;
  bl_norbitals : option Z;
  bl_natom : option Z;
  bl_totalOrbitals : Z;
  bl_nspecies : Z;
  bl_shellType : string;
  bl_shellTypes : list string;
  bl_gaussian : cube_vector;
  bl_species : list string;
  bl_orbitalsPerSpecies : list Z;
  bl_gaussianCoefficients : gmap Z cube_vector;
  bl_shellTypesPerSpecies : gmap Z (list string)
}.

(** [iss >> norbitals >> shellType;
     if (shellType == "-") iss >> norbitals >> shellType;] *)
Definition read_shell (line : string) (norbitals : option Z) (shellType : string)
    : option Z * string :=
  let iss := Some line in
  let '(norbitals, iss) := shift extract_int iss norbitals in
  let '(shellType, iss) := shift_string iss shellType in
  if String.eqb shellType "-" then
    let '(norbitals', iss) := shift extract_int iss norbitals in
    let '(shellType', _) := shift_string iss shellType in
    (norbitals', shellType')
  else (norbitals, shellType).

(** One round of the loop over the shells of a new species. *)
Definition parseShell (s : basis_loop) : basis_loop :=
  let '(_, line, file) := getline (bl_file s) (bl_line s) in
  let '(norbitals, shellType) :=
    read_shell line (bl_norbitals s) (bl_shellType s) in
  let '(coefList, line, file) := parseCoefficients file line in
  let gaussian := (bl_gaussian s ++ [coefList])%list in
  {| bl_file := file; bl_line := line;
     bl_species_name := bl_species_name s;
     bl_norbitals := norbitals; bl_natom := bl_natom s;
     bl_totalOrbitals := bl_totalOrbitals s; bl_nspecies := bl_nspecies s;
     bl_shellType := shellType;
     bl_shellTypes := (bl_shellTypes s ++ [shellType])%list;
     bl_gaussian := gaussian; bl_species := bl_species s;
     bl_orbitalsPerSpecies := bl_orbitalsPerSpecies s;
     bl_gaussianCoefficients :=
       <[bl_nspecies s := gaussian]> (bl_gaussianCoefficients s);
     bl_shellTypesPerSpecies := bl_shellTypesPerSpecies s |}.

Fixpoint parseShells (n : nat) (s : basis_loop) : basis_loop :=
  match n with
  | O => s
  | S n' => parseShells n' (parseShell s)
  end.

(** One round of the loop over the atoms, for atom [atomIndex]. *)
Definition parseAtomicBasis_body (motif : mat Q) (shellsPerSpecies : list Z)
    (atomIndex : nat) (s : basis_loop) : outcome basis_loop :=
  let '(_, line, file) := getline (bl_file s) (bl_line s) in
  let iss := Some line in
  let '(natom, iss) := shift extract_int iss (bl_natom s) in
  let '(chemical_species, _) := shift_string iss (bl_species_name s) in
  if absent (bl_species s) chemical_species then
    nshells ← at_ shellsPerSpecies (Z.to_nat (bl_nspecies s));
    let s1 :=
      parseShells (Z.to_nat nshells)
        {| bl_file := file; bl_line := line;
           bl_species_name := chemical_species;
           bl_norbitals := bl_norbitals s; bl_natom := natom;
           bl_totalOrbitals := bl_totalOrbitals s;
           bl_nspecies := bl_nspecies s;
           bl_shellType := bl_shellType s;
           bl_shellTypes := []; bl_gaussian := [];
           bl_species := (bl_species s ++ [chemical_species])%list;
           bl_orbitalsPerSpecies := bl_orbitalsPerSpecies s;
           bl_gaussianCoefficients := bl_gaussianCoefficients s;
           bl_shellTypesPerSpecies := bl_shellTypesPerSpecies s |} in
    norbitals ← use (bl_norbitals s1);
    Ret {| bl_file := bl_file s1; bl_line := bl_line s1;
           bl_species_name := chemical_species;
           bl_norbitals := bl_norbitals s1; bl_natom := natom;
           bl_totalOrbitals := norbitals;
           bl_nspecies := bl_nspecies s1 + 1;
           bl_shellType := bl_shellType s1;
           bl_shellTypes := bl_shellTypes s1;
           bl_gaussian := bl_gaussian s1; bl_species := bl_species s1;
           bl_orbitalsPerSpecies :=
             (bl_orbitalsPerSpecies s1 ++ [norbitals - bl_totalOrbitals s1])%list;
           bl_gaussianCoefficients := bl_gaussianCoefficients s1;
           bl_shellTypesPerSpecies :=
             <[bl_nspecies s1 := bl_shellTypes s1]> (bl_shellTypesPerSpecies s1) |}
  else
    r ← row motif atomIndex;
    tag ← match r !! 3%nat with
          | Some t => Ret t
          | None => Throw (logic_error "subview::operator(): index out of bounds")
          end;
    k ← index_of_double tag;
    n ← at_ (bl_orbitalsPerSpecies s) k;
    Ret {| bl_file := file; bl_line := line;
           bl_species_name := chemical_species;
           bl_norbitals := bl_norbitals s; bl_natom := natom;
           bl_totalOrbitals := bl_totalOrbitals s + n;
           bl_nspecies := bl_nspecies s;
           bl_shellType := bl_shellType s;
           bl_shellTypes := bl_shellTypes s;
           bl_gaussian := bl_gaussian s; bl_species := bl_species s;
           bl_orbitalsPerSpecies := bl_orbitalsPerSpecies s;
           bl_gaussianCoefficients := bl_gaussianCoefficients s;
           bl_shellTypesPerSpecies := bl_shellTypesPerSpecies s |}.

(** [for (int atomIndex = 0; atomIndex < natoms; atomIndex++)] *)
Fixpoint parseAtomicBasis_loop (motif : mat Q) (shellsPerSpecies : list Z)
    (n : nat) (atomIndex : nat) (s : basis_loop) : outcome basis_loop :=
  match n with
  | O => Ret s
  | S n' =>
      s' ← parseAtomicBasis_body motif shellsPerSpecies atomIndex s;
      parseAtomicBasis_loop motif shellsPerSpecies n' (S atomIndex) s'
  end.

Definition parseAtomicBasis (st : state) : outcome state :=
  let '(_, l1, f1) := getline (m_file st) "" in
  let '(_, l2, f2) := getline f1 l1 in
  let '(_, l3, f3) := getline f2 l2 in
  s ← parseAtomicBasis_loop (motif st) (shellsPerSpecies st)
        (Z.to_nat (natoms st)) O
        {| bl_file := f3; bl_line := l3; bl_species_name := "";
           bl_norbitals := None; bl_natom := None;
           bl_totalOrbitals := 0; bl_nspecies := 0;
           bl_shellType := ""; bl_shellTypes := []; bl_gaussian := [];
           bl_species := [];
           bl_orbitalsPerSpecies := orbitalsPerSpecies st;
           bl_gaussianCoefficients := gaussianCoefficients st;
           bl_shellTypesPerSpecies := shellTypesPerSpecies st |};
  Ret (set_shellTypesPerSpecies (bl_shellTypesPerSpecies s)
        (set_gaussianCoefficients (bl_gaussianCoefficients s)
          (set_orbitalsPerSpecies (bl_orbitalsPerSpecies s)
            (set_m_file (bl_file s) st)))).

(** ** Matrix blocks *)

(** The locals of [parseMatrix] that live across lines. *)
Record matrix_vars : Type := {
  mv_matrix : cx_mat;
  mv_colIndicesStr : string;
  mv_colIndices : list Z;
  mv_colIndex : Z;
  mv_rowIndex : Z
}.

(** [while (iss >> coef) { colIndex = colIndices[i];
    matrix(rowIndex - 1, colIndex - 1) = coef; i++; }] over the
    coefficients [coefs] that the line yields. *)
Fixpoint scatter (colIndices : list Z) (rowIndex : Z) (coefs : list Q)
    (i : nat) (matrix : cx_mat) (colIndex : Z) : outcome (cx_mat * Z) :=
  match coefs with
  | [] => Ret (matrix, colIndex)
  | coef :: coefs' =>
      colIndex' ← at_ colIndices i;
      matrix' ← mat_set matrix (rowIndex - 1) (colIndex' - 1) (of_double coef);
      scatter colIndices rowIndex coefs' (S i) matrix' colIndex'
  end.

(** A data line: [iss >> rowIndex], then the coefficients. *)
Definition parseRow (line : string) (v : matrix_vars) : outcome matrix_vars :=
  let '(rowIndex, iss) := shift_int (Some line) (mv_rowIndex v) in
  let coefs := match iss with
               | Some rest => split rest
               | None => []
               end in
  '(matrix, colIndex) ←
    scatter (mv_colIndices v) rowIndex coefs O (mv_matrix v) (mv_colIndex v);
  Ret {| mv_matrix := matrix; mv_colIndicesStr := mv_colIndicesStr v;
         mv_colIndices := mv_colIndices v; mv_colIndex := colIndex;
         mv_rowIndex := rowIndex |}.

(** [rowIndex == norbitals && colIndex == norbitals] *)
Definition corner (norbitals : Z) (v : matrix_vars) : bool :=
  (mv_rowIndex v =? norbitals) && (mv_colIndex v =? norbitals).

(** The loop of [parseMatrix].  It returns from inside; when
    [std::getline] fails the loop ends and control flows off the end of
    a function that returns a value, which is undefined behaviour. *)
Fixpoint parseMatrix_loop (norbitals : Z) (file : list string)
    (v : matrix_vars) : outcome (cx_mat * list string) :=
  match file with
  | [] => Undefined
  | line :: file1 =>
      if empty line then
        match file1 with
        | [] =>
            (* both [getline] fail, [line] stays empty: [continue] *)
            Undefined
        | colIndicesStr :: file2 =>
            let v1 := {| mv_matrix := mv_matrix v;
                         mv_colIndicesStr := colIndicesStr;
                         mv_colIndices := extract_ints colIndicesStr;
                         mv_colIndex := mv_colIndex v;
                         mv_rowIndex := mv_rowIndex v |} in
            match file2 with
            | [] => Undefined
            | line2 :: file3 =>
                if empty line2 then parseMatrix_loop norbitals file3 v1
                else
                  v2 ← parseRow line2 v1;
                  if corner norbitals v2 then Ret (mv_matrix v2, file3)
                  else parseMatrix_loop norbitals file3 v2
            end
        end
      else
        v1 ← parseRow line v;
        if corner norbitals v1 then Ret (mv_matrix v1, file1)
        else parseMatrix_loop norbitals file1 v1
  end.

(** [parseMatrix]: the matrix and the rest of the file *)
Definition parseMatrix (norbitals : Z) (file : list string)
    : outcome (cx_mat * list string) :=
  matrix ← zeros cx_zero norbitals norbitals;
  parseMatrix_loop norbitals file
    {| mv_matrix := matrix; mv_colIndicesStr := ""; mv_colIndices := [];
       mv_colIndex := 0; mv_rowIndex := 0 |}.

(** ** The scanner *)

Definition SOC_STRING : string := "to_be_defined_for_crystal23".
Definition MAGNETIC_STRING : string := "UNRESTRICTED OPEN SHELL".

(** The branch that the [if]/[else if] chain of [parseContent] takes for
    a line: the first marker found, in the order of the source. *)
Inductive section : Type :=
| Lattice | AtomCount | ShellCount | OrbitalCount | ElectronCount
| CoreElectronCount | Atoms | Basis | Overlap | SpinOrbit | Magnetic | Other.

Definition classify (line : string) : section :=
  if contains line "DIRECT LATTICE VECTOR COMPONENTS" then Lattice
  else if contains line "N. OF ATOMS PER CELL" then AtomCount
  else if contains line "NUMBER OF SHELLS" then ShellCount
  else if contains line "NUMBER OF AO" then OrbitalCount
  else if contains line "N. OF ELECTRONS PER CELL" then ElectronCount
  else if contains line "CORE ELECTRONS PER CELL" then CoreElectronCount
  else if contains line "ATOM" && contains line "SHELL" then Atoms
  else if contains line "LOCAL ATOMIC FUNCTIONS BASIS SET" then Basis
  else if contains line "OVERLAP MATRIX" then Overlap
  else if contains line SOC_STRING then SpinOrbit
  else if contains line MAGNETIC_STRING then Magnetic
  else Other.

(** [line = line.substr(...); std::istringstream iss(line); iss >> n;]
    for a data member [n]: the tail of the line and the new value. *)
Definition parseCount (line marker : string) (n : Z) : outcome (string * Z) :=
  tail ← after_marker line marker;
  Ret (tail, fst (shift_int (Some tail) n)).

(** [iss >> cellIndex >> parenthesis >> x >> y >> z] on fresh locals: the
    cell index and [coefCombinations]. *)
Definition parseCell (tail : string) : option Z * list (option Z) :=
  let iss := Some tail in
  let '(cellIndex, iss) := shift extract_int iss None in
  let '(_, iss) := shift_string iss "" in
  let '(x, iss) := shift extract_int iss None in
  let '(y, iss) := shift extract_int iss None in
  let '(z, _) := shift extract_int iss None in
  (cellIndex, [x; y; z]).

(** [for (int i = 0; i < ndim; i++)
       cell += bravaisLattice.row(i) * coefCombinations[i];]
    with [n] rounds to go *)
Fixpoint translation (lattice : mat Q) (coefCombinations : list (option Z))
    (n : nat) (i : nat) (cell : list Q) : outcome (list Q) :=
  match n with
  | O => Ret cell
  | S n' =>
      r ← row lattice i;
      c ← at_ coefCombinations i;
      k ← use c;
      cell' ← axpy cell r k;
      translation lattice coefCombinations n' (S i) cell'
  end.

(** The [OVERLAP MATRIX] branch *)
Definition parseOverlap (ncells : Z) (line : string) (st : state)
    : outcome (string * state) :=
  tail ← after_marker line "OVERLAP MATRIX - CELL N.";
  let '(cellIndex, coefCombinations) := parseCell tail in
  cellIndex ← use cellIndex;
  if cellIndex <=? ncells then
    cell ← translation (bravaisLattice st) coefCombinations (ndim st) O
             [0%Q; 0%Q; 0%Q];
    vectors ← join_vert (bravaisVectors st) cell;
    '(overlapMatrix, file) ← parseMatrix (norbitals st) (m_file st);
    overlap ← join_slices (overlapMatrices st) overlapMatrix;
    Ret (tail, set_overlapMatrices overlap
                 (set_m_file file (set_bravaisVectors vectors st)))
  else Ret (tail, st).

(** The chain of [else if] on one line: the line as the branch leaves it
    and the new state. *)
Definition dispatch (ncells : Z) (threshold : Q) (line : string) (st : state)
    : outcome (string * state) :=
  match classify line with
  | Lattice => st' ← parseBravaisLattice threshold st; Ret (line, st')
  | AtomCount =>
      '(tail, n) ← parseCount line "N. OF ATOMS PER CELL" (natoms st);
      Ret (tail, set_natoms n st)
  | ShellCount =>
      '(tail, n) ← parseCount line "NUMBER OF SHELLS" (nshells st);
      Ret (tail, set_nshells n st)
  | OrbitalCount =>
      '(tail, n) ← parseCount line "NUMBER OF AO" (norbitals st);
      Ret (tail, set_norbitals n st)
  | ElectronCount =>
      '(tail, n) ← parseCount line "N. OF ELECTRONS PER CELL" (totalElectrons st);
      Ret (tail, set_totalElectrons n st)
  | CoreElectronCount =>
      '(tail, n) ← parseCount line "CORE ELECTRONS PER CELL" (coreElectrons st);
      Ret (tail, set_coreElectrons n st)
  | Atoms =>
      if natoms st =? 0
      then Throw (logic_error "Must parse first number of atoms")
      else st' ← parseAtoms st; Ret (line, st')
  | Basis => st' ← parseAtomicBasis st; Ret (line, st')
  | Overlap => parseOverlap ncells line st
  | SpinOrbit => Ret (line, set_SOC_FLAG true st)
  | Magnetic => Ret (line, set_MAGNETIC_FLAG true st)
  | Other => Ret (line, st)
  end.

(** The [FOCK MATRIX] block *)
Definition parseFock (ncells : Z) (line : string) (st : state) : outcome state :=
  tail ← after_marker line "FOCK MATRIX - CELL N.";
  let '(cellIndex, _) := parseCell tail in
  cellIndex ← use cellIndex;
  if cellIndex <=? ncells then
    '(fockMatrix, file) ← parseMatrix (norbitals st) (m_file st);
    let st := set_m_file file st in
    if MAGNETIC_FLAG st then
      if alpha_electrons st then
        alpha ← join_slices (alphaMatrices st) fockMatrix;
        Ret (set_alphaMatrices alpha st)
      else
        beta ← join_slices (betaMatrices st) fockMatrix;
        Ret (set_betaMatrices beta st)
    else if SOC_FLAG st then Ret st
    else
      fock ← join_slices (fockMatrices st) fockMatrix;
      Ret (set_fockMatrices fock st)
  else Ret st.

(** The body of the [while] loop for the line just read; [m_file st] is
    what follows that line. *)
Definition scan_line (ncells : Z) (threshold : Q) (line : string) (st : state)
    : outcome state :=
  '(line, st) ← dispatch ncells threshold line st;
  let st := if contains line "BETA" && contains line "ELECTRONS"
            then set_alpha_electrons false st else st in
  if contains line "FOCK MATRIX" then parseFock ncells line st
  else Ret st.

(** [while (std::getline(m_file, line))].  Every round takes a line, so
    one more round than the file has lines is enough fuel. *)
Fixpoint parseContent_loop (fuel : nat) (ncells : Z) (threshold : Q)
    (st : state) : outcome state :=
  match fuel with
  | O => Ret st
  | S fuel' =>
      match m_file st with
      | [] => Ret st
      | line :: file =>
          st' ← scan_line ncells threshold line (set_m_file file st);
          parseContent_loop fuel' ncells threshold st'
      end
  end.

Definition parseContent (ncells : Z) (threshold : Q) (st : state)
    : outcome state :=
  parseContent_loop (S (length (m_file st))) ncells threshold st.

(** ** The assembler *)

(** The loop of the magnetic branch of [mapContent], with [n] rounds to
    go: the Fock stack and the new overlap stack. *)
Fixpoint combineSpin (alpha beta overlap : cx_cube) (n : nat) (i : nat)
    (fock newOverlap : cx_cube) : outcome (cx_cube * cx_cube) :=
  match n with
  | O => Ret (fock, newOverlap)
  | S n' =>
      a ← slice alpha i;
      b ← slice beta i;
      totalFockMatrix ← mat_add (kron a spinUpBlock) (kron b spinDownBlock);
      fock' ← join_slices fock totalFockMatrix;
      s ← slice overlap i;
      newOverlap' ← join_slices newOverlap (kron s eye2);
      combineSpin alpha beta overlap n' (S i) fock' newOverlap'
  end.

(** [systemInfo.norbitals *= 2] on [arma::urowvec] *)
Definition double_counts (norbitals : list Z) : list Z :=
  map (fun n => uword (n * 2)) norbitals.

Definition mapContent (st : state) : outcome state :=
  let filling := Qdiv (inject_Z (totalElectrons st)) 2 in
  let norbitals := map uword (orbitalsPerSpecies st) in
  let info filling norbitals overlap hamiltonian :=
    {| info_ndim := ndim st;
       info_bravaisLattice := bravaisLattice st;
       info_motif := motif st;
       info_filling := filling;
       info_bravaisVectors := bravaisVectors st;
       info_overlap := overlap;
       info_norbitals := norbitals;
       info_hamiltonian := hamiltonian |} in
  if SOC_FLAG st then
    Ret (set_systemInfo
           (info (Qmult filling 2) (double_counts norbitals)
                 (overlapMatrices st) (fockMatrices st)) st)
  else if MAGNETIC_FLAG st then
    '(fock, newOverlap) ←
      combineSpin (alphaMatrices st) (betaMatrices st) (overlapMatrices st)
        (n_slices (alphaMatrices st)) O (fockMatrices st) [];
    Ret (set_systemInfo
           (info (Qmult filling 2) (double_counts norbitals) newOverlap fock)
           (set_fockMatrices fock st))
  else
    Ret (set_systemInfo
           (info filling norbitals (overlapMatrices st) (fockMatrices st)) st).

(** ** The constructor *)

Definition no_info : system_info :=
  {| info_ndim := O; info_bravaisLattice := []; info_motif := [];
     info_filling := 0%Q; info_bravaisVectors := []; info_overlap := [];
     info_norbitals := []; info_hamiltonian := [] |}.

(** Modelled from the spec: the member initialisers are in the class
    declaration, outside this file.  Sections 3 and 4.5 have the counts
    start at zero (the atom section tests the atom count against 0), the
    containers empty, the two spin flags clear and the scanner reading
    alpha-spin matrices until a BETA ELECTRONS line. *)
Definition fresh (file : list string) : state :=
  {| m_file := file; natoms := 0; nshells := 0; norbitals := 0;
     totalElectrons := 0; coreElectrons := 0; ndim := O;
     bravaisLattice := []; motif := []; shellsPerSpecies := [];
     nspecies := 0; orbitalsPerSpecies := [];
     gaussianCoefficients := ∅; shellTypesPerSpecies := ∅;
     overlapMatrices := []; fockMatrices := []; alphaMatrices := [];
     betaMatrices := []; bravaisVectors := [];
     SOC_FLAG := false; MAGNETIC_FLAG := false; alpha_electrons := true;
     systemInfo := no_info |}.

(** [CrystalDFTConfiguration(file, ncells)], the threshold of
    [parseContent] being a default argument of its declaration. *)
Definition construct (file : list string) (ncells : Z) (threshold : Q)
    : outcome state :=
  st ← parseContent ncells threshold (fresh file);
  mapContent st.

(** ** Statements about the scanner's state *)

(** As many translation vectors as overlap slices. *)
Definition aligned (st : state) : Prop :=
  n_rows (bravaisVectors st) = n_slices (overlapMatrices st).

(** The same, in the record handed to the caller. *)
Definition aligned_info (info : system_info) : Prop :=
  n_rows (info_bravaisVectors info) = n_slices (info_overlap info).

(** What a branch of the scanner leaves untouched. *)
Definition same_matrices (st st' : state) : Prop :=
  overlapMatrices st' = overlapMatrices st /\
  fockMatrices st' = fockMatrices st /\
  alphaMatrices st' = alphaMatrices st /\
  betaMatrices st' = betaMatrices st /\
  bravaisVectors st' = bravaisVectors st.

(** ** Sample inputs *)

(** The lattice block of a polymer: one periodic direction, and the two
    long placeholder vectors that CRYSTAL prints for the others. *)
Definition polymer_lattice : list string :=
  [ "   2.5   0.0   0.0";
    "   0.0 500.0   0.0";
    "   0.0   0.0 500.0" ].

(** A 2x2 matrix block that stops after its first row. *)
Definition truncated_block : list string :=
  [ ""; "           1           2"; "";
    "   1   1.0000E+00   2.5000E-01" ].

(** An atom section met before any atom count. *)
Definition early_atoms : list string :=
  [ " ATOM N.AT.  SHELL    X(A)      Y(A)      Z(A)      EXAD       N.ELECT.";
    " *******************************************************************";
    "    1    6 C    3     0.000     0.000     0.000   1.0   6.0" ].

(** A short but complete output: a slab with two atoms, two orbitals and
    three cells, of which the caller may keep fewer. *)
Definition slab_output : list string :=
  [ " DIRECT LATTICE VECTOR COMPONENTS (ANGSTROM)";
    "   2.5   0.0   0.0";
    "   0.0   2.5   0.0";
    "   0.0   0.0 500.0";
    " N. OF ATOMS PER CELL         2  COULOMB OVERLAP TOL";
    " NUMBER OF SHELLS             2  COULOMB PENETRATION TOL";
    " NUMBER OF AO                 2  EXCHANGE OVERLAP TOL";
    " N. OF ELECTRONS PER CELL     2  EXCHANGE PSEUDO OVP";
    " CORE ELECTRONS PER CELL      0  EXCHANGE PSEUDO OVP";
    " ATOM N.AT.  SHELL    X(A)      Y(A)      Z(A)      EXAD       N.ELECT.";
    " *******************************************************************";
    "    1    1 H    1     1.000     0.500     0.000   1.0   1.0";
    "    2    1 H    1     0.000     0.000     0.000   1.0   1.0";
    " *******************************************************************";
    " LOCAL ATOMIC FUNCTIONS BASIS SET";
    " *******************************************************************";
    "   ATOM   X(AU)   Y(AU)   Z(AU)  N. TYPE  EXPONENT  S COEF   P COEF   D/F/G COEF";
    " *******************************************************************";
    "   1 H     1.889   0.944   0.000";
    "                                   1 S  ";
    "                                         5.447E+00 1.562E-01 0.000E+00 0.000E+00";
    "                                         8.245E-01 9.046E-01 0.000E+00 0.000E+00";
    "   2 H     0.000   0.000   0.000";
    " OVERLAP MATRIX - CELL N.   1(  0  0  0)";
    "";
    "           1           2";
    "";
    "   1   1.0000E+00   2.5000E-01";
    "   2   2.5000E-01   1.0000E+00";
    " OVERLAP MATRIX - CELL N.   2(  1  0  0)";
    "";
    "           1           2";
    "";
    "   1   1.0000E-01   0.0000E+00";
    "   2   2.0000E-02   1.0000E-01";
    " OVERLAP MATRIX - CELL N.   3( -1  0  0)";
    "";
    "           1           2";
    "";
    "   1   1.0000E-01   2.0000E-02";
    "   2   0.0000E+00   1.0000E-01";
    " FOCK MATRIX - CELL N.   1(  0  0  0)";
    "";
    "           1";
    "";
    "   1  -5.0000E-01";
    "   2   1.2500E-01";
    "";
    "           2";
    "";
    "   1   1.2500E-01";
    "   2  -5.0000E-01";
    " FOCK MATRIX - CELL N.   2(  1  0  0)";
    "";
    "           1           2";
    "";
    "   1   1.0000E-02   0.0000E+00";
    "   2   2.0000E-03   1.0000E-02";
    " FOCK MATRIX - CELL N.   3( -1  0  0)";
    "";
    "           1           2";
    "";
    "   1   1.0000E-02   2.0000E-03";
    "   2   0.0000E+00   1.0000E-02";
    " TTTTTTTTTTTTTTTTTTTTTTTTTTTTTT END         TELAPSE        1.00 TCPU        1.00" ].

(** ** Atom records *)

(** What one line of the atom section holds. *)
Record atom_record : Type := {
  r_index : Z;
  r_natom : Z;
  r_label : string;
  r_nshells : Z;
  r_x : Q;
  r_y : Q;
  r_z : Q
}.

Definition vars_of (r : atom_record) : atom_vars :=
  {| a_index := Some (r_index r); a_natom := Some (r_natom r);
     a_species := r_label r; a_nshells := Some (r_nshells r);
     a_x := Some (r_x r); a_y := Some (r_y r); a_z := Some (r_z r) |}.

(** The record that [read_atom] finds in a line: every numeric field has
    been assigned by its extraction. *)
Definition atom_of_line (line : string) : option atom_record :=
  let v := read_atom line no_atom_vars in
  match a_index v, a_natom v, a_nshells v, a_x v, a_y v, a_z v with
  | Some i, Some n, Some k, Some x, Some y, Some z =>
      Some {| r_index := i; r_natom := n; r_label := a_species v;
              r_nshells := k; r_x := x; r_y := y; r_z := z |}
  | _, _, _, _, _, _ => None
  end.

(** The distinct labels of a list, in the order of their first
    appearance. *)
Fixpoint nub (labels : list string) : list string :=
  match labels with
  | [] => []
  | l :: labels' => l :: filter (fun l' => l' <> l) (nub labels')
  end.

(** The place of the first [l] in [species] (its length when there is
    none). *)
Fixpoint position (l : string) (species : list string) : nat :=
  match species with
  | [] => O
  | s :: species' => if String.eqb s l then O else S (position l species')
  end.

(** The motif row of an atom: its position as read, and the index of its
    species among [species] as a number. *)
Definition motif_row (species : list string) (r : atom_record) : list Q :=
  [r_x r; r_y r; r_z r; inject_Z (Z.of_nat (position (r_label r) species))].

(** The map from labels to indices agrees with the list of species. *)
Definition species_map (species : list string) (to_index : gmap string Z) : Prop :=
  (forall s, s ∈ species -> to_index !! s = Some (Z.of_nat (position s species))) /\
  (forall s, s ∉ species -> to_index !! s = None) /\
  size to_index = length species.

(** The first atom of a motif is at the origin. *)
Definition first_atom_at_origin (motif : mat Q) : Prop :=
  exists x y z tag,
    motif !! O = Some [x; y; z; tag] /\ (x == 0 /\ y == 0 /\ z == 0)%Q.

(** Five atoms of three species, the first of them away from the origin. *)
Definition five_atoms : list string :=
  [ " *******************************************************************";
    "    1    6 C    3     1.000     2.000     3.000";
    "    2    1 H    1     0.000     0.000     0.000";
    "    3    6 C    3    -1.000     2.000     3.000";
    "    4    8 O    4     1.500     0.000     0.000";
    "    5    1 H    1     0.000     0.000     1.000";
    " next section" ].

(** ** Matrices in blocks *)

(** [D] rows of [D] entries. *)
Definition square {A : Type} (D : nat) (M : mat A) : Prop :=
  length M = D /\ Forall (fun r => length r = D) M.

(** The entry in row [r] and column [c], counted from 0. *)
Definition entry {A : Type} (M : mat A) (r c : nat) : option A :=
  M !! r ≫= fun v => v !! c.

(** What [parseRow] finds in a data line: the row index and the
    coefficients after it. *)
Definition read_row (line : string) : option (Z * list Q) :=
  match extract_int line with
  | Got r rest => Some (r, split rest)
  | _ => None
  end.

(** The entries of a matrix row in the columns [cols], counted from 1. *)
Definition pick (v : list Q) (cols : list nat) : list Q :=
  map (fun c => default 0%Q (v !! pred c)) cols.

(** The text of one block: the line of column indices, whether a blank
    line follows it, and the data lines. *)
Record block_text : Type := {
  bt_header : string;
  bt_gap : bool;
  bt_rows : list string
}.

Definition block_lines (b : block_text) : list string :=
  ("" :: bt_header b :: (if bt_gap b then [""] else []) ++ bt_rows b)%list.

(** Line [line] prints row [i] (from 0) of [R] in the columns [cols]:
    the row index from 1, then the entries. *)
Definition prints_row (R : mat Q) (cols : list nat) (line : string) (i : nat)
    : Prop :=
  read_row line = Some (Z.of_nat (S i), pick (default [] (R !! i)) cols).

(** The block [b] prints the columns [cols] of [R]: its header holds
    these column indices, and its data lines are the rows of [R] in
    order. *)
Definition prints (R : mat Q) (cols : list nat) (b : block_text) : Prop :=
  extract_ints (bt_header b) = map Z.of_nat cols /\
  Forall2 (prints_row R cols) (bt_rows b) (seq 0 (length R)).

(** A 3x3 matrix printed in the blocks of columns [1] and [2; 3]. *)
Definition sample_matrix : mat Q :=
  [[1; 1 # 4; 0]; [1 # 4; 1; -1 # 2]; [0; -1 # 2; 2]]%Q.

Definition sample_blocks : list block_text :=
  [ {| bt_header := "           1"; bt_gap := true;
       bt_rows := ["   1   1.0000E+00"; "   2   2.5000E-01"; "   3   0.0000E+00"] |};
    {| bt_header := "           2           3"; bt_gap := false;
       bt_rows := ["   1   2.5000E-01   0.0000E+00";
                   "   2   1.0000E+00  -5.0000E-01";
                   "   3  -5.0000E-01   2.0000E+00"] |} ].

(** [M] holds the entries of [T] wherever [P] says so. *)
Definition agree (T M : cx_mat) (P : nat -> nat -> Prop) : Prop :=
  forall r c, P r c -> entry M r c = entry T r c.

(** ** Sections beyond the cell limit *)

Fixpoint occurs (c : ascii) (s : string) : bool :=
  match s with
  | EmptyString => false
  | String a s' => (a =? c)%char || occurs c s'
  end.

Fixpoint all_chars (p : ascii -> bool) (s : string) : bool :=
  match s with
  | EmptyString => true
  | String a s' => p a && all_chars p s'
  end.

(** The characters of the lines of a matrix block: blanks, digits, signs,
    the decimal point and the exponent letter. *)
Definition numeric_char (c : ascii) : bool :=
  isspace c || bool_decide (is_Some (digit_of c)) ||
  (c =? "+")%char || (c =? "-")%char || (c =? ".")%char ||
  (c =? "e")%char || (c =? "E")%char.

Definition numeric_line (line : string) : bool := all_chars numeric_char line.

(** The cell index that the scanner reads after [marker]. *)
Definition cell_index (line marker : string) : option Z :=
  match after_marker line marker with
  | Ret tail => fst (parseCell tail)
  | _ => None
  end.

(** The two tests that [parseContent] makes after its chain of branches
    both fail. *)
Definition quiet (line : string) : bool :=
  negb (contains line "BETA" && contains line "ELECTRONS") &&
  negb (contains line "FOCK MATRIX").

(** The header of an OVERLAP section (taken by the OVERLAP branch, what
    follows the marker naming no other section) or of a FOCK section (a
    line of no branch that holds FOCK MATRIX), with a cell index above
    [ncells]. *)
Definition rejected_header (ncells : Z) (line : string) : bool :=
  match classify line with
  | Overlap =>
      match after_marker line "OVERLAP MATRIX - CELL N." with
      | Ret tail =>
          match fst (parseCell tail) with
          | Some i => (ncells <? i) && quiet tail
          | None => false
          end
      | _ => false
      end
  | Other =>
      contains line "FOCK MATRIX" &&
      negb (contains line "BETA" && contains line "ELECTRONS") &&
      match cell_index line "FOCK MATRIX - CELL N." with
      | Some i => ncells <? i
      | None => false
      end
  | _ => false
  end.

(** A section beyond the limit: its header and the lines of its block. *)
Definition rejected_section (ncells : Z) (lines : list string) : Prop :=
  match lines with
  | header :: block =>
      rejected_header ncells header = true /\
      Forall (fun l => numeric_line l = true) block
  | [] => False
  end.

(** Two sections beyond cell 1, an OVERLAP and a FOCK one, and a FOCK
    section of cell 1 after them. *)
Definition far_cells : list (list string) :=
  [ [ " OVERLAP MATRIX - CELL N.   2(  1  0  0)";
      "";
      "           1           2";
      "";
      "   1   1.0000E-01   0.0000E+00";
      "   2   2.0000E-02   1.0000E-01" ];
    [ " FOCK MATRIX - CELL N.   3( -1  0  0)";
      "";
      "           1           2";
      "";
      "   1   1.0000E-02   2.0000E-03";
      "   2   0.0000E+00   1.0000E-02" ] ].

Definition near_cell : list string :=
  [ " FOCK MATRIX - CELL N.   1(  0  0  0)";
    "";
    "           1           2";
    "";
    "   1  -5.0000E-01   1.2500E-01";
    "   2   1.2500E-01  -5.0000E-01";
    " TTTTTTTTTTTTTTTTTTTTTTTTTTTTTT END" ].

(** ** Spin *)

(** Equality of complex numbers as numbers. *)
Definition cx_eq (a b : complex) : Prop :=
  (fst a == fst b /\ snd a == snd b)%Q.

(** [kron(A, spinUpBlock) + kron(B, spinDownBlock)] *)
Definition spin_blocks (A B : cx_mat) : cx_mat :=
  zip_with (zip_with cx_add) (kron A spinUpBlock) (kron B spinDownBlock).

(** An output that carries both the magnetic marker and the spin-orbit
    marker, with one orbital and one cell. *)
Definition spin_clash_output : list string :=
  [ " NUMBER OF AO                 1  EXCHANGE OVERLAP TOL";
    " N. OF ELECTRONS PER CELL     2  EXCHANGE PSEUDO OVP";
    " TYPE OF CALCULATION :  UNRESTRICTED OPEN SHELL";
    " to_be_defined_for_crystal23";
    " OVERLAP MATRIX - CELL N.   1(  0  0  0)";
    "";
    "           1";
    "";
    "   1   1.0000E+00";
    " ALPHA ELECTRONS";
    " FOCK MATRIX - CELL N.   1(  0  0  0)";
    "";
    "           1";
    "";
    "   1  -5.0000E-01";
    " BETA ELECTRONS";
    " FOCK MATRIX - CELL N.   1(  0  0  0)";
    "";
    "           1";
    "";
    "   1  -2.5000E-01" ].

(** The same output without the spin-orbit marker. *)
Definition magnetic_output : list string :=
  (take 3 spin_clash_output ++ drop 4 spin_clash_output)%list.

(** The state that the scan of [magnetic_output] ends in. *)
Definition magnetic_state : state :=
  Eval vm_compute in
  match parseContent 1 100 (fresh magnetic_output) with
  | Ret st => st
  | _ => fresh []
  end.

(** ** The basis section *)

(** The label that [iss >> natom >> chemical_species] finds in the line
    of an atom. *)
Definition basis_atom (line : string) : option string :=
  match extract_int line with
  | Got _ rest =>
      match extract_string rest with
      | Got label _ => Some label
      | _ => None
      end
  | _ => None
  end.

(** The cumulative orbital count and the type that [read_shell] finds in
    the header of a shell, in either encoding. *)
Definition shell_of_line (line : string) : option (Z * string) :=
  match extract_int line with
  | Got n r1 =>
      match extract_string r1 with
      | Got ty r2 =>
          if String.eqb ty "-" then
            match extract_int r2 with
            | Got n' r3 =>
                match extract_string r3 with
                | Got ty' _ => Some (n', ty')
                | _ => None
                end
            | _ => None
            end
          else Some (n, ty)
      | _ => None
      end
  | _ => None
  end.

(** A row of a Gaussian table: exactly four numbers. *)
Definition coefficient_row (line : string) : Prop := length (split line) = 4%nat.

(** The table of a shell ends before [file]. *)
Definition ends_table (file : list string) : Prop :=
  match file with
  | l :: _ => ~ coefficient_row l
  | [] => True
  end.

(** The text of a shell: its header and the rows of its table. *)
Record shell_text : Type := {
  sh_header : string;
  sh_rows : list string
}.

Definition shell_lines (sh : shell_text) : list string :=
  sh_header sh :: sh_rows sh.

(** The header of [sh] gives the cumulative orbital count [c]. *)
Definition shell_counts_to (sh : shell_text) (c : Z) : Prop :=
  (exists ty, shell_of_line (sh_header sh) = Some (c, ty)) /\
  ~ coefficient_row (sh_header sh) /\
  Forall coefficient_row (sh_rows sh).

(** The lines of a basis section after its three header lines, for an
    object whose atoms were parsed before: atom [i] is either the first
    of its species, with as many shells as [shellsPerSpecies] has for
    the next species, or a repeat, printed without shells, whose motif
    row carries the index of its species.  Each atom is described by its
    label and the cumulative counts of its shells. *)
Inductive basis_text (shellsPerSpecies : list Z) (motif : mat Q)
    : nat -> list string -> list (string * list Z) -> list string -> Prop :=
| basis_end i species :
    basis_text shellsPerSpecies motif i species [] []
| basis_new i species label cumul line shells atoms lines :
    label ∉ species ->
    basis_atom line = Some label ->
    ~ coefficient_row line ->
    shellsPerSpecies !! length species = Some (Z.of_nat (length shells)) ->
    shells <> [] ->
    Forall2 shell_counts_to shells cumul ->
    basis_text shellsPerSpecies motif (S i) (species ++ [label])%list atoms lines ->
    basis_text shellsPerSpecies motif i species ((label, cumul) :: atoms)
      (line :: concat (map shell_lines shells) ++ lines)%list
| basis_seen i species label line atoms lines tags :
    label ∈ species ->
    basis_atom line = Some label ->
    ~ coefficient_row line ->
    motif !! i = Some tags ->
    tags !! 3%nat = Some (inject_Z (Z.of_nat (position label species))) ->
    basis_text shellsPerSpecies motif (S i) species atoms lines ->
    basis_text shellsPerSpecies motif i species ((label, []) :: atoms)
      (line :: lines).

(** The orbital counts in the words of the specification: for an atom of
    a new species, the cumulative count at the end of its shells minus
    the running total, which then becomes that cumulative count; for an
    atom of a species seen before, no count, and the running total
    advances by the count recorded for its species. *)
Fixpoint derive (atoms : list (string * list Z)) (species : list string)
    (total : Z) (counts : list Z) : list Z :=
  match atoms with
  | [] => counts
  | (label, cumul) :: atoms' =>
      if absent species label then
        let c := default 0 (last cumul) in
        derive atoms' (species ++ [label])%list c (counts ++ [c - total])%list
      else
        derive atoms' species
          (total + default 0 (counts !! position label species)) counts
  end.

(** The fields that the shells of a species leave alone. *)
Definition same_counts (s s' : basis_loop) : Prop :=
  bl_totalOrbitals s' = bl_totalOrbitals s /\
  bl_nspecies s' = bl_nspecies s /\
  bl_species s' = bl_species s /\
  bl_orbitalsPerSpecies s' = bl_orbitalsPerSpecies s.

(** Three atoms of two species, the second a repeat of the first, as
    CRYSTAL prints them: the orbitals of the third atom are numbered
    after those of the first two. *)
Definition three_atoms (third_shell : string) : list string :=
  [ " N. OF ATOMS PER CELL         3  COULOMB OVERLAP TOL";
    " ATOM N.AT.  SHELL    X(A)      Y(A)      Z(A)      EXAD       N.ELECT.";
    " *******************************************************************";
    "    1    6 C    3     0.000     0.000     0.000";
    "    2    6 C    3     1.000     1.000     0.000";
    "    3    1 H    1     2.000     0.000     0.000";
    " *******************************************************************";
    " LOCAL ATOMIC FUNCTIONS BASIS SET";
    " *******************************************************************";
    "   ATOM   X(AU)   Y(AU)   Z(AU)  N. TYPE  EXPONENT  S COEF   P COEF   D/F/G COEF";
    " *******************************************************************";
    "   1 C     0.000   0.000   0.000";
    "                                   1 S  ";
    "                                         3.048E+03 1.826E-03 0.000E+00 0.000E+00";
    "                                         4.564E+02 1.406E-02 0.000E+00 0.000E+00";
    "                                   2-   5 SP ";
    "                                         7.868E+00-1.193E-01 6.899E-02 0.000E+00";
    "                                   6-  10 D  ";
    "                                         8.000E-01 0.000E+00 0.000E+00 1.000E+00";
    "   2 C     1.889   1.889   0.000";
    "   3 H     3.779   0.000   0.000";
    third_shell;
    "                                         1.873E+01 3.349E-02 0.000E+00 0.000E+00";
    " *******************************************************************" ].

(** The object after the atom section of [three_atoms], placed after the
    marker of the basis section. *)
Definition basis_state (third_shell : string) : state :=
  match parseContent 1 100 (fresh (take 7 (three_atoms third_shell))) with
  | Ret st => set_m_file (drop 8 (three_atoms third_shell)) st
  | _ => fresh []
  end.

(** ** Further statements *)

(** What the loop of [extractDimension] leaves of the rows from the
    current one on: a row beyond the threshold goes, and the row after it
    stays without being tested. *)
Fixpoint shed_skip (threshold : Q) (rows : mat Q) : mat Q :=
  match rows with
  | [] => []
  | r :: rest =>
      if norm_gt r threshold then
        match rest with
        | [] => []
        | r' :: rest' => r' :: shed_skip threshold rest'
        end
      else r :: shed_skip threshold rest
  end.

(** No row beyond the threshold directly follows another one. *)
Fixpoint long_rows_apart (threshold : Q) (rows : mat Q) : Prop :=
  match rows with
  | [] => True
  | r :: rest =>
      (norm_gt r threshold = true ->
       match rest with
       | [] => True
       | r' :: _ => norm_gt r' threshold = false
       end) /\
      long_rows_apart threshold rest
  end.

(** The rows within the threshold. *)
Definition short_rows (threshold : Q) (rows : mat Q) : mat Q :=
  filter (fun r => norm_gt r threshold = false) rows.

(** A line of blanks: not empty, and nothing but white space. *)
Definition blank_line (line : string) : Prop :=
  empty line = false /\ skipws line = "".



(** The value that [iss >> n] leaves in a member that held [old]. *)
Definition stored (tail : string) (old : Z) : Z :=
  match extract_int tail with
  | Got v _ => v
  | Bad v => v
  | Nothing => old
  end.

(** The records that open a species: those whose label no earlier record
    has. *)
Fixpoint first_records (records : list atom_record) : list atom_record :=
  match records with
  | [] => []
  | r :: records' =>
      r :: filter (fun r' => r_label r' <> r_label r) (first_records records')
  end.

(** A matrix section cut to the bare words OVERLAP MATRIX. *)
Definition short_header : list string := [" OVERLAP MATRIX"; "   1   1.0"].

(** An atom section of three atoms in a file that ends after the second. *)
Definition cut_atoms : list string :=
  [ " *******************************************************************";
    "    1    6 C    3     1.000     2.000     3.000";
    "    2    1 H    1     0.000     0.500     0.000" ].

(** The spin flags are as they were. *)
Definition same_spin (st st' : state) : Prop :=
  SOC_FLAG st' = SOC_FLAG st /\
  MAGNETIC_FLAG st' = MAGNETIC_FLAG st /\
  alpha_electrons st' = alpha_electrons st.

(** No spin flag has gone back: the spin-orbit and the magnetic flag
    stay set, and the alpha flag stays cleared. *)
Definition flags_kept (st st' : state) : Prop :=
  (SOC_FLAG st = true -> SOC_FLAG st' = true) /\
  (MAGNETIC_FLAG st = true -> MAGNETIC_FLAG st' = true) /\
  (alpha_electrons st = false -> alpha_electrons st' = false).

(** The stacks and the translation vectors of [st'] are those of [st]
    with further entries after them. *)
Definition stacks_grow (st st' : state) : Prop :=
  overlapMatrices st `prefix_of` overlapMatrices st' /\
  fockMatrices st `prefix_of` fockMatrices st' /\
  alphaMatrices st `prefix_of` alphaMatrices st' /\
  betaMatrices st `prefix_of` betaMatrices st' /\
  bravaisVectors st `prefix_of` bravaisVectors st'.

(** Where the Fock matrices read between [st] and [st'] cannot have
    gone. *)
Definition routed (st st' : state) : Prop :=
  (MAGNETIC_FLAG st' = false ->
   alphaMatrices st' = alphaMatrices st /\ betaMatrices st' = betaMatrices st) /\
  (MAGNETIC_FLAG st = true \/ SOC_FLAG st = true ->
   fockMatrices st' = fockMatrices st) /\
  (alpha_electrons st = false -> alphaMatrices st' = alphaMatrices st) /\
  (MAGNETIC_FLAG st = true -> alpha_electrons st' = true ->
   betaMatrices st' = betaMatrices st).

(** What the lines between [st] and [st'] may have done to the flags
    and the stacks. *)
Definition scan_rel (st st' : state) : Prop :=
  flags_kept st st' /\ stacks_grow st st' /\ routed st st'.

(** An unrestricted calculation: one matrix for the alpha electrons, the
    line BETA ELECTRONS, two matrices for the beta electrons. *)
Definition two_fock_blocks : list string :=
  [ " NUMBER OF AO 1";
    " UNRESTRICTED OPEN SHELL";
    " FOCK MATRIX - CELL N.   1(  0  0  0)";
    "";
    "     1";
    "";
    " 1  1.5";
    " BETA ELECTRONS";
    " FOCK MATRIX - CELL N.   1(  0  0  0)";
    "";
    "     1";
    "";
    " 1  2.5";
    " FOCK MATRIX - CELL N.   2(  1  0  0)";
    "";
    "     1";
    "";
    " 1  3.5" ].

(** The type label in the header of a shell, and its table as rows of
    four numbers. *)
Definition shell_type (sh : shell_text) : string :=
  match shell_of_line (sh_header sh) with
  | Some (_, ty) => ty
  | None => ""
  end.

Definition shell_table (sh : shell_text) : list (list Q) :=
  map split (sh_rows sh).

(** The lines of a basis section after its three header lines, as in
    [basis_text], each atom described by its label and the text of its
    shells: none for a repeat. *)
Inductive basis_shells (shellsPerSpecies : list Z) (motif : mat Q)
    : nat -> list string -> list (string * list shell_text) -> list string
      -> Prop :=
| section_end i species :
    basis_shells shellsPerSpecies motif i species [] []
| section_new i species label line shells atoms lines :
    label ∉ species ->
    basis_atom line = Some label ->
    ~ coefficient_row line ->
    shellsPerSpecies !! length species = Some (Z.of_nat (length shells)) ->
    shells <> [] ->
    Forall (fun sh => exists c, shell_counts_to sh c) shells ->
    basis_shells shellsPerSpecies motif (S i) (species ++ [label])%list atoms lines ->
    basis_shells shellsPerSpecies motif i species ((label, shells) :: atoms)
      (line :: concat (map shell_lines shells) ++ lines)%list
| section_seen i species label line atoms lines tags :
    label ∈ species ->
    basis_atom line = Some label ->
    ~ coefficient_row line ->
    motif !! i = Some tags ->
    tags !! 3%nat = Some (inject_Z (Z.of_nat (position label species))) ->
    basis_shells shellsPerSpecies motif (S i) species atoms lines ->
    basis_shells shellsPerSpecies motif i species ((label, []) :: atoms)
      (line :: lines).

(** The shells of the atoms that open a species, in order. *)
Fixpoint species_shells (atoms : list (string * list shell_text))
    : list (list shell_text) :=
  match atoms with
  | [] => []
  | (_, []) :: atoms' => species_shells atoms'
  | (_, shells) :: atoms' => shells :: species_shells atoms'
  end.

(** The two maps hold, under the index of each species of [done], the
    types and the tables of its shells. *)
Definition holds_shells (done : list (list shell_text))
    (types : gmap Z (list string)) (tables : gmap Z cube_vector) : Prop :=
  forall k shells,
    done !! k = Some shells ->
    types !! Z.of_nat k = Some (map shell_type shells) /\
    tables !! Z.of_nat k = Some (map shell_table shells).

(** An unrestricted output cut before its beta matrices, and the state
    that its scan ends in. *)
Definition alpha_only_output : list string := take 14 magnetic_output.

Definition alpha_only_state : state :=
  Eval vm_compute in
  match parseContent 1 100 (fresh alpha_only_output) with
  | Ret st => st
  | _ => fresh []
  end.

(** A line that no branch of the scanner takes. *)
Definition unmarked (line : string) : Prop :=
  classify line = Other /\ quiet line = true.

(** A text that holds none of the markers. *)
Definition plain_text : list string :=
  [ "# xatu"; ""; "  Excitons in 2D materials."; "  1.0  2.0  3.0" ].

(** * Properties *)

Open Scope list_scope.

(** ** Outcomes *)

Lemma bind_Ret {A B : Type} (m : outcome A) (k : A -> outcome B) (b : B) :
  m ≫= k = Ret b -> exists a, m = Ret a /\ k a = Ret b.
Proof. destruct m; simpl; intros H; try discriminate. eauto. Qed.

(** Split a hypothesis [x ← m; k = Ret b] into its two steps. *)
Ltac bind_inv H :=
  let a := fresh "a" in
  let Ha := fresh "Hm" in
  apply bind_Ret in H; destruct H as (a & Ha & H).

Ltac case_if H :=
  match type of H with
  | context [if ?c then _ else _] => destruct c eqn:?
  end.

(** ** The file only shrinks *)

Lemma getline_length file line ok line' file' :
  getline file line = (ok, line', file') -> (length file' <= length file)%nat.
Proof. destruct file; simpl; intros [= <- <- <-]; simpl; lia. Qed.

Lemma extractDimension_file threshold st st' :
  extractDimension threshold st = Ret st' -> m_file st' = m_file st.
Proof.
  unfold extractDimension. intros H. bind_inv H. injection H as <-. reflexivity.
Qed.

Lemma parseBravaisLattice_length threshold st st' :
  parseBravaisLattice threshold st = Ret st' ->
  (length (m_file st') <= length (m_file st))%nat.
Proof.
  unfold parseBravaisLattice.
  destruct (getline (m_file st) "") as [[? l1] f1] eqn:E1.
  destruct (getline f1 l1) as [[? l2] f2] eqn:E2.
  destruct (getline f2 l2) as [[? l3] f3] eqn:E3.
  intros H. bind_inv H. apply extractDimension_file in H. rewrite H. simpl.
  apply getline_length in E1, E2, E3. lia.
Qed.

Lemma parseAtoms_body_length i s s' :
  parseAtoms_body i s = Ret s' -> (length (al_file s') <= length (al_file s))%nat.
Proof.
  unfold parseAtoms_body.
  destruct (getline (al_file s) (al_line s)) as [[? line] file] eqn:E.
  intros H. bind_inv H. destruct a as [[[? ?] ?] ?].
  do 3 bind_inv H. injection H as <-. simpl.
  eapply getline_length; eauto.
Qed.

Lemma parseAtoms_loop_length n : forall i s s',
  parseAtoms_loop n i s = Ret s' -> (length (al_file s') <= length (al_file s))%nat.
Proof.
  induction n as [|n IH]; simpl; intros i s s' H.
  - injection H as <-. lia.
  - bind_inv H. apply parseAtoms_body_length in Hm. apply IH in H. lia.
Qed.

Lemma parseAtoms_length st st' :
  parseAtoms st = Ret st' -> (length (m_file st') <= length (m_file st))%nat.
Proof.
  unfold parseAtoms. intros H. bind_inv H.
  destruct (getline (m_file st) "") as [[? line] file] eqn:E.
  do 2 bind_inv H. injection H as <-. simpl.
  apply parseAtoms_loop_length in Hm0. simpl in Hm0.
  apply getline_length in E. lia.
Qed.

Lemma parseCoefficients_length file : forall line coefList line' rest,
  parseCoefficients file line = (coefList, line', rest) ->
  (length rest <= length file)%nat.
Proof.
  induction file as [|l file IH]; simpl; intros line coefList line' rest H.
  - injection H as <- <- <-. simpl. lia.
  - destruct (length (split l) =? 4)%nat.
    + destruct (parseCoefficients file l) as [[c l'] r] eqn:E.
      injection H as <- <- <-. apply IH in E. lia.
    + injection H as <- <- <-. simpl. lia.
Qed.

Lemma parseShell_length s :
  (length (bl_file (parseShell s)) <= length (bl_file s))%nat.
Proof.
  unfold parseShell.
  destruct (getline (bl_file s) (bl_line s)) as [[? line] file] eqn:E.
  destruct (read_shell line (bl_norbitals s) (bl_shellType s)) as [no ty].
  destruct (parseCoefficients file line) as [[c l'] r] eqn:E'. simpl.
  apply getline_length in E. apply parseCoefficients_length in E'. lia.
Qed.

Lemma parseShells_length n : forall s,
  (length (bl_file (parseShells n s)) <= length (bl_file s))%nat.
Proof.
  induction n as [|n IH]; simpl; intros s; [lia|].
  specialize (IH (parseShell s)). pose proof (parseShell_length s). lia.
Qed.

Lemma parseAtomicBasis_body_length motif shells i s s' :
  parseAtomicBasis_body motif shells i s = Ret s' ->
  (length (bl_file s') <= length (bl_file s))%nat.
Proof.
  unfold parseAtomicBasis_body.
  destruct (getline (bl_file s) (bl_line s)) as [[? line] file] eqn:E.
  destruct (shift extract_int (Some line) (bl_natom s)) as [natom iss].
  destruct (shift_string iss (bl_species_name s)) as [sp ?].
  apply getline_length in E.
  destruct (absent (bl_species s) sp); intros H.
  - bind_inv H. bind_inv H. injection H as <-. simpl.
    match goal with |- (length (bl_file (parseShells ?n ?s0)) <= _)%nat =>
      pose proof (parseShells_length n s0) as L end.
    simpl in L. lia.
  - do 4 bind_inv H. injection H as <-. simpl. lia.
Qed.

Lemma parseAtomicBasis_loop_length motif shells n : forall i s s',
  parseAtomicBasis_loop motif shells n i s = Ret s' ->
  (length (bl_file s') <= length (bl_file s))%nat.
Proof.
  induction n as [|n IH]; simpl; intros i s s' H.
  - injection H as <-. lia.
  - bind_inv H. apply parseAtomicBasis_body_length in Hm. apply IH in H. lia.
Qed.

Lemma parseAtomicBasis_length st st' :
  parseAtomicBasis st = Ret st' -> (length (m_file st') <= length (m_file st))%nat.
Proof.
  unfold parseAtomicBasis.
  destruct (getline (m_file st) "") as [[? l1] f1] eqn:E1.
  destruct (getline f1 l1) as [[? l2] f2] eqn:E2.
  destruct (getline f2 l2) as [[? l3] f3] eqn:E3.
  intros H. bind_inv H. injection H as <-. simpl.
  apply parseAtomicBasis_loop_length in Hm. simpl in Hm.
  apply getline_length in E1, E2, E3. lia.
Qed.

Lemma parseMatrix_loop_length norbitals file : forall v matrix rest,
  parseMatrix_loop norbitals file v = Ret (matrix, rest) ->
  (length rest <= length file)%nat.
Proof.
  induction file as [file IH] using (well_founded_induction
    (Wf_nat.well_founded_ltof _ (@length string))).
  unfold Wf_nat.ltof in IH.
  intros v matrix rest H. destruct file as [|line file1]; [discriminate|].
  simpl in H. destruct (empty line).
  - destruct file1 as [|cs file2]; [discriminate|].
    destruct file2 as [|line2 file3]; [discriminate|].
    destruct (empty line2).
    + apply IH in H; simpl in *; lia.
    + bind_inv H. destruct (corner norbitals a).
      * injection H as <- <-. simpl. lia.
      * apply IH in H; simpl in *; lia.
  - bind_inv H. destruct (corner norbitals a).
    + injection H as <- <-. simpl. lia.
    + apply IH in H; simpl in *; lia.
Qed.

Lemma parseMatrix_length norbitals file matrix rest :
  parseMatrix norbitals file = Ret (matrix, rest) ->
  (length rest <= length file)%nat.
Proof.
  unfold parseMatrix. intros H. bind_inv H.
  eapply parseMatrix_loop_length; eauto.
Qed.

Lemma same_matrices_refl st : same_matrices st st.
Proof. repeat split. Qed.

Lemma extractDimension_matrices threshold st st' :
  extractDimension threshold st = Ret st' -> same_matrices st st'.
Proof.
  unfold extractDimension. intros H. bind_inv H. injection H as <-.
  repeat split.
Qed.

Lemma parseBravaisLattice_matrices threshold st st' :
  parseBravaisLattice threshold st = Ret st' -> same_matrices st st'.
Proof.
  unfold parseBravaisLattice.
  destruct (getline (m_file st) "") as [[? l1] f1].
  destruct (getline f1 l1) as [[? l2] f2].
  destruct (getline f2 l2) as [[? l3] f3].
  intros H. bind_inv H. apply extractDimension_matrices in H.
  destruct H as (?&?&?&?&?). repeat split; assumption.
Qed.

Lemma parseAtoms_matrices st st' :
  parseAtoms st = Ret st' -> same_matrices st st'.
Proof.
  unfold parseAtoms. intros H. bind_inv H.
  destruct (getline (m_file st) "") as [[? line] file].
  do 2 bind_inv H. injection H as <-. repeat split.
Qed.

Lemma parseAtomicBasis_matrices st st' :
  parseAtomicBasis st = Ret st' -> same_matrices st st'.
Proof.
  unfold parseAtomicBasis.
  destruct (getline (m_file st) "") as [[? l1] f1].
  destruct (getline f1 l1) as [[? l2] f2].
  destruct (getline f2 l2) as [[? l3] f3].
  intros H. bind_inv H. injection H as <-. repeat split.
Qed.

Lemma join_slices_Ret C M C' : join_slices C M = Ret C' -> C' = (C ++ [M])%list.
Proof. unfold join_slices. case_match; intros [= <-]; reflexivity. Qed.

Lemma join_vert_Ret M r M' : join_vert M r = Ret M' -> M' = (M ++ [r])%list.
Proof. unfold join_vert. case_match; intros [= <-]; reflexivity. Qed.

(** The OVERLAP branch either rejects the cell and changes nothing, or
    appends one translation vector and one overlap slice. *)
Lemma parseOverlap_Ret ncells line st tail st' :
  parseOverlap ncells line st = Ret (tail, st') ->
  st' = st \/
  exists cell M,
    bravaisVectors st' = (bravaisVectors st ++ [cell])%list /\
    overlapMatrices st' = (overlapMatrices st ++ [M])%list /\
    fockMatrices st' = fockMatrices st /\
    alphaMatrices st' = alphaMatrices st /\
    betaMatrices st' = betaMatrices st /\
    (length (m_file st') <= length (m_file st))%nat.
Proof.
  unfold parseOverlap. intros H. bind_inv H.
  destruct (parseCell a) as [cellIndex coefs]. bind_inv H.
  destruct (a0 <=? ncells).
  - do 3 bind_inv H. destruct a3 as [M file]. bind_inv H.
    injection H as <- <-. right. exists a1, M. simpl.
    apply join_vert_Ret in Hm2. apply join_slices_Ret in Hm4.
    apply parseMatrix_length in Hm3. subst. repeat split; try reflexivity. lia.
  - injection H as <- <-. left. reflexivity.
Qed.

Lemma dispatch_length ncells threshold line st line' st' :
  dispatch ncells threshold line st = Ret (line', st') ->
  (length (m_file st') <= length (m_file st))%nat.
Proof.
  unfold dispatch, parseCount. intros H. destruct (classify line).
  - bind_inv H. injection H as <- <-. eapply parseBravaisLattice_length; eauto.
  - bind_inv H. destruct a. bind_inv Hm. injection Hm as <- <-. injection H as <- <-. simpl; lia.
  - bind_inv H. destruct a. bind_inv Hm. injection Hm as <- <-. injection H as <- <-. simpl; lia.
  - bind_inv H. destruct a. bind_inv Hm. injection Hm as <- <-. injection H as <- <-. simpl; lia.
  - bind_inv H. destruct a. bind_inv Hm. injection Hm as <- <-. injection H as <- <-. simpl; lia.
  - bind_inv H. destruct a. bind_inv Hm. injection Hm as <- <-. injection H as <- <-. simpl; lia.
  - destruct (natoms st =? 0); [discriminate|]. bind_inv H. injection H as <- <-.
    eapply parseAtoms_length; eauto.
  - bind_inv H. injection H as <- <-. eapply parseAtomicBasis_length; eauto.
  - apply parseOverlap_Ret in H. destruct H as [->|(?&?&?&?&?&?&?&?)]; [lia|assumption].
  - injection H as <- <-. simpl; lia.
  - injection H as <- <-. simpl; lia.
  - injection H as <- <-. lia.
Qed.

Lemma parseFock_Ret ncells line st st' :
  parseFock ncells line st = Ret st' ->
  bravaisVectors st' = bravaisVectors st /\
  overlapMatrices st' = overlapMatrices st /\
  (length (m_file st') <= length (m_file st))%nat.
Proof.
  unfold parseFock. intros H. bind_inv H.
  destruct (parseCell a) as [cellIndex coefs]. bind_inv H.
  destruct (a0 <=? ncells).
  - bind_inv H. destruct a1 as [M file]. apply parseMatrix_length in Hm1.
    simpl in H. destruct (MAGNETIC_FLAG st).
    + destruct (alpha_electrons st); bind_inv H; injection H as <-; simpl; auto.
    + destruct (SOC_FLAG st).
      * injection H as <-; simpl; auto.
      * bind_inv H; injection H as <-; simpl; auto.
  - injection H as <-. auto.
Qed.

Lemma scan_line_length ncells threshold line st st' :
  scan_line ncells threshold line st = Ret st' ->
  (length (m_file st') <= length (m_file st))%nat.
Proof.
  unfold scan_line. intros H. bind_inv H. destruct a as [line' st1].
  apply dispatch_length in Hm.
  set (st2 := if contains line' "BETA" && contains line' "ELECTRONS"
              then set_alpha_electrons false st1 else st1) in H.
  assert (m_file st2 = m_file st1) as E
    by (subst st2; destruct (_ && _); reflexivity).
  destruct (contains line' "FOCK MATRIX").
  - apply parseFock_Ret in H. destruct H as (_ & _ & H). rewrite E in H. lia.
  - injection H as <-. rewrite E. lia.
Qed.

(** Any fuel above the number of lines gives the same result: the loop
    ends by exhausting the file, never the fuel. *)
Lemma parseContent_loop_fuel ncells threshold fuel : forall fuel' st,
  (length (m_file st) < fuel)%nat -> (length (m_file st) < fuel')%nat ->
  parseContent_loop fuel ncells threshold st =
  parseContent_loop fuel' ncells threshold st.
Proof.
  induction fuel as [|fuel IH]; intros fuel' st Hf Hf'; [lia|].
  destruct fuel' as [|fuel']; [lia|]. simpl.
  destruct (m_file st) as [|line file] eqn:E; [reflexivity|].
  destruct (scan_line ncells threshold line (set_m_file file st)) as [st'| |] eqn:Es;
    simpl; try reflexivity.
  apply scan_line_length in Es. simpl in *. apply IH; lia.
Qed.

Lemma parseContent_loop_S fuel ncells threshold st line file :
  m_file st = line :: file ->
  parseContent_loop (S fuel) ncells threshold st =
  st' ← scan_line ncells threshold line (set_m_file file st);
  parseContent_loop fuel ncells threshold st'.
Proof. intros E. simpl. rewrite E. reflexivity. Qed.

(** One round of the loop of [parseContent]. *)
Lemma parseContent_step ncells threshold st line file :
  m_file st = line :: file ->
  parseContent ncells threshold st =
  st' ← scan_line ncells threshold line (set_m_file file st);
  parseContent ncells threshold st'.
Proof.
  intros E. unfold parseContent. rewrite (parseContent_loop_S _ _ _ _ _ _ E).
  destruct (scan_line ncells threshold line (set_m_file file st)) as [st'| |] eqn:Es;
    try reflexivity.
  apply scan_line_length in Es. rewrite E. cbn [mbind outcome_bind bind].
  simpl m_file in Es. simpl length.
  apply parseContent_loop_fuel; lia.
Qed.

Lemma parseContent_end ncells threshold st :
  m_file st = [] -> parseContent ncells threshold st = Ret st.
Proof. intros E. unfold parseContent. rewrite E. simpl. rewrite E. reflexivity. Qed.

(** ** Fuel *)

Lemma skipws_length s : (String.length (skipws s) <= String.length s)%nat.
Proof.
  induction s as [|c s IH]; simpl; [lia|].
  destruct (isspace c); simpl; lia.
Qed.

Lemma digits_length s : forall ds rest,
  digits s = (ds, rest) ->
  (String.length rest + length ds = String.length s)%nat.
Proof.
  induction s as [|c s IH]; simpl; intros ds rest H.
  - injection H as <- <-. reflexivity.
  - destruct (digit_of c).
    + destruct (digits s) as [ds' rest'] eqn:E. injection H as <- <-.
      specialize (IH _ _ eq_refl). simpl. lia.
    + injection H as <- <-. simpl. lia.
Qed.

Lemma sign_length s b s' :
  sign s = (b, s') -> (String.length s' <= String.length s)%nat.
Proof.
  unfold sign. destruct s as [|c s]; [intros [= <- <-]; simpl; lia|].
  destruct (Ascii.eqb_spec c "-") as [->|]; [intros [= <- <-]; simpl; lia|].
  destruct (Ascii.eqb_spec c "+") as [->|]; [intros [= <- <-]; simpl; lia|].
  destruct c as [[] [] [] [] [] [] [] []]; intros [= <- <-]; simpl; lia.
Qed.

(** A successful extraction of an [int] takes at least one character. *)
Lemma extract_int_shorter s v rest :
  extract_int s = Got v rest -> (String.length rest < String.length s)%nat.
Proof.
  unfold extract_int. pose proof (skipws_length s) as Hw.
  destruct (skipws s) as [|c s1] eqn:E; [discriminate|].
  destruct (sign (String c s1)) as [neg s2] eqn:Es. apply sign_length in Es.
  destruct (digits s2) as [ds r] eqn:Ed. apply digits_length in Ed.
  destruct ds as [|d ds]; [discriminate|].
  cbv zeta. destruct (_ <? INT_MIN); [discriminate|].
  destruct (INT_MAX <? _); [discriminate|].
  intros [= _ <-]. simpl in *. lia.
Qed.

Lemma exponent_length s e rest :
  exponent s = Some (e, rest) -> (String.length rest <= String.length s)%nat.
Proof.
  unfold exponent. destruct s as [|c s]; [intros [= <- <-]; simpl; lia|].
  destruct ((c =? "e")%char || (c =? "E")%char).
  - destruct (sign s) as [neg s2] eqn:Es. apply sign_length in Es.
    destruct (digits s2) as [ds r] eqn:Ed. apply digits_length in Ed.
    destruct ds; [discriminate|]. intros [= <- <-]. simpl in *. lia.
  - intros [= <- <-]. simpl. lia.
Qed.

(** So does a successful extraction of a [double]. *)
Lemma extract_double_shorter s v rest :
  extract_double s = Got v rest -> (String.length rest < String.length s)%nat.
Proof.
  unfold extract_double. pose proof (skipws_length s) as Hw.
  destruct (skipws s) as [|c s1] eqn:E; [discriminate|].
  destruct (sign (String c s1)) as [neg s2] eqn:Es. apply sign_length in Es.
  destruct (digits s2) as [ip s3] eqn:Ei. apply digits_length in Ei.
  assert (exists fp s4, (match s3 with
                        | String "." t => digits t
                        | _ => ([], s3)
                        end) = (fp, s4) /\
            (String.length s4 + length fp <= String.length s3)%nat /\
            (fp <> [] -> String.length s4 < String.length s3)%nat) as (fp & s4 & -> & Hf & Hf').
  { destruct s3 as [|c3 t]; [exists [], ""; simpl; repeat split; [lia|congruence]|].
    destruct (Ascii.eqb_spec c3 ".") as [->|Hne].
    - destruct (digits t) as [fp s4] eqn:Ef. apply digits_length in Ef.
      exists fp, s4. simpl. repeat split; lia.
    - exists [], (String c3 t).
      split; [|simpl; split; [lia|congruence]].
      destruct c3 as [[] [] [] [] [] [] [] []]; try reflexivity; congruence. }
  destruct (ip ++ fp) as [|d ds] eqn:Eds; [discriminate|].
  destruct (exponent s4) as [[e r]|] eqn:Ee; [|discriminate].
  apply exponent_length in Ee. intros [= <- <-].
  assert (0 < length ip + length fp)%nat
    by (rewrite <- length_app, Eds; simpl; lia).
  destruct fp as [|f fp].
  - simpl in *. lia.
  - specialize (Hf' ltac:(discriminate)). simpl in *. lia.
Qed.

(** With an extraction that consumes, the length of the text is enough
    fuel for [extract_all]: more fuel gives the same list. *)
Lemma extract_all_fuel {A : Type} (ext : string -> extracted A) :
  (forall s v rest, ext s = Got v rest -> (String.length rest < String.length s)%nat) ->
  forall fuel fuel' s,
    (String.length s <= fuel)%nat -> (String.length s <= fuel')%nat ->
    extract_all ext fuel s = extract_all ext fuel' s.
Proof.
  intros Hext. induction fuel as [|fuel IH]; intros fuel' s Hf Hf'.
  - destruct fuel' as [|fuel']; [reflexivity|]. simpl.
    destruct (ext s) as [v rest| |] eqn:E; try reflexivity.
    apply Hext in E. lia.
  - destruct fuel' as [|fuel']; simpl.
    + destruct (ext s) as [v rest| |] eqn:E; try reflexivity.
      apply Hext in E. lia.
    + destruct (ext s) as [v rest| |] eqn:E; try reflexivity.
      apply Hext in E. f_equal. apply IH; lia.
Qed.

Lemma split_fuel txt fuel :
  (String.length txt <= fuel)%nat -> extract_all extract_double fuel txt = split txt.
Proof.
  intros H. apply extract_all_fuel; [apply extract_double_shorter|exact H|lia].
Qed.

Lemma extract_ints_fuel txt fuel :
  (String.length txt <= fuel)%nat -> extract_all extract_int fuel txt = extract_ints txt.
Proof.
  intros H. apply extract_all_fuel; [apply extract_int_shorter|exact H|lia].
Qed.

Lemma shed_row_rows {A : Type} (M M' : mat A) i :
  shed_row M i = Ret M' -> S (n_rows M') = n_rows M.
Proof.
  unfold shed_row, n_rows. destruct (Nat.ltb_spec i (length M)); [|discriminate].
  intros [= <-]. rewrite length_app, length_take, length_drop. lia.
Qed.

(** The loop of [extractDimension] ends by its own test: any fuel from
    the number of rows still ahead gives the same lattice. *)
Lemma extractDimension_loop_fuel threshold fuel : forall fuel' i lattice,
  (n_rows lattice - i <= fuel)%nat -> (n_rows lattice - i <= fuel')%nat ->
  extractDimension_loop fuel threshold i lattice =
  extractDimension_loop fuel' threshold i lattice.
Proof.
  induction fuel as [|fuel IH]; intros fuel' i lattice Hf Hf'.
  - destruct fuel' as [|fuel']; [reflexivity|]. simpl.
    destruct (Nat.ltb_spec i (n_rows lattice)); [lia|reflexivity].
  - destruct fuel' as [|fuel']; simpl.
    + destruct (Nat.ltb_spec i (n_rows lattice)); [lia|reflexivity].
    + destruct (Nat.ltb_spec i (n_rows lattice)); [|reflexivity].
      destruct (row lattice i) as [r| |]; try reflexivity.
      cbn [mbind outcome_bind bind].
      destruct (norm_gt r threshold).
      * destruct (shed_row lattice i) as [lattice'| |] eqn:E; try reflexivity.
        cbn [mbind outcome_bind bind]. apply shed_row_rows in E. apply IH; lia.
      * cbn [mbind outcome_bind bind]. apply IH; lia.
Qed.

(** ** The atom section needs the atom count *)

Lemma classify_Atoms line :
  classify line = Atoms ->
  contains line "ATOM" = true /\ contains line "SHELL" = true.
Proof.
  unfold classify. intros H.
  repeat (case_match; try discriminate).
  by apply andb_true_iff.
Qed.

(** C8.  When the scanner meets the atom-section marker (a line that
    holds both ATOM and SHELL and that the atom branch takes) while the
    atom count is still 0, the round throws the logic error, and with it
    [parseContent] and the constructor: no state, hence no motif, comes
    back. *)
Theorem atom_section_before_atom_count ncells threshold st line file :
  m_file st = line :: file ->
  classify line = Atoms ->
  natoms st = 0 ->
  (contains line "ATOM" = true /\ contains line "SHELL" = true) /\
  scan_line ncells threshold line (set_m_file file st) =
    Throw (logic_error "Must parse first number of atoms") /\
  parseContent ncells threshold st =
    Throw (logic_error "Must parse first number of atoms") /\
  parseContent ncells threshold st ≫= mapContent =
    Throw (logic_error "Must parse first number of atoms").
Proof.
  intros E Hc Hn. split; [by apply classify_Atoms|].
  assert (scan_line ncells threshold line (set_m_file file st) =
          Throw (logic_error "Must parse first number of atoms")) as Hs.
  { unfold scan_line, dispatch. rewrite Hc. simpl natoms. rewrite Hn. reflexivity. }
  split; [exact Hs|].
  rewrite (parseContent_step _ _ _ _ _ E), Hs. split; reflexivity.
Qed.

Lemma atom_section_before_atom_count_witness :
  construct early_atoms 1 100 =
    Throw (logic_error "Must parse first number of atoms").
Proof.
  refine (proj2 (proj2 (proj2 (atom_section_before_atom_count 1 100
    (fresh early_atoms)
    " ATOM N.AT.  SHELL    X(A)      Y(A)      Z(A)      EXAD       N.ELECT."
    (tail early_atoms) _ _ _)))).
  - reflexivity.
  - vm_compute. reflexivity.
  - reflexivity.
Defined.

(** ** Translation vectors and overlap slices *)

Lemma same_matrices_aligned st st' :
  same_matrices st st' -> aligned st -> aligned st'.
Proof. unfold aligned. intros (-> & _ & _ & _ & ->). trivial. Qed.

Lemma dispatch_aligned ncells threshold line st line' st' :
  dispatch ncells threshold line st = Ret (line', st') ->
  aligned st -> aligned st'.
Proof.
  unfold dispatch, parseCount. intros H A. destruct (classify line).
  - bind_inv H. injection H as <- <-.
    eapply same_matrices_aligned; eauto using parseBravaisLattice_matrices.
  - bind_inv H. destruct a. injection H as <- <-. exact A.
  - bind_inv H. destruct a. injection H as <- <-. exact A.
  - bind_inv H. destruct a. injection H as <- <-. exact A.
  - bind_inv H. destruct a. injection H as <- <-. exact A.
  - bind_inv H. destruct a. injection H as <- <-. exact A.
  - destruct (natoms st =? 0); [discriminate|]. bind_inv H. injection H as <- <-.
    eapply same_matrices_aligned; eauto using parseAtoms_matrices.
  - bind_inv H. injection H as <- <-.
    eapply same_matrices_aligned; eauto using parseAtomicBasis_matrices.
  - apply parseOverlap_Ret in H. destruct H as [->|(cell & M & Hv & Ho & _)]; [exact A|].
    unfold aligned, n_rows, n_slices in *. rewrite Hv, Ho, !length_app, A. reflexivity.
  - injection H as <- <-. exact A.
  - injection H as <- <-. exact A.
  - injection H as <- <-. exact A.
Qed.

Lemma scan_line_aligned ncells threshold line st st' :
  scan_line ncells threshold line st = Ret st' -> aligned st -> aligned st'.
Proof.
  unfold scan_line. intros H A. bind_inv H. destruct a as [line' st1].
  apply dispatch_aligned in Hm; [|exact A].
  set (st2 := if contains line' "BETA" && contains line' "ELECTRONS"
              then set_alpha_electrons false st1 else st1) in H.
  assert (aligned st2) as A2 by (subst st2; destruct (_ && _); exact Hm).
  destruct (contains line' "FOCK MATRIX").
  - apply parseFock_Ret in H. destruct H as (Hv & Ho & _).
    unfold aligned in *. rewrite Hv, Ho. exact A2.
  - injection H as <-. exact A2.
Qed.

Lemma parseContent_loop_aligned ncells threshold fuel : forall st st',
  parseContent_loop fuel ncells threshold st = Ret st' -> aligned st -> aligned st'.
Proof.
  induction fuel as [|fuel IH]; simpl; intros st st' H A.
  - injection H as <-. exact A.
  - destruct (m_file st) as [|line file].
    + injection H as <-. exact A.
    + bind_inv H. apply scan_line_aligned in Hm; [|exact A]. eauto.
Qed.

(** C10.  From a state with as many translation vectors as overlap
    slices (the fresh object has none of either): every round of the scan
    keeps the two counts equal; the FOCK block leaves both lists as they
    are; the state that [parseContent] returns has them equal, and so has
    the record that [mapContent] builds from it when the magnetic flag is
    clear. *)
Theorem translation_vectors_match_overlap ncells threshold st line :
  aligned st ->
  (forall st', scan_line ncells threshold line st = Ret st' -> aligned st') /\
  (forall st', parseFock ncells line st = Ret st' ->
     bravaisVectors st' = bravaisVectors st /\
     overlapMatrices st' = overlapMatrices st) /\
  (forall st', parseContent ncells threshold st = Ret st' ->
     aligned st' /\
     (MAGNETIC_FLAG st' = false ->
      forall st'', mapContent st' = Ret st'' -> aligned_info (systemInfo st''))).
Proof.
  intros A. split; [|split].
  - intros st' H. eapply scan_line_aligned; eauto.
  - intros st' H. apply parseFock_Ret in H. tauto.
  - intros st' H. apply parseContent_loop_aligned in H; [|exact A].
    split; [exact H|]. intros Hmag st'' Hmap. unfold mapContent in Hmap.
    rewrite Hmag in Hmap. destruct (SOC_FLAG st'); injection Hmap as <-; exact H.
Qed.

Lemma translation_vectors_match_overlap_witness :
  exists st' st'',
    parseContent 2 100 (fresh slab_output) = Ret st' /\
    mapContent st' = Ret st'' /\
    n_rows (bravaisVectors st') = 2%nat /\
    aligned st' /\ aligned_info (systemInfo st'').
Proof.
  destruct (parseContent 2 100 (fresh slab_output)) as [st'| |] eqn:E;
    [|vm_compute in E; discriminate..].
  destruct (mapContent st') as [st''| |] eqn:E';
    [|vm_compute in E; injection E as <-; vm_compute in E'; discriminate..].
  exists st', st''.
  destruct (translation_vectors_match_overlap 2 100 (fresh slab_output) ""
              eq_refl) as (_ & _ & H).
  destruct (H st' E) as (A & I).
  repeat split; try assumption.
  - vm_compute in E. injection E as <-. reflexivity.
  - apply I; [|exact E']. vm_compute in E. injection E as <-. reflexivity.
Defined.

(** ** The dimension of the lattice *)

(** C2.  On the lattice of a polymer, where exactly one of the three
    vectors is within the threshold, [extractDimension] sheds the second
    row, steps over the third, which has moved into its place, and stops:
    two rows remain, the second of them longer than the threshold, and
    [ndim] is 2 where one periodic direction was given. *)
Theorem extractDimension_skips_row_after_shed :
  exists st',
    parseBravaisLattice 100 (fresh polymer_lattice) = Ret st' /\
    bravaisLattice st' = [[5 # 2; 0; 0]; [0; 0; 500]]%Q /\
    ndim st' = 2%nat /\
    norm_gt [0; 0; 500]%Q 100 = true /\
    map (fun v => norm_gt v 100) [[5 # 2; 0; 0]; [0; 500; 0]; [0; 0; 500]]%Q
      = [false; true; true].
Proof. eexists. repeat split. Qed.

(** ** A matrix block that ends early *)

Lemma scatter_Throw colIndices rowIndex coefs : forall i matrix colIndex e,
  scatter colIndices rowIndex coefs i matrix colIndex = Throw e ->
  e = logic_error "Mat::operator(): index out of bounds".
Proof.
  induction coefs as [|coef coefs IH]; simpl; intros i matrix colIndex e H;
    [discriminate|].
  unfold at_ in H. destruct (colIndices !! i) as [c|]; [|discriminate].
  cbn [mbind outcome_bind bind] in H.
  destruct (mat_set matrix (rowIndex - 1) (c - 1) (of_double coef))
    as [matrix'|e'|] eqn:E; cbn [mbind outcome_bind bind] in H.
  - eauto.
  - injection H as <-. unfold mat_set in E.
    repeat (case_match; try discriminate); congruence.
  - discriminate.
Qed.

Lemma parseRow_Throw line v e :
  parseRow line v = Throw e ->
  e = logic_error "Mat::operator(): index out of bounds".
Proof.
  unfold parseRow. destruct (shift_int (Some line) (mv_rowIndex v)) as [r iss].
  match goal with |- context [scatter ?a ?b ?c ?d ?f ?g] =>
    destruct (scatter a b c d f g) as [[m ci]|e'|] eqn:E end;
    cbn [mbind outcome_bind bind]; try discriminate.
  intros [= <-]. eapply scatter_Throw; eauto.
Qed.

Lemma parseMatrix_loop_Throw norbitals file : forall v e,
  parseMatrix_loop norbitals file v = Throw e ->
  e = logic_error "Mat::operator(): index out of bounds".
Proof.
  induction file as [file IH] using (well_founded_induction
    (Wf_nat.well_founded_ltof _ (@length string))).
  unfold Wf_nat.ltof in IH.
  intros v e H. destruct file as [|line file1]; [discriminate|].
  simpl in H. destruct (empty line).
  - destruct file1 as [|cs file2]; [discriminate|].
    destruct file2 as [|line2 file3]; [discriminate|].
    destruct (empty line2).
    + apply IH in H; [exact H|simpl; lia].
    + destruct (parseRow line2 _) as [v2|e'|] eqn:E;
        cbn [mbind outcome_bind bind] in H; try discriminate.
      * destruct (corner norbitals v2); [discriminate|].
        apply IH in H; [exact H|simpl; lia].
      * injection H as <-. eapply parseRow_Throw; eauto.
  - destruct (parseRow line v) as [v1|e'|] eqn:E;
      cbn [mbind outcome_bind bind] in H; try discriminate.
    + destruct (corner norbitals v1); [discriminate|].
      apply IH in H; [exact H|simpl; lia].
    + injection H as <-. eapply parseRow_Throw; eauto.
Qed.

(** C7.  When the file ends before the corner line, [std::getline]
    fails, the loop of [parseMatrix] ends and control leaves the function
    without a [return] and without a [throw]: on the truncated block, and
    whenever the loop meets the end of the file.  The only exceptions
    that can leave [parseMatrix] on any file are the allocation and
    bounds errors of Armadillo; none reports a truncated matrix. *)
Theorem parseMatrix_truncated_is_undefined :
  parseMatrix 2 truncated_block = Undefined /\
  (forall norbitals v, parseMatrix_loop norbitals [] v = Undefined) /\
  (forall norbitals file e,
     parseMatrix norbitals file = Throw e ->
     e = logic_error "Mat::init(): requested size is too large" \/
     e = logic_error "Mat::operator(): index out of bounds").
Proof.
  split; [reflexivity|]. split; [reflexivity|].
  intros norbitals file e H. unfold parseMatrix, zeros in H.
  destruct ((norbitals <? 0) || (norbitals <? 0)).
  - injection H as <-. left. reflexivity.
  - right. eapply parseMatrix_loop_Throw. exact H.
Qed.

(** ** Atoms and species *)

Lemma map_fmap {A B : Type} (f : A -> B) (l : list A) : map f l = f <$> l.
Proof. reflexivity. Qed.

Lemma lookup_map {A B : Type} (f : A -> B) (l : list A) (i : nat) :
  map f l !! i = f <$> l !! i.
Proof. rewrite map_fmap. apply list_lookup_fmap. Qed.

Lemma absent_spec species s : absent species s = true <-> s ∉ species.
Proof.
  unfold absent. rewrite negb_true_iff, <- not_true_iff_false, existsb_exists.
  split.
  - intros H Hin. apply H. exists s. split; [by apply list_elem_of_In|apply String.eqb_refl].
  - intros H (x & Hin & Hx). apply String.eqb_eq in Hx. subst x.
    apply H. by apply list_elem_of_In.
Qed.

Lemma absent_false species s : absent species s = false <-> s ∈ species.
Proof.
  rewrite <- not_true_iff_false, absent_spec.
  destruct (decide (s ∈ species)); tauto.
Qed.

Lemma nub_elem labels l : l ∈ nub labels <-> l ∈ labels.
Proof.
  induction labels as [|x labels IH]; simpl; [reflexivity|].
  rewrite !elem_of_cons, list_elem_of_filter, IH.
  destruct (decide (l = x)); tauto.
Qed.

Lemma nub_snoc labels l :
  nub (labels ++ [l]) = if absent (nub labels) l then nub labels ++ [l] else nub labels.
Proof.
  induction labels as [|x labels IH]; simpl.
  - reflexivity.
  - rewrite IH. destruct (absent (nub labels) l) eqn:E.
    + destruct (absent (x :: _) l) eqn:E'.
      * apply absent_spec in E'. rewrite not_elem_of_cons in E'.
        rewrite filter_app, filter_cons_True by tauto. reflexivity.
      * apply absent_false in E'. apply absent_spec in E.
        rewrite elem_of_cons, list_elem_of_filter in E'.
        destruct E' as [->|[_ ?]]; [|tauto].
        rewrite filter_app, filter_cons_False, filter_nil by tauto.
        by rewrite app_nil_r.
    + apply absent_false in E.
      destruct (absent (x :: _) l) eqn:E'; [|reflexivity].
      apply absent_spec in E'. rewrite not_elem_of_cons, list_elem_of_filter in E'.
      tauto.
Qed.

Lemma position_app_l l species species' :
  l ∈ species -> position l (species ++ species') = position l species.
Proof.
  induction species as [|s species IH]; simpl; intros H.
  - inversion H.
  - destruct (String.eqb s l) eqn:E; [reflexivity|].
    apply String.eqb_neq in E. rewrite elem_of_cons in H.
    destruct H as [->|H]; [congruence|]. by rewrite IH.
Qed.

Lemma position_fresh l species :
  l ∉ species -> position l (species ++ [l]) = length species.
Proof.
  induction species as [|s species IH]; simpl; intros H.
  - by rewrite String.eqb_refl.
  - rewrite not_elem_of_cons in H. destruct H as [Hne H].
    destruct (String.eqb s l) eqn:E; [apply String.eqb_eq in E; congruence|].
    by rewrite IH.
Qed.

Lemma nub_app_prefix labels labels' :
  exists more, nub (labels ++ labels') = (nub labels ++ more)%list.
Proof.
  induction labels' as [|l labels' IH] using rev_ind.
  - exists []. by rewrite !app_nil_r.
  - destruct IH as [more IH]. rewrite app_assoc, nub_snoc, IH.
    destruct (absent _ l); [exists (more ++ [l])%list; by rewrite app_assoc|by exists more].
Qed.

(** A line that holds a record is read as that record, whatever the
    variables held before. *)
Lemma read_atom_record line r v :
  atom_of_line line = Some r -> read_atom line v = vars_of r.
Proof.
  unfold atom_of_line, read_atom, shift_string, shift, vars_of. simpl.
  destruct (extract_int line) as [i s1| |]; simpl; try discriminate.
  destruct (extract_int s1) as [n s2| |]; simpl; try discriminate.
  destruct (extract_string s2) as [sp s3| |]; simpl; try discriminate.
  destruct (extract_int s3) as [k s4| |]; simpl; try discriminate.
  destruct (extract_double s4) as [x s5| |]; simpl; try discriminate.
  destruct (extract_double s5) as [y s6| |]; simpl; try discriminate.
  destruct (extract_double s6) as [z s7| |]; simpl; try discriminate;
    intros [= <-]; reflexivity.
Qed.

Lemma species_map_empty : species_map [] ∅.
Proof.
  split; [|split]; [intros s H; inversion H|intros; apply lookup_empty|reflexivity].
Qed.

Lemma species_map_snoc species to_index l :
  species_map species to_index -> l ∉ species ->
  species_map (species ++ [l]) (<[l := Z.of_nat (size to_index)]> to_index).
Proof.
  intros (Hin & Hout & Hsize) Hl. repeat split.
  - intros s Hs. rewrite elem_of_app, list_elem_of_singleton in Hs.
    destruct (decide (s = l)) as [->|Hne].
    + rewrite lookup_insert_eq, position_fresh, Hsize by assumption. reflexivity.
    + rewrite lookup_insert_ne by congruence.
      destruct Hs as [Hs|Hs]; [|congruence].
      rewrite position_app_l by assumption. auto.
  - intros s Hs. rewrite elem_of_app, list_elem_of_singleton in Hs.
    rewrite lookup_insert_ne by (intros ->; tauto). apply Hout. tauto.
  - rewrite map_size_insert_None by auto. rewrite length_app, Hsize. simpl. lia.
Qed.

(** One round on a line that holds the record [r]. *)
Lemma parseAtoms_body_record i s line file r :
  al_file s = line :: file ->
  atom_of_line line = Some r ->
  species_map (al_species s) (al_to_index s) ->
  al_nspecies s = Z.of_nat (length (al_species s)) ->
  exists s',
    parseAtoms_body i s = Ret s' /\
    al_file s' = file /\
    al_species s' = (if absent (al_species s) (r_label r)
                     then al_species s ++ [r_label r] else al_species s) /\
    species_map (al_species s') (al_to_index s') /\
    al_nspecies s' = Z.of_nat (length (al_species s')) /\
    al_motif s' = <[i := motif_row (al_species s') r]> (al_motif s).
Proof.
  intros Hf Hr Hm Hn. unfold parseAtoms_body. rewrite Hf. simpl getline. cbv iota beta.
  rewrite (read_atom_record _ _ _ Hr). simpl a_species. simpl a_nshells.
  simpl a_x. simpl a_y. simpl a_z.
  destruct (absent (al_species s) (r_label r)) eqn:E.
  - apply absent_spec in E. eexists. split; [reflexivity|]. simpl.
    pose proof (species_map_snoc _ _ _ Hm E) as Hm'.
    repeat split; try apply Hm'.
    + rewrite Hn, length_app. simpl. lia.
    + destruct Hm' as (Hin & _ & _). rewrite (Hin (r_label r)) by set_solver.
      reflexivity.
  - apply absent_false in E. eexists. split; [reflexivity|]. simpl.
    repeat split; try apply Hm; try assumption.
    destruct Hm as (Hin & _ & _). rewrite (Hin _ E). reflexivity.
Qed.

Lemma parseAtoms_loop_records rest : forall records lines done i s rows pending,
  Forall2 (fun line r => atom_of_line line = Some r) lines records ->
  al_file s = lines ++ rest ->
  al_species s = nub done ->
  species_map (al_species s) (al_to_index s) ->
  al_nspecies s = Z.of_nat (length (al_species s)) ->
  al_motif s = rows ++ pending ->
  length rows = i -> length pending = length records ->
  exists s',
    parseAtoms_loop (length records) i s = Ret s' /\
    al_file s' = rest /\
    al_species s' = nub (done ++ map r_label records) /\
    al_nspecies s' = Z.of_nat (length (al_species s')) /\
    al_motif s' = rows ++ map (motif_row (al_species s')) records.
Proof.
  induction records as [|r records IH];
    intros lines done i s rows pending HF Hf Hs Hm Hn Hmotif Hi Hp.
  - inversion HF; subst. destruct pending; [|discriminate].
    exists s. simpl. rewrite !app_nil_r in *. auto.
  - inversion HF as [|line ? lines' ? Hr HF']; subst. simpl in Hf.
    destruct pending as [|old pending]; [discriminate|]. simpl in Hp.
    destruct (parseAtoms_body_record (length rows) s line (lines' ++ rest) r Hf Hr Hm Hn)
      as (s1 & Hb & Hf1 & Hs1 & Hm1 & Hn1 & Hmotif1).
    assert (al_species s1 = nub (done ++ [r_label r])) as Hs1'
      by (rewrite nub_snoc, <- Hs; exact Hs1).
    assert (r_label r ∈ al_species s1) as Hin.
    { rewrite Hs1', nub_elem. set_solver. }
    destruct (IH lines' (done ++ [r_label r]) (S (length rows)) s1
                (rows ++ [motif_row (al_species s1) r]) pending HF' Hf1 Hs1' Hm1 Hn1)
      as (s' & Hl & Hf' & Hs' & Hn' & Hmotif').
    + rewrite Hmotif1, Hmotif.
      etrans; [apply insert_app_r_alt; lia|].
      rewrite Nat.sub_diag. simpl. by rewrite <- app_assoc.
    + rewrite length_app. simpl. lia.
    + lia.
    + exists s'. simpl. rewrite Hb. simpl. split; [exact Hl|].
      rewrite <- app_assoc in Hs'. simpl in Hs'.
      repeat split; try assumption.
      rewrite Hmotif', <- app_assoc. simpl. do 2 f_equal.
      unfold motif_row. do 4 f_equal.
      destruct (nub_app_prefix (done ++ [r_label r]) (map r_label records)) as [more Hmore].
      rewrite <- app_assoc in Hmore. simpl in Hmore.
      rewrite Hs', Hmore, <- Hs1'. by rewrite position_app_l.
Qed.

(** [parseAtoms] on a section of [records]: the whole result. *)
Lemma parseAtoms_records st header lines rest records :
  records <> [] ->
  natoms st = Z.of_nat (length records) ->
  m_file st = header :: lines ++ rest ->
  Forall2 (fun line r => atom_of_line line = Some r) lines records ->
  exists st',
    parseAtoms st = Ret st' /\
    motif st' = map (motif_row (nub (map r_label records))) records /\
    nspecies st' = Z.of_nat (length (nub (map r_label records))) /\
    m_file st' = rest.
Proof.
  intros Hne Hn Hf HF. unfold parseAtoms, zeros. rewrite Hn, Hf.
  replace (Z.of_nat (length records) <? 0) with false by (symmetry; apply Z.ltb_ge; lia).
  rewrite Nat2Z.id. change (Z.to_nat 4) with 4%nat.
  cbn [orb Z.ltb Z.compare getline mbind outcome_bind bind].
  edestruct (parseAtoms_loop_records rest records lines [] O
    {| al_file := lines ++ rest; al_line := header; al_vars := no_atom_vars;
       al_species := []; al_to_index := ∅; al_shells := []; al_nspecies := 0;
       al_motif := replicate (length records) (replicate 4 0%Q) |}
    [] (replicate (length records) (replicate 4 0%Q)))
    as (s' & Hl & Hf' & Hs' & Hn' & Hm'); try reflexivity; try assumption.
  - apply species_map_empty.
  - apply length_replicate.
  - rewrite Hl. cbn [mbind outcome_bind bind]. simpl in Hm', Hs'. rewrite Hm'.
    destruct records as [|r records]; [congruence|]. simpl.
    eexists. split; [reflexivity|]. simpl. rewrite Hn', Hs'. auto.
Qed.

(** C6.  On an atom section that holds the records [records], the motif
    has one row per atom: its position followed by the place of its label
    among the distinct labels in order of first appearance, repeats
    changing nothing; there are as many species as distinct labels. *)
Theorem parseAtoms_first_seen st header lines rest records :
  records <> [] ->
  natoms st = Z.of_nat (length records) ->
  m_file st = header :: lines ++ rest ->
  Forall2 (fun line r => atom_of_line line = Some r) lines records ->
  exists st',
    parseAtoms st = Ret st' /\
    motif st' =
      map (fun r => [r_x r; r_y r; r_z r;
                     inject_Z (Z.of_nat (position (r_label r)
                                           (nub (map r_label records))))])
          records /\
    nspecies st' = Z.of_nat (length (nub (map r_label records))).
Proof.
  intros Hne Hn Hf HF.
  destruct (parseAtoms_records st header lines rest records Hne Hn Hf HF)
    as (st' & H & Hm & Hs & _).
  exists st'. auto.
Qed.

Lemma parseAtoms_first_seen_witness :
  nub ["C"; "H"; "C"; "O"; "H"] = ["C"; "H"; "O"] /\
  exists st',
    parseAtoms (set_natoms 5 (fresh five_atoms)) = Ret st' /\
    motif st' = [[1; 2; 3; 0]; [0; 0; 0; 1]; [-1; 2; 3; 0];
                 [3 # 2; 0; 0; 2]; [0; 0; 1; 1]]%Q /\
    nspecies st' = 3.
Proof.
  split; [reflexivity|].
  refine (parseAtoms_first_seen (set_natoms 5 (fresh five_atoms))
    " *******************************************************************"
    (take 5 (tail five_atoms)) [" next section"]
    [ {| r_index := 1; r_natom := 6; r_label := "C"; r_nshells := 3;
         r_x := 1; r_y := 2; r_z := 3 |};
      {| r_index := 2; r_natom := 1; r_label := "H"; r_nshells := 1;
         r_x := 0; r_y := 0; r_z := 0 |};
      {| r_index := 3; r_natom := 6; r_label := "C"; r_nshells := 3;
         r_x := -1; r_y := 2; r_z := 3 |};
      {| r_index := 4; r_natom := 8; r_label := "O"; r_nshells := 4;
         r_x := 3 # 2; r_y := 0; r_z := 0 |};
      {| r_index := 5; r_natom := 1; r_label := "H"; r_nshells := 1;
         r_x := 0; r_y := 0; r_z := 1 |} ] _ _ _ _).
  - discriminate.
  - reflexivity.
  - reflexivity.
  - repeat constructor.
Defined.

(** C9, as the code has it.  The stored motif is not translated: every
    row holds the position read from the record of its atom, and the
    first atom is at the origin exactly when its record puts it there. *)
Theorem parseAtoms_motif_as_read st header lines rest records :
  records <> [] ->
  natoms st = Z.of_nat (length records) ->
  m_file st = header :: lines ++ rest ->
  Forall2 (fun line r => atom_of_line line = Some r) lines records ->
  exists st',
    parseAtoms st = Ret st' /\
    (forall i r, records !! i = Some r ->
       exists tag, motif st' !! i = Some [r_x r; r_y r; r_z r; tag]) /\
    (first_atom_at_origin (motif st') <->
     exists r, records !! O = Some r /\ (r_x r == 0 /\ r_y r == 0 /\ r_z r == 0)%Q).
Proof.
  intros Hne Hn Hf HF.
  destruct (parseAtoms_records st header lines rest records Hne Hn Hf HF)
    as (st' & H & Hm & _).
  exists st'. split; [exact H|]. rewrite Hm. split.
  - intros i r Hi. eexists. rewrite lookup_map, Hi. reflexivity.
  - unfold first_atom_at_origin. split.
    + intros (x & y & z & tag & Hr & Hz). rewrite lookup_map in Hr.
      destruct (records !! O) as [r|]; [|discriminate].
      injection Hr as <- <- <- <-. eauto.
    + intros (r & Hr & Hz). do 4 eexists.
      split; [rewrite lookup_map, Hr; reflexivity|exact Hz].
Qed.

Lemma parseAtoms_motif_as_read_witness :
  exists st',
    parseAtoms (set_natoms 2 (fresh (take 3 five_atoms))) = Ret st' /\
    motif st' !! 1%nat = Some [0; 0; 0; 1]%Q /\
    motif st' !! 0%nat = Some [1; 2; 3; 0]%Q.
Proof.
  destruct (parseAtoms_motif_as_read (set_natoms 2 (fresh (take 3 five_atoms)))
    " *******************************************************************"
    (take 2 (tail five_atoms)) []
    [ {| r_index := 1; r_natom := 6; r_label := "C"; r_nshells := 3;
         r_x := 1; r_y := 2; r_z := 3 |};
      {| r_index := 2; r_natom := 1; r_label := "H"; r_nshells := 1;
         r_x := 0; r_y := 0; r_z := 0 |} ])
    as (st' & H & Hrows & _).
  - discriminate.
  - reflexivity.
  - reflexivity.
  - repeat constructor.
  - exists st'. split; [exact H|].
    vm_compute in H. injection H as <-. split; reflexivity.
Defined.

(** The claim C9 fails on [five_atoms]: the first atom is stored at
    (1, 2, 3). *)
Lemma motif_first_atom_off_origin :
  exists st',
    parseAtoms (set_natoms 5 (fresh five_atoms)) = Ret st' /\
    motif st' !! O = Some [1; 2; 3; 0]%Q /\
    ~ first_atom_at_origin (motif st').
Proof.
  eexists. split; [vm_compute; reflexivity|]. split; [reflexivity|].
  intros (x & y & z & tag & H & Hx & _).
  injection H as <- _ _ _. discriminate Hx.
Qed.

(** ** Reading a matrix back *)

Lemma entry_Some {A : Type} (D : nat) (M : mat A) r c :
  square D M -> (r < D)%nat -> (c < D)%nat -> is_Some (entry M r c).
Proof.
  intros [HL HF] Hr Hc. unfold entry.
  destruct (M !! r) as [v|] eqn:E.
  - simpl. apply lookup_lt_is_Some. rewrite Forall_forall in HF.
    rewrite (HF v); [exact Hc|]. eapply list_elem_of_lookup_2; eauto.
  - apply lookup_ge_None in E. lia.
Qed.

Lemma square_ext {A : Type} (D : nat) (M N : mat A) :
  square D M -> square D N ->
  (forall r c, (r < D)%nat -> (c < D)%nat -> entry M r c = entry N r c) ->
  M = N.
Proof.
  intros [HM FM] [HN FN] H.
  apply (list_eq_same_length _ _ D); [exact HN|exact HM|].
  intros r u v Hr Hu Hv.
  rewrite Forall_forall in FM, FN.
  assert (length u = D) as Lu
    by (apply FM; eapply list_elem_of_lookup_2; eauto).
  assert (length v = D) as Lv
    by (apply FN; eapply list_elem_of_lookup_2; eauto).
  apply (list_eq_same_length _ _ D); [exact Lv|exact Lu|].
  intros c x y Hc Hx Hy. specialize (H r c Hr Hc). unfold entry in H.
  rewrite Hu, Hv in H. simpl in H. congruence.
Qed.

(** A checked assignment inside a square matrix. *)
Lemma mat_set_square {A : Type} (D : nat) (M : mat A) (r c : nat) (v : A) :
  square D M -> (r < D)%nat -> (c < D)%nat ->
  exists M',
    mat_set M (Z.of_nat r) (Z.of_nat c) v = Ret M' /\
    square D M' /\
    entry M' r c = Some v /\
    (forall r' c', (r', c') <> (r, c) -> entry M' r' c' = entry M r' c').
Proof.
  intros [HL HF] Hr Hc. unfold mat_set.
  replace ((0 <=? Z.of_nat r) && (0 <=? Z.of_nat c)) with true
    by (symmetry; apply andb_true_iff; split; apply Z.leb_le; lia).
  rewrite !Nat2Z.id.
  destruct (M !! r) as [u|] eqn:Eu; [|apply lookup_ge_None in Eu; lia].
  assert (length u = D) as Lu.
  { rewrite Forall_forall in HF. apply HF.
    eapply list_elem_of_lookup_2; eauto. }
  replace (c <? length u)%nat with true by (symmetry; apply Nat.ltb_lt; lia).
  eexists. split; [reflexivity|]. split; [|split].
  - split; [by rewrite length_insert|].
    apply Forall_insert; [exact HF|by rewrite length_insert].
  - unfold entry. rewrite list_lookup_insert_eq by lia. simpl.
    apply list_lookup_insert_eq. lia.
  - intros r' c' Hne. unfold entry.
    destruct (decide (r' = r)) as [->|Hr'].
    + rewrite list_lookup_insert_eq, Eu by lia. simpl.
      apply list_lookup_insert_ne. congruence.
    + by rewrite list_lookup_insert_ne.
Qed.

Section Roundtrip.

Variable D : nat.
Variable R : mat Q.
Hypothesis R_square : square D R.

(** The matrix that [parseMatrix] is to return. *)
Local Abbreviation target := (map (map of_double) R).

Lemma target_entry r c v :
  R !! r = Some v -> (0 < c <= D)%nat ->
  entry target r (pred c) = Some (of_double (default 0%Q (v !! pred c))).
Proof.
  intros Hv Hc. unfold entry. rewrite lookup_map, Hv. simpl.
  rewrite lookup_map.
  destruct R_square as [_ HF]. rewrite Forall_forall in HF.
  assert (length v = D) as Lv
    by (apply HF; eapply list_elem_of_lookup_2; eauto).
  destruct (v !! pred c) as [x|] eqn:E; [reflexivity|].
  apply lookup_ge_None in E. lia.
Qed.

Lemma target_square : square D target.
Proof.
  destruct R_square as [HL HF]. split.
  - by rewrite length_map.
  - rewrite Forall_forall in HF. apply Forall_forall. intros u Hu. rewrite map_fmap in Hu.
    apply list_elem_of_fmap in Hu as (v & -> & Hv). rewrite length_map. by apply HF.
Qed.

(** The coefficients of one line land in their columns. *)
Lemma scatter_row (r : nat) (v : list Q) (cols : list nat) :
  R !! r = Some v ->
  forall suf pre M ci P,
    cols = pre ++ suf ->
    Forall (fun c => (0 < c <= D)%nat) suf ->
    square D M -> agree target M P ->
    exists M',
      scatter (map Z.of_nat cols) (Z.of_nat (S r)) (pick v suf) (length pre) M ci
        = Ret (M', default ci (Z.of_nat <$> last suf)) /\
      square D M' /\
      agree target M' (fun r' c' => P r' c' \/ (r' = r /\ S c' ∈ suf)).
Proof.
  intros Hv. assert (r < D)%nat as Hr.
  { destruct R_square as [<- _]. eapply lookup_lt_Some; eauto. }
  induction suf as [|c suf IH]; intros pre M ci P Hcols Hsuf HM HA.
  - exists M. simpl. repeat split; try apply HM.
    intros r' c' [HP|[_ Hin]]; [auto|inversion Hin].
  - inversion Hsuf as [|? ? Hc Hsuf']; subst. simpl pick. cbn [scatter].
    unfold at_. rewrite lookup_map, lookup_app_r, Nat.sub_diag by lia. simpl.
    replace (Z.of_nat (S r) - 1) with (Z.of_nat r) by lia.
    replace (Z.of_nat c - 1) with (Z.of_nat (pred c)) by lia.
    destruct (mat_set_square D M r (pred c) (of_double (default 0%Q (v !! pred c))) HM)
      as (M1 & Hset & HM1 & Hnew & Hold); [lia..|].
    rewrite Hset. simpl.
    destruct (IH (pre ++ [c]) M1 (Z.of_nat c)
                (fun r' c' => P r' c' \/ (r' = r /\ S c' = c)))
      as (M' & Hs & HM' & HA'); [by rewrite <- app_assoc|exact Hsuf'|exact HM1| |].
    + intros r' c' [HP|[-> Hc']].
      * destruct (decide ((r', c') = (r, pred c))) as [E|E].
        -- injection E as -> ->. rewrite Hnew. symmetry. by apply target_entry.
        -- rewrite Hold by exact E. auto.
      * subst c. simpl in Hnew. rewrite Hnew. symmetry.
        apply (target_entry r (S c')); [exact Hv|lia].
    + exists M'. rewrite length_app in Hs. simpl in Hs.
      replace (length pre + 1)%nat with (S (length pre)) in Hs by lia.
      split; [|split; [exact HM'|]].
      * rewrite Hs. f_equal. f_equal. destruct suf as [|n suf]; [reflexivity|].
        rewrite last_cons_cons.
        destruct (last (n :: suf)) eqn:E; [reflexivity|].
        apply last_None in E. discriminate.
      * intros r' c' H. apply HA'. rewrite elem_of_cons in H.
        destruct H as [?|[? [?|?]]]; auto.
Qed.

Lemma agree_weaken (M : cx_mat) (P P' : nat -> nat -> Prop) :
  agree target M P -> (forall r c, P' r c -> P r c) -> agree target M P'.
Proof. intros H HP r c Hrc. apply H, HP, Hrc. Qed.

Lemma read_row_nonempty line x : read_row line = Some x -> empty line = false.
Proof. destruct line; [discriminate|reflexivity]. Qed.

(** The round of the loop on a data line. *)
Lemma parseMatrix_loop_data norbitals line file v :
  empty line = false ->
  parseMatrix_loop norbitals (line :: file) v =
  v1 ← parseRow line v;
  if corner norbitals v1 then Ret (mv_matrix v1, file)
  else parseMatrix_loop norbitals file v1.
Proof. intros E. simpl. rewrite E. reflexivity. Qed.

(** A data line that prints row [k] in the columns of the header. *)
Lemma parseRow_prints cols k line M str ci ri P :
  cols <> [] ->
  Forall (fun c => (0 < c <= D)%nat) cols ->
  (k < D)%nat ->
  prints_row R cols line k ->
  square D M -> agree target M P ->
  exists M' c,
    last cols = Some c /\
    parseRow line {| mv_matrix := M; mv_colIndicesStr := str;
                     mv_colIndices := map Z.of_nat cols;
                     mv_colIndex := ci; mv_rowIndex := ri |}
    = Ret {| mv_matrix := M'; mv_colIndicesStr := str;
             mv_colIndices := map Z.of_nat cols;
             mv_colIndex := Z.of_nat c; mv_rowIndex := Z.of_nat (S k) |} /\
    square D M' /\
    agree target M' (fun r' c' => P r' c' \/ (r' = k /\ S c' ∈ cols)).
Proof.
  intros Hne Hcols Hk Hp HM HA. unfold prints_row, read_row in Hp.
  destruct (extract_int line) as [r0 rest0| |] eqn:E; try discriminate.
  injection Hp as -> Hsplit.
  destruct (R !! k) as [v|] eqn:Ev;
    [|apply lookup_ge_None in Ev; destruct R_square as [HL _]; lia].
  simpl in Hsplit.
  destruct (scatter_row k v cols Ev cols [] M ci P eq_refl Hcols HM HA)
    as (M' & Hs & HM' & HA').
  destruct (last cols) as [c|] eqn:El; [|apply last_None in El; congruence].
  exists M', c. split; [reflexivity|].
  unfold parseRow, shift_int, shift. cbn [mv_rowIndex mv_colIndices mv_matrix mv_colIndex].
  rewrite E. cbn [default from_option id mv_colIndicesStr]. rewrite Hsplit.
  simpl length in Hs. rewrite Hs. split; [reflexivity|]. auto.
Qed.

(** The data lines of one block, from row [k] on. *)
Lemma parse_rows cols rest :
  cols <> [] ->
  Forall (fun c => (0 < c <= D)%nat) cols ->
  forall ls k M str ci ri P,
    Forall2 (prints_row R cols) ls (seq k (length ls)) ->
    (k + length ls = D)%nat ->
    square D M -> agree target M P ->
    exists M' v',
      square D M' /\
      agree target M' (fun r c => P r c \/ ((k <= r < D)%nat /\ S c ∈ cols)) /\
      mv_matrix v' = M' /\
      parseMatrix_loop (Z.of_nat D) (ls ++ rest)
        {| mv_matrix := M; mv_colIndicesStr := str;
           mv_colIndices := map Z.of_nat cols;
           mv_colIndex := ci; mv_rowIndex := ri |}
      = if decide (ls <> [] /\ last cols = Some D) then Ret (M', rest)
        else parseMatrix_loop (Z.of_nat D) rest v'.
Proof.
  intros Hne Hcols. induction ls as [|line ls IH]; intros k M str ci ri P HF Hk HM HA.
  - exists M, {| mv_matrix := M; mv_colIndicesStr := str;
                 mv_colIndices := map Z.of_nat cols;
                 mv_colIndex := ci; mv_rowIndex := ri |}.
    split; [exact HM|]. split; [|split; [reflexivity|]].
    + intros r c [H|[H _]]; [auto|simpl in Hk; lia].
    + rewrite decide_False by tauto. reflexivity.
  - simpl in HF. apply Forall2_cons_1 in HF as [Hp HF']. simpl in Hk.
    destruct (parseRow_prints cols k line M str ci ri P Hne Hcols ltac:(lia) Hp HM HA)
      as (M1 & c & Hlast & Hrow & HM1 & HA1).
    simpl app. rewrite parseMatrix_loop_data by (eapply read_row_nonempty; exact Hp).
    rewrite Hrow. cbn [mbind outcome_bind bind]. unfold corner. cbn [mv_rowIndex mv_colIndex mv_matrix].
    destruct ls as [|line' ls].
    + assert (S k = D) as HD by (simpl in Hk; lia).
      rewrite HD, Z.eqb_refl. cbn [andb]. rewrite Hlast.
      destruct (decide (c = D)) as [->|Hc].
      * exists M1, {| mv_matrix := M1; mv_colIndicesStr := str;
                      mv_colIndices := map Z.of_nat cols;
                      mv_colIndex := Z.of_nat D; mv_rowIndex := Z.of_nat D |}.
        split; [exact HM1|]. split; [|split; [reflexivity|]].
        -- eapply agree_weaken; [exact HA1|].
           intros r c' [H|[H H']]; [auto|right; split; [lia|exact H']].
        -- rewrite Z.eqb_refl, decide_True by (split; congruence). reflexivity.
      * exists M1, {| mv_matrix := M1; mv_colIndicesStr := str;
                      mv_colIndices := map Z.of_nat cols;
                      mv_colIndex := Z.of_nat c; mv_rowIndex := Z.of_nat D |}.
        split; [exact HM1|]. split; [|split; [reflexivity|]].
        -- eapply agree_weaken; [exact HA1|].
           intros r c' [H|[H H']]; [auto|right; split; [lia|exact H']].
        -- replace (Z.of_nat c =? Z.of_nat D) with false
             by (symmetry; apply Z.eqb_neq; lia).
           rewrite decide_False by (intros [_ [= ?]]; congruence). reflexivity.
    + replace (Z.of_nat (S k) =? Z.of_nat D) with false
        by (symmetry; apply Z.eqb_neq; simpl in Hk; lia).
      cbn [andb].
      destruct (IH (S k) M1 str (Z.of_nat c) (Z.of_nat (S k))
                  (fun r' c' => P r' c' \/ (r' = k /\ S c' ∈ cols)) HF')
        as (M' & v' & HM' & HA' & Hv' & Hloop); [simpl in *; lia|exact HM1|exact HA1|].
      exists M', v'. split; [exact HM'|]. split; [|split; [exact Hv'|]].
      * eapply agree_weaken; [exact HA'|]. intros r c' [H|[H H']]; [auto|].
        destruct (decide (r = k)); [auto|right; split; [lia|exact H']].
      * rewrite Hloop. destruct (decide (line' :: ls <> [] /\ last cols = Some D)) as [Hd|Hd].
        -- rewrite decide_True by (split; [discriminate|tauto]). reflexivity.
        -- rewrite decide_False; [reflexivity|]. intros [_ H]. apply Hd. split; [discriminate|exact H].
Qed.

(** One block: a blank line, the column indices, perhaps a blank line,
    the rows. *)
Lemma parse_block cols b rest v P :
  (0 < D)%nat ->
  cols <> [] ->
  Forall (fun c => (0 < c <= D)%nat) cols ->
  prints R cols b ->
  square D (mv_matrix v) -> agree target (mv_matrix v) P ->
  exists M' v',
    square D M' /\
    agree target M' (fun r c => P r c \/ ((r < D)%nat /\ S c ∈ cols)) /\
    mv_matrix v' = M' /\
    parseMatrix_loop (Z.of_nat D) (block_lines b ++ rest) v
    = if decide (last cols = Some D) then Ret (M', rest)
      else parseMatrix_loop (Z.of_nat D) rest v'.
Proof.
  intros HD Hne Hcols [Hh Hrows] HM HA.
  assert (length (bt_rows b) = D) as HL.
  { apply Forall2_length in Hrows. rewrite length_seq in Hrows.
    destruct R_square as [HR _]. lia. }
  destruct R_square as [HR _]. rewrite HR, <- HL in Hrows.
  destruct (parse_rows cols rest Hne Hcols (bt_rows b) O (mv_matrix v)
              (bt_header b) (mv_colIndex v) (mv_rowIndex v) P Hrows)
    as (M' & v' & HM' & HA' & Hv' & Hloop); [lia|exact HM|exact HA|].
  exists M', v'. split; [exact HM'|]. split; [|split; [exact Hv'|]].
  - eapply agree_weaken; [exact HA'|]. intros r c [H|[H H']]; [auto|right; split; [lia|exact H']].
  - assert (bt_rows b <> []) as Hnil by (intros E; rewrite E in HL; simpl in HL; lia).
    replace (if decide (last cols = Some D) then Ret (M', rest)
             else parseMatrix_loop (Z.of_nat D) rest v')
      with (if decide (bt_rows b <> [] /\ last cols = Some D) then Ret (M', rest)
            else parseMatrix_loop (Z.of_nat D) rest v').
    2:{ destruct (decide (last cols = Some D)).
        - rewrite decide_True by tauto. reflexivity.
        - rewrite decide_False by tauto. reflexivity. }
    rewrite <- Hloop, <- Hh. unfold block_lines.
    destruct (bt_gap b).
    + reflexivity.
    + destruct (bt_rows b) as [|l0 ls] eqn:E; [congruence|].
      apply Forall2_cons_1 in Hrows as [Hp _].
      apply read_row_nonempty in Hp.
      simpl app.
      rewrite (parseMatrix_loop_data (Z.of_nat D) l0 (ls ++ rest)) by exact Hp.
      cbn [parseMatrix_loop empty]. rewrite Hp. reflexivity.
Qed.

Lemma last_seq a n : (0 < n)%nat -> last (seq a n) = Some (a + n - 1)%nat.
Proof.
  destruct n as [|n]; [lia|]. intros _. rewrite seq_S, last_snoc. f_equal. lia.
Qed.

Lemma concat_seq (b : list nat) bs a n :
  concat (b :: bs) = seq a n ->
  b = seq a (length b) /\ concat bs = seq (a + length b) (n - length b) /\
  (length b <= n)%nat.
Proof.
  simpl. intros H.
  assert (length b <= n)%nat as Hl.
  { apply (f_equal length) in H. rewrite length_app, length_seq in H. lia. }
  replace n with (length b + (n - length b))%nat in H by lia.
  rewrite seq_app in H. apply app_inj_1 in H; [|by rewrite length_seq].
  tauto.
Qed.

(** The blocks from column [a] on. *)
Lemma parse_blocks rest : forall blocks texts a n v,
  Forall2 (prints R) blocks texts ->
  Forall (fun b => b <> []) blocks ->
  blocks <> [] ->
  concat blocks = seq a n ->
  (a + n = S D)%nat -> (0 < a)%nat ->
  square D (mv_matrix v) ->
  agree target (mv_matrix v) (fun r c => (r < D)%nat /\ (S c < a)%nat) ->
  parseMatrix_loop (Z.of_nat D) (concat (map block_lines texts) ++ rest) v
  = Ret (target, rest).
Proof.
  induction blocks as [|b bs IH]; intros texts a n v HF Hne Hnil Hcat Han Ha HM HA;
    [congruence|].
  destruct texts as [|t ts]; [inversion HF|].
  apply Forall2_cons_1 in HF as [Hp HF]. apply Forall_cons_1 in Hne as [Hb Hbs].
  destruct (concat_seq b bs a n Hcat) as (Eb & Ebs & Hlen).
  assert (0 < length b)%nat as Hpos by (destruct b; [congruence|simpl; lia]).
  assert (0 < D)%nat as HD by lia.
  assert (Forall (fun c => (0 < c <= D)%nat) b) as Hrange.
  { rewrite Eb. apply Forall_forall. intros c Hc. apply elem_of_seq in Hc. lia. }
  change (concat (map block_lines (t :: ts)))
    with (block_lines t ++ concat (map block_lines ts)).
  rewrite <- app_assoc.
  destruct (parse_block b t (concat (map block_lines ts) ++ rest) v _ HD Hb Hrange Hp HM HA)
    as (M' & v' & HM' & HA' & Hv' & Hloop).
  rewrite Hloop. rewrite Eb, last_seq by exact Hpos.
  destruct bs as [|b' bs].
  - inversion HF; subst ts. simpl in Ebs.
    assert (n - length b = 0)%nat as E by (destruct (n - length b)%nat; [reflexivity|discriminate]).
    rewrite decide_True by (f_equal; lia). simpl. do 2 f_equal.
    apply (square_ext D); [exact HM'|apply target_square|].
    intros r c Hr Hc. apply HA'.
    destruct (decide (S c < a)%nat); [left; split; assumption|right].
    split; [exact Hr|]. rewrite Eb. apply elem_of_seq. lia.
  - pose proof (Forall_cons_1 _ _ _ Hbs) as [Hb' _].
    assert (0 < n - length b)%nat as Hmore.
    { apply (f_equal length) in Ebs. rewrite length_seq in Ebs. simpl in Ebs.
      rewrite length_app in Ebs. destruct b'; [congruence|simpl in Ebs; lia]. }
    rewrite decide_False by (intros [= ?]; lia).
    apply (IH ts (a + length b)%nat (n - length b)%nat v' HF Hbs);
      [discriminate|exact Ebs|lia|lia|by rewrite Hv'|].
    rewrite Hv'. eapply agree_weaken; [exact HA'|].
    intros r c [Hr Hc]. destruct (decide (S c < a)%nat); [left; split; assumption|right].
    split; [exact Hr|]. rewrite Eb. apply elem_of_seq. lia.
Qed.

End Roundtrip.

(** C1.  Let the square matrix [R] of dimension [D] be printed in
    blocks: the columns 1..D cut into consecutive non-empty blocks, and
    for each block a blank line, a line holding its column indices, an
    optional blank line, and one line per row holding the row index and
    the entries of that row in those columns.  Then [parseMatrix] returns
    [R] itself, entry for entry, and leaves the file after the last row. *)
Theorem parseMatrix_roundtrip (D : nat) (R : mat Q) (blocks : list (list nat))
    (texts : list block_text) (rest : list string) :
  (0 < D)%nat ->
  square D R ->
  concat blocks = seq 1 D ->
  Forall (fun b => b <> []) blocks ->
  Forall2 (prints R) blocks texts ->
  parseMatrix (Z.of_nat D) (concat (map block_lines texts) ++ rest)
  = Ret (map (map of_double) R, rest).
Proof.
  intros HD HR Hcat Hne HF. unfold parseMatrix, zeros.
  replace ((Z.of_nat D <? 0) || (Z.of_nat D <? 0)) with false
    by (symmetry; apply orb_false_iff; split; apply Z.ltb_ge; lia).
  cbn [mbind outcome_bind bind]. rewrite Nat2Z.id.
  apply (parse_blocks D R HR rest blocks texts 1%nat D); try assumption.
  - intros ->. simpl in Hcat. destruct D; [lia|discriminate].
  - lia.
  - lia.
  - simpl. split; [apply length_replicate|].
    apply Forall_forall. intros r Hr. apply elem_of_replicate in Hr as [-> _].
    apply length_replicate.
  - intros r c [_ H]. lia.
Qed.

Lemma parseMatrix_roundtrip_witness :
  parseMatrix 3 (concat (map block_lines sample_blocks) ++ [" next"])
  = Ret ([[(1, 0); (1 # 4, 0); (0, 0)];
          [(1 # 4, 0); (1, 0); (-1 # 2, 0)];
          [(0, 0); (-1 # 2, 0); (2, 0)]]%Q, [" next"]).
Proof.
  refine (parseMatrix_roundtrip 3 sample_matrix [[1]; [2; 3]]%nat sample_blocks
            [" next"] _ _ _ _ _).
  - lia.
  - split; [reflexivity|]. repeat constructor.
  - reflexivity.
  - repeat constructor; discriminate.
  - repeat constructor.
Defined.

(** ** Sections beyond the cell limit *)

Lemma prefix_occurs c m : forall s,
  String.prefix m s = true -> occurs c m = true -> occurs c s = true.
Proof.
  induction m as [|a m IH]; intros s Hp Ho; [discriminate|].
  destruct s as [|b s]; [discriminate|]. simpl in Hp.
  destruct (ascii_dec a b) as [->|]; [|discriminate].
  simpl in *. destruct (b =? c)%char; [reflexivity|]. simpl in *. eauto.
Qed.

Lemma index_cons m b s :
  index 0 m (String b s) =
  if String.prefix m (String b s) then Some O
  else match index 0 m s with
       | Some n => Some (S n)
       | None => None
       end.
Proof. reflexivity. Qed.

Lemma find_occurs c m s :
  contains s m = true -> occurs c m = true -> occurs c s = true.
Proof.
  unfold contains, find. intros Hc Ho.
  induction s as [|b s IH].
  - destruct m; [discriminate Ho|]. simpl in Hc. discriminate Hc.
  - rewrite index_cons in Hc. destruct (String.prefix m (String b s)) eqn:Hp.
    + eapply prefix_occurs; eauto.
    + simpl. rewrite IH; [apply orb_true_r|].
      destruct (index 0 m s); [reflexivity|exact Hc].
Qed.

(** A line without the letter [c] holds no marker that has it. *)
Lemma no_marker c m s :
  occurs c s = false -> occurs c m = true -> contains s m = false.
Proof.
  intros Hs Hm. destruct (contains s m) eqn:E; [|reflexivity].
  rewrite (find_occurs c m s E Hm) in Hs. discriminate.
Qed.

Lemma numeric_line_occurs c line :
  numeric_char c = false -> numeric_line line = true -> occurs c line = false.
Proof.
  intros Hc. induction line as [|a line IH]; simpl; [reflexivity|].
  intros H. apply andb_true_iff in H as [Ha Hl].
  rewrite (IH Hl), orb_false_r. apply Ascii.eqb_neq. intros ->. congruence.
Qed.

(** A numeric line takes no branch of the scanner. *)
Lemma numeric_line_inert line :
  numeric_line line = true ->
  classify line = Other /\ quiet line = true.
Proof.
  intros H.
  pose proof (numeric_line_occurs "O" line eq_refl H) as HO.
  pose proof (numeric_line_occurs "o" line eq_refl H) as Ho.
  unfold classify, quiet, SOC_STRING, MAGNETIC_STRING.
  repeat match goal with
         | |- context [contains line ?m] =>
             first [ rewrite (no_marker "O" m line HO eq_refl)
                   | rewrite (no_marker "o" m line Ho eq_refl) ]
         end.
  rewrite andb_false_r. split; reflexivity.
Qed.

Lemma scan_line_inert ncells threshold line st :
  classify line = Other -> quiet line = true ->
  scan_line ncells threshold line st = Ret st.
Proof.
  intros Hc Hq. unfold scan_line, dispatch. rewrite Hc.
  cbn [mbind outcome_bind bind mret outcome_ret].
  unfold quiet in Hq. apply andb_true_iff in Hq as [Hb Hf].
  apply negb_true_iff in Hb, Hf. rewrite Hb, Hf. reflexivity.
Qed.

Lemma scan_line_rejected ncells threshold line st :
  rejected_header ncells line = true ->
  scan_line ncells threshold line st = Ret st.
Proof.
  unfold rejected_header. intros H.
  destruct (classify line) eqn:Hc; try discriminate.
  - destruct (after_marker line "OVERLAP MATRIX - CELL N.") as [tail| |] eqn:Ha;
      try discriminate.
    destruct (parseCell tail) as [cellIndex coefs] eqn:Hp. simpl in H.
    destruct cellIndex as [i|]; [|discriminate].
    apply andb_true_iff in H as [Hi Hq].
    unfold quiet in Hq. apply andb_true_iff in Hq as [Hb Hf].
    apply negb_true_iff in Hb, Hf.
    unfold scan_line, dispatch, parseOverlap. rewrite Hc, Ha.
    cbn [mbind outcome_bind bind]. rewrite Hp. cbn [use mbind outcome_bind bind].
    replace (i <=? ncells) with false by (symmetry; apply Z.leb_gt; lia).
    cbn [mbind outcome_bind bind]. rewrite Hb, Hf. reflexivity.
  - apply andb_true_iff in H as [H Hi]. apply andb_true_iff in H as [Hf Hb].
    apply negb_true_iff in Hb.
    unfold cell_index in Hi.
    destruct (after_marker line "FOCK MATRIX - CELL N.") as [tail| |] eqn:Ha;
      try discriminate.
    destruct (parseCell tail) as [cellIndex coefs] eqn:Hp. simpl in Hi.
    destruct cellIndex as [i|]; [|discriminate].
    unfold scan_line, dispatch, parseFock. rewrite Hc.
    cbn [mbind outcome_bind bind]. rewrite Hb, Hf, Ha.
    cbn [mbind outcome_bind bind]. rewrite Hp. cbn [use mbind outcome_bind bind].
    replace (i <=? ncells) with false by (symmetry; apply Z.leb_gt; lia).
    reflexivity.
Qed.

(** A line that leaves the state as it is can be dropped from the file. *)
Lemma parseContent_skip ncells threshold st line file :
  (forall st', scan_line ncells threshold line st' = Ret st') ->
  parseContent ncells threshold (set_m_file (line :: file) st) =
  parseContent ncells threshold (set_m_file file st).
Proof.
  intros H. rewrite (parseContent_step _ _ _ line file) by reflexivity.
  rewrite H. reflexivity.
Qed.

Lemma parseContent_skip_lines ncells threshold st lines file :
  Forall (fun line => forall st', scan_line ncells threshold line st' = Ret st') lines ->
  parseContent ncells threshold (set_m_file (lines ++ file) st) =
  parseContent ncells threshold (set_m_file file st).
Proof.
  induction 1 as [|line lines H _ IH]; [reflexivity|].
  simpl app. rewrite parseContent_skip by exact H. exact IH.
Qed.

Lemma rejected_section_lines ncells threshold lines :
  rejected_section ncells lines ->
  Forall (fun line => forall st', scan_line ncells threshold line st' = Ret st') lines.
Proof.
  destruct lines as [|header block]; [intros []|]. intros [Hh Hb].
  constructor.
  - intros st'. by apply scan_line_rejected.
  - eapply Forall_impl; [exact Hb|]. intros l Hl st'.
    destruct (numeric_line_inert l Hl). by apply scan_line_inert.
Qed.

(** C3.  Sections of OVERLAP or FOCK matrices whose cell index is above
    [ncells] leave no trace: each of their lines, the header and the
    lines of the block, is read by the scanner and leaves every matrix
    stack, the translation vectors and the rest of the state as they
    were; so the scan of a file that holds such sections before [tail]
    ends as the scan of [tail] alone does, whatever [tail] holds, an
    accepted cell for one. *)
Theorem rejected_cells_leave_no_trace ncells threshold st sections tail :
  Forall (rejected_section ncells) sections ->
  Forall (fun line => forall st', scan_line ncells threshold line st' = Ret st')
         (concat sections) /\
  parseContent ncells threshold (set_m_file (concat sections ++ tail) st) =
  parseContent ncells threshold (set_m_file tail st).
Proof.
  intros H.
  assert (Forall (fun line => forall st', scan_line ncells threshold line st' = Ret st')
                 (concat sections)) as HF.
  { induction H as [|sec sections Hs _ IH]; [constructor|].
    simpl. apply Forall_app. split; [|exact IH].
    by apply rejected_section_lines. }
  split; [exact HF|]. by apply parseContent_skip_lines.
Qed.

Lemma rejected_cells_leave_no_trace_witness :
  parseContent 1 100
    (set_m_file (concat far_cells ++ near_cell) (set_norbitals 2 (fresh []))) =
  parseContent 1 100 (set_m_file near_cell (set_norbitals 2 (fresh []))) /\
  exists st',
    parseContent 1 100
      (set_m_file (concat far_cells ++ near_cell) (set_norbitals 2 (fresh [])))
      = Ret st' /\
    fockMatrices st' =
      [[[(-1 # 2, 0); (1 # 8, 0)]; [(1 # 8, 0); (-1 # 2, 0)]]]%Q /\
    overlapMatrices st' = [] /\ bravaisVectors st' = [].
Proof.
  pose proof (proj2 (rejected_cells_leave_no_trace 1 100
                       (set_norbitals 2 (fresh [])) far_cells near_cell
                       ltac:(repeat constructor))) as H.
  split; [exact H|].
  rewrite H. eexists. split; [vm_compute; reflexivity|]. repeat split.
Defined.

(** ** Spin blocks *)

Lemma lookup_flat_map_chunk {A B : Type} (f : A -> list B) (n : nat) :
  (forall x, length (f x) = n) ->
  forall l i k, (k < n)%nat ->
    flat_map f l !! (i * n + k)%nat = l !! i ≫= fun x => f x !! k.
Proof.
  intros Hf. induction l as [|x l IH]; intros i k Hk.
  - reflexivity.
  - simpl flat_map. destruct i as [|i].
    + simpl. apply lookup_app_l. rewrite Hf. exact Hk.
    + rewrite lookup_app_r by (rewrite Hf; simpl; lia).
      rewrite Hf. replace (S i * n + k - n)%nat with (i * n + k)%nat by (simpl; lia).
      rewrite IH by exact Hk. reflexivity.
Qed.

Lemma length_flat_map_chunk {A B : Type} (f : A -> list B) (n : nat) :
  (forall x, length (f x) = n) ->
  forall l, length (flat_map f l) = (length l * n)%nat.
Proof.
  intros Hf. induction l as [|x l IH]; simpl; [reflexivity|].
  rewrite length_app, Hf, IH. reflexivity.
Qed.

(** The entries of [kron(A, B)] for a 2x2 matrix [B]. *)
Lemma kron_entry (A : cx_mat) b00 b01 b10 b11 p q s t a b :
  entry A p q = Some a ->
  entry [[b00; b01]; [b10; b11]] s t = Some b ->
  entry (kron A [[b00; b01]; [b10; b11]]) (p * 2 + s) (q * 2 + t)
  = Some (cx_mul a b).
Proof.
  unfold entry, kron. intros Ha Hb.
  assert (s < 2)%nat as Hs by (destruct s as [|[|s]]; simpl in Hb; [lia|lia|discriminate]).
  rewrite (lookup_flat_map_chunk _ 2) by (reflexivity || exact Hs).
  destruct (A !! p) as [ra|]; [|discriminate]. simpl in Ha. cbn [mbind option_bind].
  assert (t < 2)%nat as Ht.
  { destruct s as [|[|s]]; [| |lia]; simpl in Hb;
      (destruct t as [|[|t]]; [lia|lia|discriminate]). }
  destruct s as [|[|s]]; [| |lia]; simpl lookup; cbn [mbind option_bind];
    rewrite (lookup_flat_map_chunk _ 2) by (reflexivity || exact Ht);
    rewrite Ha; cbn [mbind option_bind];
    destruct t as [|[|t]]; [| |lia| | |lia]; simpl in Hb |- *; congruence.
Qed.

Lemma kron_square d (A : cx_mat) b00 b01 b10 b11 :
  square d A -> square (2 * d) (kron A [[b00; b01]; [b10; b11]]).
Proof.
  intros [HL HF]. unfold kron. split.
  - rewrite (length_flat_map_chunk _ 2) by reflexivity. lia.
  - apply Forall_forall. intros r Hr. apply list_elem_of_In, in_flat_map in Hr.
    destruct Hr as (ra & Hra & Hr). rewrite Forall_forall in HF.
    apply list_elem_of_In, HF in Hra.
    simpl in Hr. destruct Hr as [<-|[<-|[]]];
      rewrite (length_flat_map_chunk _ 2) by reflexivity; lia.
Qed.

Lemma square_same_size {A : Type} d (M N : mat A) :
  square d M -> square d N -> same_size M N = true.
Proof.
  intros [HM FM] [HN FN]. unfold same_size, n_rows, n_cols.
  rewrite HM, HN, Nat.eqb_refl. simpl.
  destruct M as [|u M], N as [|v N]; simpl in *; try reflexivity; try lia.
  apply Forall_cons_1 in FM as [-> _]. apply Forall_cons_1 in FN as [-> _].
  apply Nat.eqb_refl.
Qed.

Lemma zip_square d (X Y : cx_mat) :
  square d X -> square d Y -> square d (zip_with (zip_with cx_add) X Y).
Proof.
  intros [HX FX] [HY FY]. split.
  - rewrite length_zip_with. lia.
  - apply Forall_forall. intros r Hr. apply list_elem_of_lookup in Hr as [i Hi].
    rewrite lookup_zip_with in Hi.
    destruct (X !! i) as [x|] eqn:Ex; [|discriminate]. simpl in Hi.
    destruct (Y !! i) as [y|] eqn:Ey; [|discriminate]. simpl in Hi.
    injection Hi as <-. rewrite length_zip_with.
    rewrite Forall_forall in FX, FY.
    rewrite (FX x), (FY y) by (eapply list_elem_of_lookup_2; eauto). lia.
Qed.

Lemma spin_blocks_square d A B :
  square d A -> square d B -> square (2 * d) (spin_blocks A B).
Proof. intros HA HB. apply zip_square; by apply kron_square. Qed.

Lemma spin_blocks_sum d A B :
  square d A -> square d B ->
  mat_add (kron A spinUpBlock) (kron B spinDownBlock) = Ret (spin_blocks A B).
Proof.
  intros HA HB. unfold mat_add.
  rewrite (square_same_size (2 * d)) by (by apply kron_square). reflexivity.
Qed.

Lemma spin_blocks_entry A B p q s t a b u w :
  entry A p q = Some a -> entry B p q = Some b ->
  entry spinUpBlock s t = Some u -> entry spinDownBlock s t = Some w ->
  entry (spin_blocks A B) (p * 2 + s) (q * 2 + t)
  = Some (cx_add (cx_mul a u) (cx_mul b w)).
Proof.
  intros Ha Hb Hu Hw. unfold spin_blocks.
  pose proof (kron_entry A _ _ _ _ p q s t a u Ha Hu) as HA.
  pose proof (kron_entry B _ _ _ _ p q s t b w Hb Hw) as HB.
  unfold entry in *. fold spinUpBlock in HA. fold spinDownBlock in HB.
  rewrite lookup_zip_with.
  destruct (kron A spinUpBlock !! (p * 2 + s)%nat) as [x|]; [|discriminate].
  destruct (kron B spinDownBlock !! (p * 2 + s)%nat) as [y|]; [|discriminate].
  simpl in *. rewrite lookup_zip_with, HA, HB. reflexivity.
Qed.

Lemma join_slices_square d (C : cx_cube) (M : cx_mat) :
  Forall (square d) C -> square d M -> join_slices C M = Ret (C ++ [M]).
Proof.
  intros HC HM. unfold join_slices.
  replace (forallb _ C) with true; [reflexivity|].
  symmetry. apply forallb_forall. intros S HS. rewrite Forall_forall in HC.
  apply (square_same_size d); [|exact HM]. apply HC. by apply list_elem_of_In.
Qed.

(** The loop of the magnetic branch on stacks of equal length. *)
Lemma combineSpin_stacks d : forall n alpha beta overlap pa pb po fock newOverlap,
  length alpha = n -> length beta = n -> length overlap = n ->
  length pb = length pa -> length po = length pa ->
  Forall (square d) alpha -> Forall (square d) beta -> Forall (square d) overlap ->
  Forall (square (2 * d)) fock -> Forall (square (2 * d)) newOverlap ->
  combineSpin (pa ++ alpha) (pb ++ beta) (po ++ overlap) n (length pa) fock newOverlap
  = Ret (fock ++ zip_with spin_blocks alpha beta,
         newOverlap ++ map (fun S => kron S eye2) overlap).
Proof.
  induction n as [|n IH];
    intros alpha beta overlap pa pb po fock newOverlap La Lb Lo Epb Epo Ha Hb Ho Hf Hn.
  - destruct alpha, beta, overlap; try discriminate. simpl.
    by rewrite !app_nil_r.
  - destruct alpha as [|A alpha], beta as [|B beta], overlap as [|Sm overlap];
      try discriminate.
    apply Forall_cons_1 in Ha as [HA Ha], Hb as [HB Hb], Ho as [HSm Ho].
    cbn [combineSpin]. unfold slice.
    rewrite (list_lookup_middle pa alpha A (length pa) eq_refl).
    rewrite (list_lookup_middle pb beta B (length pa) (eq_sym Epb)).
    rewrite (list_lookup_middle po overlap Sm (length pa) (eq_sym Epo)).
    cbn [mbind outcome_bind bind].
    rewrite (spin_blocks_sum d) by assumption. cbn [mbind outcome_bind bind].
    rewrite (join_slices_square (2 * d) fock (spin_blocks A B) Hf
               (spin_blocks_square d A B HA HB)).
    cbn [mbind outcome_bind bind].
    rewrite (join_slices_square (2 * d) newOverlap (kron Sm eye2) Hn
               (kron_square d Sm _ _ _ _ HSm)).
    cbn [mbind outcome_bind bind].
    specialize (IH alpha beta overlap (pa ++ [A]) (pb ++ [B]) (po ++ [Sm])
                  (fock ++ [spin_blocks A B]) (newOverlap ++ [kron Sm eye2])).
    rewrite <- !app_assoc in IH. simpl in IH.
    rewrite !length_app in IH. simpl in IH.
    replace (length pa + 1)%nat with (S (length pa)) in IH by lia.
    apply IH; try assumption; try (simpl in *; lia).
    + apply Forall_app. split; [exact Hf|]. constructor; [|constructor].
      by apply spin_blocks_square.
    + apply Forall_app. split; [exact Hn|]. constructor; [|constructor].
      by apply kron_square.
Qed.

Lemma spin_up_up a b :
  cx_eq (cx_add (cx_mul a (of_double 1)) (cx_mul b (of_double 0))) a.
Proof. destruct a, b. unfold cx_eq, cx_add, cx_mul, of_double. simpl. split; ring. Qed.

Lemma spin_down_down a b :
  cx_eq (cx_add (cx_mul a (of_double 0)) (cx_mul b (of_double 1))) b.
Proof. destruct a, b. unfold cx_eq, cx_add, cx_mul, of_double. simpl. split; ring. Qed.

Lemma spin_mixed a b :
  cx_eq (cx_add (cx_mul a (of_double 0)) (cx_mul b (of_double 0))) cx_zero.
Proof. destruct a, b. unfold cx_eq, cx_add, cx_mul, of_double. simpl. split; ring. Qed.

Lemma double_counts_exact counts :
  Forall (fun n => 0 <= n < 2 ^ 63) counts ->
  double_counts (map uword counts) = map (fun n => 2 * n) counts.
Proof.
  unfold double_counts, uword. induction 1 as [|n counts Hn _ IH]; [reflexivity|].
  simpl. rewrite IH. f_equal.
  rewrite (Z.mod_small n) by lia. rewrite Z.mod_small by lia. lia.
Qed.

(** C5, as the code has it.  With the magnetic flag set and the
    spin-orbit flag clear, for alpha, beta and overlap stacks of [n]
    slices of dimension [d] each, [mapContent] appends to the Fock stack,
    for every cell, the slice [kron(A, P_up) + kron(B, P_dn)] of
    dimension [2d], in which the 2x2 spin block of the orbital pair
    (p, q) is diag(A(p, q), B(p, q)); it replaces every overlap slice [S]
    by [kron(S, I_2)], and doubles the filling and every orbital count. *)
Theorem mapContent_magnetic d st :
  SOC_FLAG st = false ->
  MAGNETIC_FLAG st = true ->
  length (betaMatrices st) = length (alphaMatrices st) ->
  length (overlapMatrices st) = length (alphaMatrices st) ->
  Forall (square d) (alphaMatrices st) ->
  Forall (square d) (betaMatrices st) ->
  Forall (square d) (overlapMatrices st) ->
  Forall (square (2 * d)) (fockMatrices st) ->
  Forall (fun n => 0 <= n < 2 ^ 63) (orbitalsPerSpecies st) ->
  exists st',
    mapContent st = Ret st' /\
    info_hamiltonian (systemInfo st') =
      fockMatrices st ++ zip_with spin_blocks (alphaMatrices st) (betaMatrices st) /\
    Forall (square (2 * d)) (info_hamiltonian (systemInfo st')) /\
    (forall i A B p q a b,
       alphaMatrices st !! i = Some A -> betaMatrices st !! i = Some B ->
       entry A p q = Some a -> entry B p q = Some b ->
       exists h00 h01 h10 h11,
         entry (spin_blocks A B) (2 * p) (2 * q) = Some h00 /\
         entry (spin_blocks A B) (2 * p) (2 * q + 1) = Some h01 /\
         entry (spin_blocks A B) (2 * p + 1) (2 * q) = Some h10 /\
         entry (spin_blocks A B) (2 * p + 1) (2 * q + 1) = Some h11 /\
         cx_eq h00 a /\ cx_eq h01 cx_zero /\ cx_eq h10 cx_zero /\ cx_eq h11 b) /\
    info_overlap (systemInfo st') =
      map (fun S => kron S eye2) (overlapMatrices st) /\
    info_filling (systemInfo st') =
      Qmult (Qdiv (inject_Z (totalElectrons st)) 2) 2 /\
    info_norbitals (systemInfo st') =
      map (fun n => 2 * n) (orbitalsPerSpecies st).
Proof.
  intros Hsoc Hmag Lb Lo Ha Hb Ho Hf Hc.
  unfold mapContent. rewrite Hsoc, Hmag.
  pose proof (combineSpin_stacks d (length (alphaMatrices st))
                (alphaMatrices st) (betaMatrices st) (overlapMatrices st)
                [] [] [] (fockMatrices st) [] eq_refl Lb Lo eq_refl eq_refl
                Ha Hb Ho Hf (Forall_nil_2 _)) as Hloop.
  simpl in Hloop. unfold n_slices. rewrite Hloop. cbn [mbind outcome_bind bind].
  eexists. split; [reflexivity|]. cbn [systemInfo set_systemInfo info_hamiltonian
    info_overlap info_filling info_norbitals].
  split; [reflexivity|]. split; [|split; [|split; [reflexivity|split; [reflexivity|]]]].
  - apply Forall_app. split; [exact Hf|].
    apply Forall_forall. intros H HH. apply list_elem_of_lookup in HH as [i Hi].
    rewrite lookup_zip_with in Hi.
    destruct (alphaMatrices st !! i) as [A|] eqn:EA; [|discriminate]. simpl in Hi.
    destruct (betaMatrices st !! i) as [B|] eqn:EB; [|discriminate]. simpl in Hi.
    injection Hi as <-. rewrite Forall_forall in Ha, Hb.
    apply spin_blocks_square; [apply Ha|apply Hb]; eapply list_elem_of_lookup_2; eauto.
  - intros i A B p q a b _ _ Ea Eb.
    exists (cx_add (cx_mul a (of_double 1)) (cx_mul b (of_double 0))),
           (cx_add (cx_mul a (of_double 0)) (cx_mul b (of_double 0))),
           (cx_add (cx_mul a (of_double 0)) (cx_mul b (of_double 0))),
           (cx_add (cx_mul a (of_double 0)) (cx_mul b (of_double 1))).
    replace (2 * p)%nat with (p * 2 + 0)%nat by lia.
    replace (2 * q)%nat with (q * 2 + 0)%nat by lia.
    replace (p * 2 + 0 + 1)%nat with (p * 2 + 1)%nat by lia.
    replace (q * 2 + 0 + 1)%nat with (q * 2 + 1)%nat by lia.
    split; [apply spin_blocks_entry; [exact Ea|exact Eb|reflexivity|reflexivity]|].
    split; [apply spin_blocks_entry; [exact Ea|exact Eb|reflexivity|reflexivity]|].
    split; [apply spin_blocks_entry; [exact Ea|exact Eb|reflexivity|reflexivity]|].
    split; [apply spin_blocks_entry; [exact Ea|exact Eb|reflexivity|reflexivity]|].
    split; [apply spin_up_up|]. split; [apply spin_mixed|].
    split; [apply spin_mixed|apply spin_down_down].
  - apply double_counts_exact. exact Hc.
Qed.

Lemma mapContent_magnetic_witness :
  exists st',
    mapContent magnetic_state = Ret st' /\
    info_hamiltonian (systemInfo st') =
      [spin_blocks [[(-1 # 2, 0)]] [[(-1 # 4, 0)]]]%Q /\
    info_overlap (systemInfo st') = [[[(1, 0); (0, 0)]; [(0, 0); (1, 0)]]]%Q.
Proof.
  destruct (mapContent_magnetic 1 magnetic_state) as (st' & H & Hh & _ & _ & Ho & _).
  - reflexivity.
  - reflexivity.
  - reflexivity.
  - reflexivity.
  - repeat constructor.
  - repeat constructor.
  - repeat constructor.
  - constructor.
  - constructor.
  - exists st'. split; [exact H|]. split; [exact Hh|]. rewrite Ho. reflexivity.
Defined.

(** The claim C5 fails on [spin_clash_output]: the magnetic flag is set
    and both spin stacks are filled, but the spin-orbit branch of
    [mapContent] comes first: no Hamiltonian slice is made and the
    overlap stack stays as it was. *)
Lemma magnetic_flag_under_spin_orbit :
  exists st st',
    parseContent 1 100 (fresh spin_clash_output) = Ret st /\
    MAGNETIC_FLAG st = true /\
    alphaMatrices st = [[[(-1 # 2, 0)]]]%Q /\
    betaMatrices st = [[[(-1 # 4, 0)]]]%Q /\
    overlapMatrices st = [[[(1, 0)]]]%Q /\
    mapContent st = Ret st' /\
    info_hamiltonian (systemInfo st') = [] /\
    info_overlap (systemInfo st') = [[[(1, 0)]]]%Q.
Proof.
  eexists. eexists. split; [vm_compute; reflexivity|].
  do 4 (split; [reflexivity|]). split; [vm_compute; reflexivity|].
  split; reflexivity.
Qed.

(** ** Orbital counts *)

Lemma basis_atom_read line label natom old :
  basis_atom line = Some label ->
  exists n rest rest',
    shift extract_int (Some line) natom = (Some n, Some rest) /\
    shift_string (Some rest) old = (label, rest').
Proof.
  unfold basis_atom, shift_string, shift.
  destruct (extract_int line) as [n rest| |]; try discriminate.
  destruct (extract_string rest) as [l r| |] eqn:E; try discriminate.
  intros [= <-]. exists n, rest, (Some r). rewrite E. split; reflexivity.
Qed.

Lemma read_shell_header line c ty norbitals shellType :
  shell_of_line line = Some (c, ty) ->
  read_shell line norbitals shellType = (Some c, ty).
Proof.
  unfold shell_of_line, read_shell, shift_string, shift.
  destruct (extract_int line) as [n r1| |]; try discriminate.
  destruct (extract_string r1) as [t r2| |]; try discriminate. simpl.
  destruct (String.eqb t "-").
  - destruct (extract_int r2) as [n' r3| |]; try discriminate.
    destruct (extract_string r3) as [t' r4| |]; try discriminate.
    intros [= <- <-]. reflexivity.
  - intros [= <- <-]. reflexivity.
Qed.

Lemma parseCoefficients_rows rows file line :
  Forall coefficient_row rows -> ends_table file ->
  exists line', parseCoefficients (rows ++ file) line = (map split rows, line', file).
Proof.
  intros Hrows Hend. revert line.
  induction Hrows as [|l rows Hl _ IH]; intros line.
  - simpl. destruct file as [|l file]; [eauto|].
    simpl in *. unfold coefficient_row in Hend.
    destruct (Nat.eqb_spec (length (split l)) 4); [contradiction|eauto].
  - simpl. unfold coefficient_row in Hl. rewrite Hl. simpl.
    destruct (IH l) as [line' ->]. eauto.
Qed.

Lemma parseShell_text s sh c file :
  bl_file s = shell_lines sh ++ file ->
  shell_counts_to sh c -> ends_table file ->
  bl_file (parseShell s) = file /\
  bl_norbitals (parseShell s) = Some c /\
  same_counts s (parseShell s).
Proof.
  intros Hf ((ty & Hh) & _ & Hrows) Hend. unfold parseShell. rewrite Hf.
  simpl getline. cbv iota beta.
  rewrite (read_shell_header _ c ty) by exact Hh.
  destruct (parseCoefficients_rows (sh_rows sh) file (sh_header sh) Hrows Hend)
    as [line' ->].
  simpl. repeat split.
Qed.

Lemma shells_end shells cumul file :
  Forall2 shell_counts_to shells cumul -> ends_table file ->
  ends_table (concat (map shell_lines shells) ++ file).
Proof.
  intros HF Hend. destruct HF as [|sh c shells cumul (_ & Hh & _) _]; [exact Hend|].
  exact Hh.
Qed.

Lemma parseShells_text : forall shells cumul s file,
  Forall2 shell_counts_to shells cumul ->
  bl_file s = concat (map shell_lines shells) ++ file ->
  ends_table file ->
  bl_file (parseShells (length shells) s) = file /\
  same_counts s (parseShells (length shells) s) /\
  bl_norbitals (parseShells (length shells) s)
    = match last cumul with
      | Some c => Some c
      | None => bl_norbitals s
      end.
Proof.
  induction shells as [|sh shells IH]; intros cumul s file HF Hf Hend.
  - inversion HF; subst. simpl in *. repeat split. exact Hf.
  - inversion HF as [|? c ? cumul' Hsh HF']; subst.
    simpl in Hf. rewrite <- app_assoc in Hf.
    destruct (parseShell_text s sh c _ Hf Hsh (shells_end _ _ _ HF' Hend))
      as (Hf1 & Hn1 & H1).
    destruct (IH cumul' (parseShell s) file HF' Hf1 Hend) as (Hf2 & H2 & Hn2).
    simpl parseShells. simpl length. split; [exact Hf2|]. split.
    + destruct H1 as (?&?&?&?), H2 as (?&?&?&?). repeat split; congruence.
    + rewrite Hn2, Hn1. destruct cumul' as [|c' cumul']; [reflexivity|].
      rewrite last_cons_cons. destruct (last (c' :: cumul')) eqn:E; [reflexivity|].
      apply last_None in E. discriminate.
Qed.

Lemma basis_text_ends shells motif i species atoms lines rest :
  basis_text shells motif i species atoms lines ->
  ends_table rest -> ends_table (lines ++ rest).
Proof. intros H Hend. destruct H; simpl; assumption. Qed.

Lemma position_lt label species :
  label ∈ species -> (position label species < length species)%nat.
Proof.
  induction species as [|s species IH]; intros H; [inversion H|]. simpl.
  destruct (String.eqb s label) eqn:E; [lia|].
  apply String.eqb_neq in E. apply elem_of_cons in H as [->|H]; [congruence|].
  apply IH in H. lia.
Qed.

Lemma index_of_tag k :
  index_of_double (inject_Z (Z.of_nat k)) = Ret k.
Proof.
  unfold index_of_double, Qlt_bool.
  replace (Qle_bool 0 (inject_Z (Z.of_nat k))) with true.
  - cbn [negb]. rewrite Qfloor_Z, Nat2Z.id. reflexivity.
  - symmetry. apply Qle_bool_iff. unfold Qle. simpl. lia.
Qed.

(** The loop of [parseAtomicBasis] on the lines of a basis section. *)
Lemma parseAtomicBasis_loop_text shells motif rest i species atoms lines :
  basis_text shells motif i species atoms lines ->
  ends_table rest ->
  forall s,
    bl_file s = lines ++ rest ->
    bl_species s = species ->
    bl_nspecies s = Z.of_nat (length species) ->
    length (bl_orbitalsPerSpecies s) = length species ->
    exists s',
      parseAtomicBasis_loop motif shells (length atoms) i s = Ret s' /\
      bl_file s' = rest /\
      bl_orbitalsPerSpecies s'
        = derive atoms species (bl_totalOrbitals s) (bl_orbitalsPerSpecies s).
Proof.
  intros H Hend.
  induction H as [i species
                 |i species label cumul line shs atoms lines Hnew Hline _ Hsh Hne HF Hrest IH
                 |i species label line atoms lines tags Hold Hline _ Hrow Htag Hrest IH];
    intros s Hf Hs Hn Hc.
  - exists s. simpl in *. auto.
  - simpl length. cbn [parseAtomicBasis_loop]. unfold parseAtomicBasis_body.
    rewrite Hf. simpl getline. cbv iota beta.
    destruct (basis_atom_read line label (bl_natom s) (bl_species_name s) Hline)
      as (n & r & r' & -> & ->).
    rewrite Hs. replace (absent species label) with true
      by (symmetry; by apply absent_spec).
    rewrite Hn, Nat2Z.id. unfold at_. rewrite Hsh. cbn [mbind outcome_bind bind].
    rewrite Nat2Z.id.
    match goal with |- context [parseShells _ ?s0] => set (s1 := s0) end.
    destruct (parseShells_text shs cumul s1 (lines ++ rest) HF)
      as (Hf1 & (Ht1 & Hn1 & Hs1 & Hc1) & Hno1).
    { subst s1. simpl. by rewrite <- app_assoc. }
    { eapply basis_text_ends; eauto. }
    assert (exists c, last cumul = Some c) as [c Hlast].
    { destruct (last cumul) eqn:E; [eauto|]. apply last_None in E. subst cumul.
      inversion HF. congruence. }
    rewrite Hlast in Hno1. rewrite Hno1. cbn [use mbind outcome_bind bind].
    match goal with |- context [parseAtomicBasis_loop _ _ _ _ ?s0] => set (s2 := s0) end.
    destruct (IH s2) as (s' & Hl & Hf' & Hc').
    + subst s2. simpl. exact Hf1.
    + subst s2. simpl. rewrite Hs1. subst s1. reflexivity.
    + subst s2. simpl. rewrite Hn1. subst s1. simpl. rewrite length_app. simpl. lia.
    + subst s2. simpl. rewrite !length_app, Hc1. subst s1. simpl. lia.
    + exists s'. split; [exact Hl|]. split; [exact Hf'|].
      rewrite Hc'. subst s2. simpl. rewrite Hc1, Ht1. subst s1. simpl.
      replace (absent species label) with true by (symmetry; by apply absent_spec).
      rewrite Hlast. reflexivity.
  - simpl length. cbn [parseAtomicBasis_loop]. unfold parseAtomicBasis_body.
    rewrite Hf. simpl getline. cbv iota beta.
    destruct (basis_atom_read line label (bl_natom s) (bl_species_name s) Hline)
      as (n & r & r' & -> & ->).
    rewrite Hs. replace (absent species label) with false
      by (symmetry; by apply absent_false).
    unfold row. rewrite Hrow. cbn [mbind outcome_bind bind]. rewrite Htag.
    cbn [mbind outcome_bind bind]. rewrite index_of_tag. cbn [mbind outcome_bind bind].
    pose proof (position_lt label species Hold) as Hlt.
    destruct (bl_orbitalsPerSpecies s !! position label species) as [k|] eqn:Ek;
      [|apply lookup_ge_None in Ek; lia].
    unfold at_. rewrite Ek. cbn [mbind outcome_bind bind].
    match goal with |- context [parseAtomicBasis_loop _ _ _ _ ?s0] => set (s2 := s0) end.
    destruct (IH s2) as (s' & Hl & Hf' & Hc').
    + subst s2. simpl. reflexivity.
    + subst s2. simpl. reflexivity.
    + subst s2. simpl. exact Hn.
    + subst s2. simpl. exact Hc.
    + exists s'. split; [exact Hl|]. split; [exact Hf'|].
      rewrite Hc'. subst s2. simpl.
      replace (absent species label) with false by (symmetry; by apply absent_false).
      rewrite Ek. reflexivity.
Qed.

(** C4, as the code has it.  On a basis section read after the atoms,
    [parseAtomicBasis] leaves the orbital counts that the difference rule
    gives: a new species gets the cumulative count of the file at the end
    of its shells minus the running total, which becomes that cumulative
    count; an atom of a species seen before adds the count recorded for
    its species to the running total.  The file numbers the orbitals of
    all atoms, repeats included. *)
Theorem parseAtomicBasis_orbital_counts st l1 l2 l3 lines rest atoms :
  m_file st = l1 :: l2 :: l3 :: lines ++ rest ->
  natoms st = Z.of_nat (length atoms) ->
  orbitalsPerSpecies st = [] ->
  basis_text (shellsPerSpecies st) (motif st) 0 [] atoms lines ->
  ends_table rest ->
  exists st',
    parseAtomicBasis st = Ret st' /\
    orbitalsPerSpecies st' = derive atoms [] 0 [] /\
    m_file st' = rest.
Proof.
  intros Hf Hn Ho Ht Hend. unfold parseAtomicBasis. rewrite Hf, Hn, Ho, Nat2Z.id.
  cbn [getline].
  match goal with |- context [parseAtomicBasis_loop _ _ _ _ ?s0] => set (s := s0) end.
  destruct (parseAtomicBasis_loop_text _ _ rest _ _ _ _ Ht Hend s)
    as (s' & Hl & Hf' & Hc'); try reflexivity.
  rewrite Hl. cbn [mbind outcome_bind bind]. eexists. split; [reflexivity|].
  simpl. auto.
Qed.

Lemma parseAtomicBasis_orbital_counts_witness :
  derive [("C", [1; 5; 10]); ("C", []); ("H", [24])] [] 0 [] = [10; 4] /\
  exists st',
    parseAtomicBasis (basis_state "                                  21-  24 SP ")
      = Ret st' /\
    orbitalsPerSpecies st' = [10; 4].
Proof.
  split; [reflexivity|].
  destruct (parseAtomicBasis_orbital_counts
    (basis_state "                                  21-  24 SP ")
    " *******************************************************************"
    "   ATOM   X(AU)   Y(AU)   Z(AU)  N. TYPE  EXPONENT  S COEF   P COEF   D/F/G COEF"
    " *******************************************************************"
    (take 12 (drop 11 (three_atoms "                                  21-  24 SP ")))
    [" *******************************************************************"]
    [("C", [1; 5; 10]); ("C", []); ("H", [24])])
    as (st' & H & Hc & _).
  - reflexivity.
  - reflexivity.
  - reflexivity.
  - apply (basis_new _ _ 0 [] "C" [1; 5; 10] "   1 C     0.000   0.000   0.000"
      [ {| sh_header := "                                   1 S  ";
           sh_rows := ["                                         3.048E+03 1.826E-03 0.000E+00 0.000E+00";
                       "                                         4.564E+02 1.406E-02 0.000E+00 0.000E+00"] |};
        {| sh_header := "                                   2-   5 SP ";
           sh_rows := ["                                         7.868E+00-1.193E-01 6.899E-02 0.000E+00"] |};
        {| sh_header := "                                   6-  10 D  ";
           sh_rows := ["                                         8.000E-01 0.000E+00 0.000E+00 1.000E+00"] |} ]).
    + apply absent_spec. reflexivity.
    + reflexivity.
    + intros E. vm_compute in E. discriminate E.
    + reflexivity.
    + discriminate.
    + repeat constructor; try (eexists; vm_compute; reflexivity);
        try (intros E; vm_compute in E; discriminate E).
    + apply (basis_seen _ _ 1 ["C"] "C" "   2 C     1.889   1.889   0.000" _ _
               [1; 1; 0; 0]%Q).
      * apply absent_false. reflexivity.
      * reflexivity.
      * intros E. vm_compute in E. discriminate E.
      * reflexivity.
      * reflexivity.
      * apply (basis_new _ _ 2 ["C"] "H" [24] "   3 H     3.779   0.000   0.000"
          [ {| sh_header := "                                  21-  24 SP ";
               sh_rows := ["                                         1.873E+01 3.349E-02 0.000E+00 0.000E+00"] |} ]
          [] []).
        -- apply absent_spec. reflexivity.
        -- reflexivity.
        -- intros E. vm_compute in E. discriminate E.
        -- reflexivity.
        -- discriminate.
        -- repeat constructor; try (eexists; vm_compute; reflexivity);
             try (intros E; vm_compute in E; discriminate E).
        -- constructor.
  - intros E. vm_compute in E. discriminate E.
  - exists st'. split; [exact H|]. rewrite Hc. reflexivity.
Defined.

(** The example of the claim C4 fails: when the file gives the
    cumulative totals 10, 10 and 14 for the three atoms, the repeat has
    advanced the running total to 20, and the second species gets
    14 - 20 orbitals. *)
Lemma orbital_counts_of_totals_10_10_14 :
  exists st,
    parseContent 1 100 (fresh (three_atoms "                                  11-  14 SP "))
      = Ret st /\
    orbitalsPerSpecies st = [10; -6] /\
    orbitalsPerSpecies st <> [10; 4].
Proof.
  eexists. split; [vm_compute; reflexivity|]. split; [reflexivity|discriminate].
Qed.

(** * Further properties of the code *)

(** ** The scan *)

Lemma parseContent_loop_exhausts ncells threshold fuel : forall st st',
  (length (m_file st) < fuel)%nat ->
  parseContent_loop fuel ncells threshold st = Ret st' ->
  m_file st' = [].
Proof.
  induction fuel as [|fuel IH]; intros st st' Hf H; [lia|].
  simpl in H. destruct (m_file st) as [|line file] eqn:E.
  - injection H as <-. exact E.
  - bind_inv H. pose proof (scan_line_length _ _ _ _ _ Hm) as Hl.
    simpl in Hl, Hf. eapply IH; [|exact H]. lia.
Qed.

(** X1.  [parseContent] returns only at the end of the file: whatever the
    sections did, the state it returns has no line left to read. *)
Theorem parseContent_exhausts_file ncells threshold st st' :
  parseContent ncells threshold st = Ret st' -> m_file st' = [].
Proof. intros H. eapply parseContent_loop_exhausts; [|exact H]. lia. Qed.

Lemma parseContent_exhausts_file_witness :
  exists st',
    parseContent 2 100 (fresh slab_output) = Ret st' /\ m_file st' = [].
Proof.
  destruct (parseContent 2 100 (fresh slab_output)) as [st'| |] eqn:E;
    [|vm_compute in E; discriminate E..].
  exists st'. split; [reflexivity|].
  exact (parseContent_exhausts_file 2 100 (fresh slab_output) st' E).
Defined.

(** ** Matrix blocks *)

Lemma mat_set_Ret_square {A : Type} (D : nat) (M M' : mat A) r c v :
  mat_set M r c v = Ret M' -> square D M -> square D M'.
Proof.
  unfold mat_set. intros H [HL HF].
  destruct ((0 <=? r) && (0 <=? c)); [|discriminate].
  destruct (M !! Z.to_nat r) as [u|] eqn:Eu; [|discriminate].
  destruct (Z.to_nat c <? length u)%nat; [|discriminate].
  injection H as <-. split; [by rewrite length_insert|].
  apply Forall_insert; [exact HF|]. rewrite length_insert.
  rewrite Forall_forall in HF. apply HF. eapply list_elem_of_lookup_2; eauto.
Qed.

Lemma scatter_Ret_square D colIndices rowIndex coefs : forall i M ci M' ci',
  scatter colIndices rowIndex coefs i M ci = Ret (M', ci') ->
  square D M -> square D M'.
Proof.
  induction coefs as [|coef coefs IH]; simpl; intros i M ci M' ci' H HM.
  - injection H as <- _. exact HM.
  - do 2 bind_inv H. eapply IH; [exact H|]. eapply mat_set_Ret_square; eauto.
Qed.

Lemma parseRow_Ret_square D line v v' :
  parseRow line v = Ret v' -> square D (mv_matrix v) -> square D (mv_matrix v').
Proof.
  unfold parseRow. destruct (shift_int (Some line) (mv_rowIndex v)) as [r iss].
  intros H HM. bind_inv H. destruct a as [M ci]. injection H as <-. simpl.
  eapply scatter_Ret_square; eauto.
Qed.

Lemma parseMatrix_loop_Ret D norbitals file : forall v M rest,
  parseMatrix_loop norbitals file v = Ret (M, rest) ->
  square D (mv_matrix v) ->
  square D M /\ exists consumed, file = consumed ++ rest /\ consumed <> [].
Proof.
  induction file as [file IH] using (well_founded_induction
    (Wf_nat.well_founded_ltof _ (@length string))).
  unfold Wf_nat.ltof in IH.
  intros v M rest H HM. destruct file as [|line file1]; [discriminate|].
  simpl in H. destruct (empty line).
  - destruct file1 as [|cs file2]; [discriminate|].
    destruct file2 as [|line2 file3]; [discriminate|].
    destruct (empty line2).
    + apply IH in H; [|simpl; lia|exact HM].
      destruct H as (HM' & consumed & -> & _). split; [exact HM'|].
      exists (line :: cs :: line2 :: consumed). split; [reflexivity|discriminate].
    + bind_inv H. apply (parseRow_Ret_square D) in Hm; [|exact HM].
      destruct (corner norbitals a).
      * injection H as <- <-. split; [exact Hm|].
        exists [line; cs; line2]. split; [reflexivity|discriminate].
      * apply IH in H; [|simpl; lia|exact Hm].
        destruct H as (HM' & consumed & -> & _). split; [exact HM'|].
        exists (line :: cs :: line2 :: consumed). split; [reflexivity|discriminate].
  - bind_inv H. apply (parseRow_Ret_square D) in Hm; [|exact HM].
    destruct (corner norbitals a).
    + injection H as <- <-. split; [exact Hm|].
      exists [line]. split; [reflexivity|discriminate].
    + apply IH in H; [|simpl; lia|exact Hm].
      destruct H as (HM' & consumed & -> & _). split; [exact HM'|].
      exists (line :: consumed). split; [reflexivity|discriminate].
Qed.

(** X2.  Whatever the file holds, a matrix that [parseMatrix] returns
    has [norbitals] rows of [norbitals] entries, and what is left of the
    file is the file without the lines read, of which there is at least
    one. *)
Theorem parseMatrix_returns_square norbitals file M rest :
  parseMatrix norbitals file = Ret (M, rest) ->
  square (Z.to_nat norbitals) M /\
  exists consumed, file = consumed ++ rest /\ consumed <> [].
Proof.
  unfold parseMatrix, zeros. intros H.
  destruct ((norbitals <? 0) || (norbitals <? 0)); [discriminate|].
  cbn [mbind outcome_bind bind] in H.
  eapply parseMatrix_loop_Ret; [exact H|]. simpl. split.
  - apply length_replicate.
  - apply Forall_forall. intros r Hr. apply elem_of_replicate in Hr as [-> _].
    apply length_replicate.
Qed.

Lemma parseMatrix_returns_square_witness :
  exists M rest,
    parseMatrix 3 (concat (map block_lines sample_blocks) ++ [" next"])
      = Ret (M, rest) /\
    square 3 M /\ rest = [" next"].
Proof.
  destruct (parseMatrix 3 (concat (map block_lines sample_blocks) ++ [" next"]))
    as [[M rest]| |] eqn:E; [|vm_compute in E; discriminate E..].
  exists M, rest. split; [reflexivity|].
  destruct (parseMatrix_returns_square 3 _ M rest E) as [HM _].
  split; [exact HM|]. vm_compute in E. injection E as _ <-. reflexivity.
Defined.

(** X3.  A line of blanks inside a matrix block is not [empty()]: it is
    read as a data line, on which neither the row index nor any
    coefficient can be extracted, and unless the corner test already
    holds the loop goes on with the next line as if the line were not
    there. *)
Theorem parseMatrix_skips_blank_line norbitals line file v :
  blank_line line ->
  corner norbitals v = false ->
  parseMatrix_loop norbitals (line :: file) v = parseMatrix_loop norbitals file v.
Proof.
  intros [He Hw] Hc. rewrite parseMatrix_loop_data by exact He.
  unfold parseRow, shift_int, shift, extract_int. rewrite Hw.
  cbn [default from_option id scatter mbind outcome_bind bind mret outcome_ret].
  destruct v as [M str cols ci ri]. cbn [mv_matrix mv_colIndicesStr mv_colIndices
    mv_colIndex mv_rowIndex] in *.
  rewrite Hc. reflexivity.
Qed.

Lemma parseMatrix_skips_blank_line_witness :
  let v := {| mv_matrix := [[(1, 0); (1 # 2, 0)]; [(0, 0); (0, 0)]]%Q;
              mv_colIndicesStr := "  1  2"; mv_colIndices := [1; 2];
              mv_colIndex := 2; mv_rowIndex := 1 |} in
  blank_line "     " /\ corner 2 v = false /\
  parseMatrix_loop 2 ["     "; " 2  0.5  1.0"; "x"] v =
  parseMatrix_loop 2 [" 2  0.5  1.0"; "x"] v.
Proof.
  intros v. split; [split; reflexivity|]. split; [reflexivity|].
  apply (parseMatrix_skips_blank_line 2 "     "); [split|]; reflexivity.
Defined.

(** ** The dimension of the lattice *)

(** The loop from row [i] on: the rows before [i] stay, the others are
    left as [shed_skip] says. *)
Lemma extractDimension_loop_shed_skip threshold fuel : forall i lattice,
  (length lattice - i <= fuel)%nat ->
  extractDimension_loop fuel threshold i lattice =
  Ret (take i lattice ++ shed_skip threshold (drop i lattice)).
Proof.
  induction fuel as [|fuel IH]; intros i L Hf.
  - simpl. rewrite drop_ge by lia. rewrite take_ge by lia.
    by rewrite app_nil_r.
  - simpl. unfold n_rows. destruct (i <? length L)%nat eqn:E.
    + apply Nat.ltb_lt in E.
      destruct (lookup_lt_is_Some_2 L i E) as [r Hr].
      unfold row. rewrite Hr. cbn [mbind outcome_bind bind].
      rewrite (drop_S _ _ _ Hr). cbn [shed_skip].
      destruct (norm_gt r threshold).
      * unfold shed_row, n_rows.
        rewrite (proj2 (Nat.ltb_lt _ _) E). cbn [mbind outcome_bind bind].
        rewrite IH.
        2:{ rewrite length_app, length_take, length_drop. lia. }
        f_equal.
        assert (Hl : length (take i L) = i) by (rewrite length_take; lia).
        destruct (drop (S i) L) as [|r' rest'].
        -- rewrite app_nil_r. rewrite take_ge by lia. rewrite drop_ge by lia.
           by rewrite app_nil_r.
        -- rewrite take_app_ge by lia. rewrite drop_app_ge by lia.
           rewrite Hl. replace (S i - i)%nat with 1%nat by lia. simpl.
           rewrite drop_0. by rewrite <- app_assoc.
      * cbn [mbind outcome_bind bind]. rewrite IH by lia.
        rewrite (take_S_r _ _ _ Hr). by rewrite <- app_assoc.
    + apply Nat.ltb_ge in E. rewrite drop_ge by lia. rewrite take_ge by lia.
      by rewrite app_nil_r.
Qed.

Lemma extractDimension_shed_skip threshold st :
  extractDimension threshold st =
  Ret (set_ndim (n_rows (shed_skip threshold (bravaisLattice st)))
         (set_bravaisLattice (shed_skip threshold (bravaisLattice st)) st)).
Proof.
  unfold extractDimension, n_rows.
  rewrite extractDimension_loop_shed_skip by lia. reflexivity.
Qed.

Lemma shed_skip_sublist threshold : forall n rows,
  (length rows <= n)%nat ->
  shed_skip threshold rows `sublist_of` rows /\
  short_rows threshold rows `sublist_of` shed_skip threshold rows.
Proof.
  unfold short_rows.
  induction n as [|n IH]; intros rows Hn.
  - destruct rows; [|simpl in Hn; lia]. split; constructor.
  - destruct rows as [|r rest]; [split; constructor|].
    simpl in Hn. cbn [shed_skip]. destruct (norm_gt r threshold) eqn:E.
    + rewrite filter_cons_False by (rewrite E; discriminate).
      destruct rest as [|r' rest'].
      * split; [apply sublist_nil_l|constructor].
      * simpl in Hn. destruct (IH rest' ltac:(lia)) as [H1 H2]. split.
        -- apply sublist_cons. by apply sublist_skip.
        -- destruct (norm_gt r' threshold) eqn:E'.
           ++ rewrite filter_cons_False by (rewrite E'; discriminate).
              by apply sublist_cons.
           ++ rewrite filter_cons_True by exact E'. by apply sublist_skip.
    + rewrite filter_cons_True by exact E.
      destruct (IH rest ltac:(lia)) as [H1 H2].
      split; by apply sublist_skip.
Qed.

Lemma shed_skip_apart threshold : forall n rows,
  (length rows <= n)%nat ->
  long_rows_apart threshold rows ->
  shed_skip threshold rows = short_rows threshold rows.
Proof.
  unfold short_rows.
  induction n as [|n IH]; intros rows Hn Ha.
  - destruct rows; [reflexivity|simpl in Hn; lia].
  - destruct rows as [|r rest]; [reflexivity|].
    simpl in Hn. cbn [shed_skip]. destruct Ha as [Hr Ha].
    destruct (norm_gt r threshold) eqn:E.
    + rewrite filter_cons_False by (rewrite E; discriminate).
      destruct rest as [|r' rest']; [reflexivity|].
      specialize (Hr eq_refl). rewrite filter_cons_True by exact Hr.
      destruct Ha as [_ Ha]. simpl in Hn. f_equal. apply IH; [lia|exact Ha].
    + rewrite filter_cons_True by exact E. f_equal. apply IH; [lia|exact Ha].
Qed.

(** X4.  [extractDimension] always returns, never throws: it keeps the
    rows of the lattice in their order, it never discards a row whose
    norm is within the threshold, and the dimension it stores is the
    number of rows it kept. *)
Theorem extractDimension_keeps_short_rows threshold st :
  exists st',
    extractDimension threshold st = Ret st' /\
    bravaisLattice st' `sublist_of` bravaisLattice st /\
    short_rows threshold (bravaisLattice st) `sublist_of` bravaisLattice st' /\
    ndim st' = n_rows (bravaisLattice st').
Proof.
  eexists. split; [apply extractDimension_shed_skip|].
  destruct (shed_skip_sublist threshold _ (bravaisLattice st) (le_n _))
    as [H1 H2].
  destruct st. simpl in *. auto.
Qed.

(** X5.  When no row beyond the threshold directly follows another one
    (a bulk crystal with three short vectors, a slab with two short
    vectors and then the long one) [extractDimension] gives the intended
    result: the lattice becomes exactly its rows within the threshold,
    and the dimension is their number. *)
Theorem extractDimension_long_rows_apart threshold st :
  long_rows_apart threshold (bravaisLattice st) ->
  exists st',
    extractDimension threshold st = Ret st' /\
    bravaisLattice st' = short_rows threshold (bravaisLattice st) /\
    ndim st' = n_rows (short_rows threshold (bravaisLattice st)).
Proof.
  intros Ha. eexists. split; [apply extractDimension_shed_skip|].
  rewrite (shed_skip_apart threshold _ _ (le_n _) Ha).
  destruct st. simpl. auto.
Qed.

Lemma extractDimension_long_rows_apart_witness :
  let slab := [[3; 0; 0]; [0; 3; 0]; [0; 0; 500]]%Q in
  long_rows_apart 100 slab /\
  exists st',
    extractDimension 100 (set_bravaisLattice slab (fresh [])) = Ret st' /\
    bravaisLattice st' = [[3; 0; 0]; [0; 3; 0]]%Q /\
    ndim st' = 2%nat.
Proof.
  intros slab.
  assert (Ha : long_rows_apart 100 slab).
  { simpl. repeat split; intros H; try reflexivity; discriminate H. }
  split; [exact Ha|].
  exact (extractDimension_long_rows_apart 100
           (set_bravaisLattice slab (fresh [])) Ha).
Defined.

(** ** Data lines that do not fit the matrix *)

Lemma mat_set_outside {A : Type} (D : nat) (M : mat A) (r c : Z) (v : A) :
  square D M ->
  r < 0 \/ Z.of_nat D <= r \/ c < 0 \/ Z.of_nat D <= c ->
  mat_set M r c v = Throw (logic_error "Mat::operator(): index out of bounds").
Proof.
  intros [HL HF] Hout. unfold mat_set.
  destruct ((0 <=? r) && (0 <=? c)) eqn:E; [|reflexivity].
  apply andb_true_iff in E as [Hr Hc]. apply Z.leb_le in Hr, Hc.
  destruct (M !! Z.to_nat r) as [u|] eqn:Eu; [|reflexivity].
  assert (Hu : length u = D).
  { rewrite Forall_forall in HF. apply HF. eapply list_elem_of_lookup_2; eauto. }
  apply lookup_lt_Some in Eu.
  destruct (Z.to_nat c <? length u)%nat eqn:Ec; [|reflexivity].
  apply Nat.ltb_lt in Ec. lia.
Qed.

(** X6.  The matrix is written through Armadillo's checked access: a
    data line whose row index, or whose first column index, is outside
    [1 .. D] for a [D x D] matrix makes [parseRow] throw Armadillo's
    bounds error at its first coefficient. *)
Theorem parseRow_outside_matrix D line v r x coefs c cols :
  square D (mv_matrix v) ->
  read_row line = Some (r, x :: coefs) ->
  mv_colIndices v = c :: cols ->
  r < 1 \/ Z.of_nat D < r \/ c < 1 \/ Z.of_nat D < c ->
  parseRow line v = Throw (logic_error "Mat::operator(): index out of bounds").
Proof.
  intros HM Hrow Hcols Hout. unfold parseRow, shift_int, shift.
  unfold read_row in Hrow.
  destruct (extract_int line) as [r0 rest| |]; try discriminate.
  injection Hrow as -> Hsplit.
  cbn [default from_option id]. rewrite Hsplit, Hcols.
  cbn [scatter at_ lookup list_lookup mbind outcome_bind bind].
  rewrite (mat_set_outside D) by (assumption || lia). reflexivity.
Qed.

Lemma parseRow_outside_matrix_witness :
  let v := {| mv_matrix := [[(0, 0); (0, 0)]; [(0, 0); (0, 0)]]%Q;
              mv_colIndicesStr := "  1  2"; mv_colIndices := [1; 2];
              mv_colIndex := 0; mv_rowIndex := 0 |} in
  parseRow " 3  0.5  1.0" v
  = Throw (logic_error "Mat::operator(): index out of bounds").
Proof.
  intros v.
  apply (parseRow_outside_matrix 2 " 3  0.5  1.0" v 3 (1 # 2)%Q [1%Q] 1 [2]).
  - split; [reflexivity|]. repeat constructor.
  - vm_compute. reflexivity.
  - reflexivity.
  - lia.
Defined.

Lemma scatter_within D colIndices rowIndex coefs : forall i M ci,
  square D M ->
  1 <= rowIndex <= Z.of_nat D ->
  Forall (fun c => 1 <= c <= Z.of_nat D) colIndices ->
  (i <= length colIndices)%nat ->
  ((length coefs + i <= length colIndices)%nat ->
   exists M' ci', scatter colIndices rowIndex coefs i M ci = Ret (M', ci')) /\
  ((length colIndices < length coefs + i)%nat ->
   scatter colIndices rowIndex coefs i M ci = Undefined).
Proof.
  induction coefs as [|coef coefs IH]; intros i M ci HM Hr Hc Hi.
  - simpl. split; [eauto|lia].
  - cbn [scatter length]. unfold at_.
    destruct (colIndices !! i) as [c|] eqn:Ec.
    + cbn [mbind outcome_bind bind].
      assert (Hcr : 1 <= c <= Z.of_nat D).
      { rewrite Forall_forall in Hc. apply Hc.
        eapply list_elem_of_lookup_2; eauto. }
      apply lookup_lt_Some in Ec.
      destruct (mat_set_square D M (Z.to_nat (rowIndex - 1)) (Z.to_nat (c - 1))
                  (of_double coef) HM ltac:(lia) ltac:(lia))
        as (M' & HM' & Hsq & _).
      rewrite !Z2Nat.id in HM' by lia. rewrite HM'.
      cbn [mbind outcome_bind bind].
      destruct (IH (S i) M' c Hsq Hr Hc ltac:(lia)) as [H1 H2].
      split; intros H; [apply H1|apply H2]; lia.
    + apply lookup_ge_None in Ec. split; [lia|reflexivity].
Qed.

(** X7.  The column of a coefficient is looked up with the unchecked
    [colIndices[i]]: a data line that holds more coefficients than the
    header of its block has column indices reads past the end of the
    vector, which is undefined behaviour, even when the row and all
    columns of the header are inside the matrix.  With no more
    coefficients than columns the line is accepted. *)
Theorem parseRow_more_values_than_columns D line v r coefs :
  square D (mv_matrix v) ->
  read_row line = Some (r, coefs) ->
  1 <= r <= Z.of_nat D ->
  Forall (fun c => 1 <= c <= Z.of_nat D) (mv_colIndices v) ->
  ((length (mv_colIndices v) < length coefs)%nat ->
   parseRow line v = Undefined) /\
  ((length coefs <= length (mv_colIndices v))%nat ->
   exists v', parseRow line v = Ret v').
Proof.
  intros HM Hrow Hr Hc. unfold parseRow, shift_int, shift.
  unfold read_row in Hrow.
  destruct (extract_int line) as [r0 rest| |]; try discriminate.
  injection Hrow as -> Hsplit.
  cbn [default from_option id]. rewrite Hsplit.
  destruct (scatter_within D (mv_colIndices v) r coefs O (mv_matrix v)
              (mv_colIndex v) HM Hr Hc ltac:(lia)) as [H1 H2].
  split; intros H.
  - rewrite H2 by lia. reflexivity.
  - destruct H1 as (M' & ci' & ->); [lia|].
    cbn [mbind outcome_bind bind]. eauto.
Qed.

Lemma parseRow_more_values_than_columns_witness :
  let v := {| mv_matrix := [[(0, 0); (0, 0)]; [(0, 0); (0, 0)]]%Q;
              mv_colIndicesStr := "  1  2"; mv_colIndices := [1; 2];
              mv_colIndex := 0; mv_rowIndex := 0 |} in
  parseRow " 1  0.5  1.0  2.0" v = Undefined.
Proof.
  intros v.
  refine (proj1 (parseRow_more_values_than_columns 2 " 1  0.5  1.0  2.0" v 1
                   [(1 # 2)%Q; 1%Q; 2%Q] _ _ _ _) _).
  - split; [reflexivity|]. repeat constructor.
  - vm_compute. reflexivity.
  - lia.
  - repeat constructor; lia.
  - simpl. lia.
Defined.

(** ** The table of a shell *)

(** X8.  The loop over the table of a shell takes exactly the lines that
    split into four numbers, up to the first line that does not: that
    line stays in the file for the next read, and the rows taken are
    stored as their four numbers, in order. *)
Theorem parseCoefficients_takes_rows file line :
  exists rows rest line',
    parseCoefficients file line = (map split rows, line', rest) /\
    file = rows ++ rest /\
    Forall coefficient_row rows /\
    ends_table rest.
Proof.
  revert line. induction file as [|l file IH]; intros line.
  - exists [], [], line. simpl. auto.
  - destruct (Nat.eqb_spec (length (split l)) 4) as [E|E].
    + destruct (IH l) as (rows & rest & line' & Hp & Hf & Hr & He).
      exists (l :: rows), rest, line'. cbn [map parseCoefficients].
      rewrite E. cbn [Nat.eqb]. rewrite Hp.
      split; [reflexivity|]. split; [simpl; congruence|].
      split; [constructor; assumption|exact He].
    + exists [], (l :: file), l. cbn [map parseCoefficients].
      destruct (Nat.eqb_spec (length (split l)) 4); [contradiction|].
      split; [reflexivity|]. split; [reflexivity|].
      split; [constructor|exact E].
Qed.

(** ** Lines with a count *)

Lemma substring_fits : forall s n m,
  String.length (substring n m s) = m -> (0 < m)%nat ->
  (n + m <= String.length s)%nat.
Proof.
  induction s as [|c s IH]; intros n m H Hm.
  - destruct n, m; simpl in H; lia.
  - destruct n as [|n].
    + destruct m as [|m]; [lia|]. simpl in H. injection H as H.
      destruct m as [|m]; [simpl; lia|].
      specialize (IH O (S m) H ltac:(lia)). simpl in *. lia.
    + simpl in H. specialize (IH n m H Hm). simpl. lia.
Qed.

Lemma find_fits line m pos :
  find line m = Some pos -> (0 < String.length m)%nat ->
  (pos + String.length m <= String.length line)%nat.
Proof.
  unfold find. intros H Hm. apply index_correct1 in H.
  apply substring_fits; [|exact Hm]. by rewrite H.
Qed.

Lemma after_marker_found line m :
  contains line m = true -> (0 < String.length m)%nat ->
  exists pos,
    find line m = Some pos /\
    after_marker line m = Ret (drop_chars (pos + String.length m) line).
Proof.
  unfold contains, after_marker, substr_from. intros H Hm.
  destruct (find line m) as [pos|] eqn:E; [|discriminate].
  exists pos. split; [reflexivity|].
  pose proof (find_fits _ _ _ E Hm) as Hfit.
  destruct (String.length line <? pos + String.length m)%nat eqn:El;
    [apply Nat.ltb_lt in El; lia|reflexivity].
Qed.

Lemma parseCount_found line m n :
  contains line m = true -> (0 < String.length m)%nat ->
  exists tail,
    after_marker line m = Ret tail /\
    parseCount line m n = Ret (tail, stored tail n).
Proof.
  intros H Hm. destruct (after_marker_found line m H Hm) as (pos & _ & Ha).
  eexists. split; [exact Ha|]. unfold parseCount. rewrite Ha.
  cbn [mbind outcome_bind bind]. unfold stored, shift_int, shift.
  destruct (extract_int _); reflexivity.
Qed.

Ltac classify_cases H :=
  unfold classify in H;
  repeat match type of H with
         | (if ?b then _ else _) = _ =>
             let E := fresh "E" in destruct b eqn:E; try discriminate H
         end.

(** X9.  The five branches that read a count cannot fail: the marker
    that selects the branch is the one it cuts the line at, so [substr]
    stays inside the line.  The member then holds what [iss >> n]
    leaves in it ([stored]): the integer that follows the marker when
    there is one. *)
Theorem count_lines_never_throw ncells threshold line st :
  match classify line with
  | AtomCount =>
      exists tail,
        after_marker line "N. OF ATOMS PER CELL" = Ret tail /\
        dispatch ncells threshold line st
          = Ret (tail, set_natoms (stored tail (natoms st)) st)
  | ShellCount =>
      exists tail,
        after_marker line "NUMBER OF SHELLS" = Ret tail /\
        dispatch ncells threshold line st
          = Ret (tail, set_nshells (stored tail (nshells st)) st)
  | OrbitalCount =>
      exists tail,
        after_marker line "NUMBER OF AO" = Ret tail /\
        dispatch ncells threshold line st
          = Ret (tail, set_norbitals (stored tail (norbitals st)) st)
  | ElectronCount =>
      exists tail,
        after_marker line "N. OF ELECTRONS PER CELL" = Ret tail /\
        dispatch ncells threshold line st
          = Ret (tail, set_totalElectrons (stored tail (totalElectrons st)) st)
  | CoreElectronCount =>
      exists tail,
        after_marker line "CORE ELECTRONS PER CELL" = Ret tail /\
        dispatch ncells threshold line st
          = Ret (tail, set_coreElectrons (stored tail (coreElectrons st)) st)
  | _ => True
  end.
Proof.
  destruct (classify line) eqn:Hc; try exact I; unfold dispatch; rewrite Hc;
    classify_cases Hc;
    match goal with
    | |- context [parseCount line ?m ?n] =>
        destruct (parseCount_found line m n) as (tail & Ha & ->);
          [assumption|simpl; lia|];
          exists tail; split; [exact Ha|reflexivity]
    end.
Qed.

(** ** Matrix headers without the cell number *)

Lemma substr_from_short line pos :
  (String.length line < pos)%nat ->
  substr_from line pos = Throw (out_of_range "basic_string::substr").
Proof.
  intros H. unfold substr_from. apply Nat.ltb_lt in H. by rewrite H.
Qed.

(** X10.  The matrix branches test for the words OVERLAP MATRIX, or FOCK
    MATRIX, and then cut the line after the longer text that ends in
    "- CELL N.".  When the longer text is absent [find] gives [npos],
    the cut is placed at the length of the text minus one, and on a line
    shorter than that (23 characters for the overlap, 20 for the Fock
    matrix) [substr] throws [std::out_of_range], which ends the scan. *)
Theorem short_matrix_header_throws ncells threshold line st :
  (classify line = Overlap ->
   contains line "OVERLAP MATRIX - CELL N." = false ->
   (String.length line < 23)%nat ->
   scan_line ncells threshold line st
     = Throw (out_of_range "basic_string::substr")) /\
  (classify line = Other ->
   contains line "FOCK MATRIX" = true ->
   contains line "FOCK MATRIX - CELL N." = false ->
   (String.length line < 20)%nat ->
   scan_line ncells threshold line st
     = Throw (out_of_range "basic_string::substr")).
Proof.
  split.
  - intros Hc Hn Hl. unfold scan_line, dispatch. rewrite Hc.
    unfold parseOverlap, after_marker. unfold contains in Hn.
    destruct (find line "OVERLAP MATRIX - CELL N."); [discriminate|].
    rewrite substr_from_short by (simpl; lia). reflexivity.
  - intros Hc Hf Hn Hl. unfold scan_line, dispatch. rewrite Hc.
    cbn [mbind outcome_bind bind]. rewrite Hf.
    destruct (contains line "BETA" && contains line "ELECTRONS");
      unfold parseFock, after_marker; unfold contains in Hn;
      (destruct (find line "FOCK MATRIX - CELL N."); [discriminate|]);
      rewrite substr_from_short by (simpl; lia); reflexivity.
Qed.

Lemma short_matrix_header_throws_witness :
  parseContent 1 100 (fresh short_header)
  = Throw (out_of_range "basic_string::substr").
Proof.
  unfold parseContent.
  change (parseContent_loop _ 1 100 (fresh short_header))
    with (st' ← scan_line 1 100 " OVERLAP MATRIX"
                   (set_m_file ["   1   1.0"] (fresh short_header));
          parseContent_loop 2 1 100 st').
  rewrite (proj1 (short_matrix_header_throws 1 100 " OVERLAP MATRIX"
                    (set_m_file ["   1   1.0"] (fresh short_header))));
    [reflexivity| | |]; vm_compute; (reflexivity || lia).
Defined.

(** ** The atom section: shells per species, and a file that ends early *)

Lemma first_records_snoc records r :
  first_records (records ++ [r]) =
  if absent (nub (map r_label records)) (r_label r)
  then first_records records ++ [r] else first_records records.
Proof.
  induction records as [|x records IH]; simpl.
  - reflexivity.
  - rewrite IH. destruct (absent (nub (map r_label records)) (r_label r)) eqn:E.
    + destruct (absent (r_label x :: _) (r_label r)) eqn:E'.
      * apply absent_spec in E'. rewrite not_elem_of_cons in E'.
        rewrite filter_app, filter_cons_True by tauto. reflexivity.
      * apply absent_false in E'. apply absent_spec in E.
        rewrite elem_of_cons, list_elem_of_filter in E'.
        destruct E' as [Heq|[_ ?]]; [|tauto].
        rewrite filter_app, filter_cons_False, filter_nil by tauto.
        by rewrite app_nil_r.
    + apply absent_false in E.
      destruct (absent (r_label x :: _) (r_label r)) eqn:E'; [|reflexivity].
      apply absent_spec in E'. rewrite not_elem_of_cons, list_elem_of_filter in E'.
      tauto.
Qed.

Lemma first_records_labels records :
  map r_label (first_records records) = nub (map r_label records).
Proof.
  induction records as [|x records IH]; [reflexivity|]. simpl. f_equal.
  rewrite <- IH. clear IH.
  induction (first_records records) as [|y l IHl]; [reflexivity|].
  destruct (decide (r_label y = r_label x)) as [E|E].
  - rewrite filter_cons_False by tauto. simpl.
    rewrite filter_cons_False by tauto. exact IHl.
  - rewrite filter_cons_True by exact E. simpl.
    rewrite filter_cons_True by exact E. by rewrite IHl.
Qed.

(** One round of the loop, on whatever line [getline] leaves in [line]:
    the next line of the file, or at the end of the file the line read
    before. *)
Lemma parseAtoms_body_line i s r :
  atom_of_line (getline (al_file s) (al_line s)).1.2 = Some r ->
  species_map (al_species s) (al_to_index s) ->
  al_nspecies s = Z.of_nat (length (al_species s)) ->
  exists s',
    parseAtoms_body i s = Ret s' /\
    al_file s' = (getline (al_file s) (al_line s)).2 /\
    al_line s' = (getline (al_file s) (al_line s)).1.2 /\
    al_species s' = (if absent (al_species s) (r_label r)
                     then al_species s ++ [r_label r] else al_species s) /\
    al_shells s' = (if absent (al_species s) (r_label r)
                    then al_shells s ++ [r_nshells r] else al_shells s) /\
    species_map (al_species s') (al_to_index s') /\
    al_nspecies s' = Z.of_nat (length (al_species s')) /\
    al_motif s' = <[i := motif_row (al_species s') r]> (al_motif s).
Proof.
  intros Hr Hm Hn. unfold parseAtoms_body.
  destruct (getline (al_file s) (al_line s)) as [[ok line] file]. simpl in Hr |- *.
  rewrite (read_atom_record _ _ _ Hr). simpl a_species. simpl a_nshells.
  simpl a_x. simpl a_y. simpl a_z.
  destruct (absent (al_species s) (r_label r)) eqn:E.
  - apply absent_spec in E. eexists. split; [reflexivity|]. simpl.
    pose proof (species_map_snoc _ _ _ Hm E) as Hm'.
    repeat split; try apply Hm'.
    + rewrite Hn, length_app. simpl. lia.
    + destruct Hm' as (Hin & _ & _). rewrite (Hin (r_label r)) by set_solver.
      reflexivity.
  - apply absent_false in E. eexists. split; [reflexivity|]. simpl.
    repeat split; try apply Hm; try assumption.
    destruct Hm as (Hin & _ & _). rewrite (Hin _ E). reflexivity.
Qed.

(** The loop over a section that holds [records], after the records
    [done]; the motif may have rows [extra] beyond those of the section. *)
Lemma parseAtoms_loop_section rest :
  forall records lines done i s rows pending extra,
  Forall2 (fun line r => atom_of_line line = Some r) lines records ->
  al_file s = lines ++ rest ->
  al_species s = nub (map r_label done) ->
  al_shells s = map r_nshells (first_records done) ->
  species_map (al_species s) (al_to_index s) ->
  al_nspecies s = Z.of_nat (length (al_species s)) ->
  al_motif s = rows ++ pending ++ extra ->
  length rows = i -> length pending = length records ->
  exists s',
    parseAtoms_loop (length records) i s = Ret s' /\
    al_file s' = rest /\
    al_species s' = nub (map r_label (done ++ records)) /\
    al_shells s' = map r_nshells (first_records (done ++ records)) /\
    species_map (al_species s') (al_to_index s') /\
    al_nspecies s' = Z.of_nat (length (al_species s')) /\
    al_motif s' = rows ++ map (motif_row (al_species s')) records ++ extra /\
    (forall r, last records = Some r -> atom_of_line (al_line s') = Some r).
Proof.
  induction records as [|r records IH];
    intros lines done i s rows pending extra HF Hf Hs Hsh Hm Hn Hmotif Hi Hp.
  - inversion HF; subst. destruct pending; [|simpl in Hp; lia].
    exists s. simpl in *. rewrite !app_nil_r in *.
    split; [reflexivity|]. do 6 (split; [assumption|]).
    intros r Hr. discriminate Hr.
  - inversion HF as [|line ? lines' ? Hr HF']; subst. simpl in Hf.
    destruct pending as [|old pending]; [simpl in Hp; lia|]. simpl in Hp.
    destruct (parseAtoms_body_line (length rows) s r)
      as (s1 & Hb & Hf1 & Hl1 & Hs1 & Hsh1 & Hm1 & Hn1 & Hmotif1);
      [rewrite Hf; exact Hr|exact Hm|exact Hn|].
    rewrite Hf in Hf1, Hl1. simpl in Hf1, Hl1.
    assert (al_species s1 = nub (map r_label (done ++ [r]))) as Hs1'.
    { rewrite map_app. simpl. rewrite nub_snoc, <- Hs. exact Hs1. }
    assert (al_shells s1 = map r_nshells (first_records (done ++ [r]))) as Hsh1'.
    { rewrite first_records_snoc, <- Hs, Hsh1, Hsh.
      destruct (absent (al_species s) (r_label r));
        [by rewrite map_app|reflexivity]. }
    assert (r_label r ∈ al_species s1) as Hin.
    { rewrite Hs1', nub_elem, map_app. set_solver. }
    destruct (IH lines' (done ++ [r]) (S (length rows)) s1
                (rows ++ [motif_row (al_species s1) r]) pending extra
                HF' Hf1 Hs1' Hsh1' Hm1 Hn1)
      as (s' & Hl & Hf' & Hs' & Hsh' & Hm' & Hn' & Hmotif' & Hlast).
    + rewrite Hmotif1, Hmotif.
      etrans; [apply insert_app_r_alt; lia|].
      rewrite Nat.sub_diag. simpl. by rewrite <- app_assoc.
    + rewrite length_app. simpl. lia.
    + lia.
    + exists s'. simpl. rewrite Hb. simpl. split; [exact Hl|].
      rewrite <- app_assoc in Hs', Hsh'. simpl in Hs', Hsh'.
      do 5 (split; [assumption|]). split.
      * rewrite Hmotif', <- app_assoc. simpl. do 2 f_equal.
        unfold motif_row. do 4 f_equal.
        destruct (nub_app_prefix (map r_label (done ++ [r])) (map r_label records))
          as [more Hmore].
        rewrite <- map_app, <- app_assoc in Hmore. simpl in Hmore.
        rewrite Hs', Hmore, <- Hs1'. by rewrite position_app_l.
      * intros r0 Hr0. destruct records as [|r1 records].
        -- simpl in Hr0. injection Hr0 as <-.
           simpl in Hl. injection Hl as <-. rewrite Hl1. exact Hr.
        -- apply Hlast. by rewrite last_cons_cons in Hr0.
Qed.

(** The loop at the end of the file: every round reads the last line
    again. *)
Lemma parseAtoms_loop_eof r : forall k i s rows pending extra,
  al_file s = [] ->
  atom_of_line (al_line s) = Some r ->
  r_label r ∈ al_species s ->
  species_map (al_species s) (al_to_index s) ->
  al_nspecies s = Z.of_nat (length (al_species s)) ->
  al_motif s = rows ++ pending ++ extra ->
  length rows = i -> length pending = k ->
  exists s',
    parseAtoms_loop k i s = Ret s' /\
    al_file s' = [] /\
    al_species s' = al_species s /\
    al_shells s' = al_shells s /\
    al_nspecies s' = al_nspecies s /\
    al_motif s' = rows ++ replicate k (motif_row (al_species s) r) ++ extra.
Proof.
  induction k as [|k IH]; intros i s rows pending extra Hf Hr Hin Hm Hn Hmotif Hi Hp.
  - destruct pending; [|simpl in Hp; lia]. exists s. simpl in *.
    do 5 (split; [assumption || reflexivity|]). exact Hmotif.
  - destruct pending as [|old pending]; [simpl in Hp; lia|]. simpl in Hp.
    destruct (parseAtoms_body_line i s r)
      as (s1 & Hb & Hf1 & Hl1 & Hs1 & Hsh1 & Hm1 & Hn1 & Hmotif1);
      [rewrite Hf; exact Hr|exact Hm|exact Hn|].
    rewrite Hf in Hf1, Hl1. simpl in Hf1, Hl1.
    replace (absent (al_species s) (r_label r)) with false in Hs1, Hsh1
      by (symmetry; by apply absent_false).
    destruct (IH (S i) s1 (rows ++ [motif_row (al_species s) r]) pending extra)
      as (s' & Hl & Hf' & Hs' & Hsh' & Hn' & Hmotif'); try assumption.
    + by rewrite Hl1.
    + by rewrite Hs1.
    + rewrite Hmotif1, Hmotif, Hs1. subst i.
      etrans; [apply insert_app_r_alt; lia|].
      rewrite Nat.sub_diag. simpl. by rewrite <- app_assoc.
    + rewrite length_app. simpl. lia.
    + lia.
    + exists s'. simpl. rewrite Hb. simpl. split; [exact Hl|].
      repeat split; try congruence.
      rewrite Hmotif', Hs1, <- app_assoc. reflexivity.
Qed.

Lemma parseAtoms_loop_app n k : forall i s,
  parseAtoms_loop (n + k) i s =
  s' ← parseAtoms_loop n i s; parseAtoms_loop k (i + n) s'.
Proof.
  induction n as [|n IH]; intros i s; simpl.
  - by rewrite Nat.add_0_r.
  - destruct (parseAtoms_body i s) as [s1| |]; simpl; [|reflexivity..].
    rewrite IH. by rewrite Nat.add_succ_r.
Qed.

(** X11.  The shell counts [parseAtoms] stores are those of the atoms
    that open a species: on an atom section that holds [records],
    [shellsPerSpecies] lists the shell count of the first atom of each
    species, in the order the species appear, one entry per species. *)
Theorem parseAtoms_shells_per_species st header lines rest records :
  records <> [] ->
  natoms st = Z.of_nat (length records) ->
  m_file st = header :: lines ++ rest ->
  Forall2 (fun line r => atom_of_line line = Some r) lines records ->
  exists st',
    parseAtoms st = Ret st' /\
    shellsPerSpecies st' = map r_nshells (first_records records) /\
    Z.of_nat (length (shellsPerSpecies st')) = nspecies st' /\
    m_file st' = rest.
Proof.
  intros Hne Hn Hf HF. unfold parseAtoms, zeros. rewrite Hn, Hf.
  replace (Z.of_nat (length records) <? 0) with false
    by (symmetry; apply Z.ltb_ge; lia).
  rewrite Nat2Z.id. change (Z.to_nat 4) with 4%nat.
  cbn [orb Z.ltb Z.compare getline mbind outcome_bind bind].
  edestruct (parseAtoms_loop_section rest records lines [] O
    {| al_file := lines ++ rest; al_line := header; al_vars := no_atom_vars;
       al_species := []; al_to_index := ∅; al_shells := []; al_nspecies := 0;
       al_motif := replicate (length records) (replicate 4 0%Q) |}
    [] (replicate (length records) (replicate 4 0%Q)) [])
    as (s' & Hl & Hf' & Hs' & Hsh' & _ & Hn' & Hm' & _);
    try reflexivity; try assumption.
  - apply species_map_empty.
  - by rewrite app_nil_r.
  - apply length_replicate.
  - rewrite Hl. cbn [mbind outcome_bind bind]. simpl in Hm', Hs', Hsh'.
    rewrite Hm'. destruct records as [|r records]; [congruence|].
    cbn [map app row lookup list_lookup mbind outcome_bind bind].
    eexists. split; [reflexivity|]. cbn -[first_records nub].
    rewrite Hsh', Hn', Hs'. split; [reflexivity|]. split; [|exact Hf'].
    rewrite length_map, <- first_records_labels, length_map. reflexivity.
Qed.

Lemma parseAtoms_shells_per_species_witness :
  exists st',
    parseAtoms (set_natoms 5 (fresh five_atoms)) = Ret st' /\
    shellsPerSpecies st' = [3; 1; 4] /\
    Z.of_nat (length (shellsPerSpecies st')) = nspecies st' /\
    m_file st' = [" next section"].
Proof.
  refine (parseAtoms_shells_per_species (set_natoms 5 (fresh five_atoms))
    " *******************************************************************"
    (take 5 (tail five_atoms)) [" next section"]
    [ {| r_index := 1; r_natom := 6; r_label := "C"; r_nshells := 3;
         r_x := 1; r_y := 2; r_z := 3 |};
      {| r_index := 2; r_natom := 1; r_label := "H"; r_nshells := 1;
         r_x := 0; r_y := 0; r_z := 0 |};
      {| r_index := 3; r_natom := 6; r_label := "C"; r_nshells := 3;
         r_x := -1; r_y := 2; r_z := 3 |};
      {| r_index := 4; r_natom := 8; r_label := "O"; r_nshells := 4;
         r_x := 3 # 2; r_y := 0; r_z := 0 |};
      {| r_index := 5; r_natom := 1; r_label := "H"; r_nshells := 1;
         r_x := 0; r_y := 0; r_z := 1 |} ] _ _ _ _).
  - discriminate.
  - reflexivity.
  - reflexivity.
  - repeat constructor.
Defined.

(** X12.  [parseAtoms] does not test whether [getline] succeeds.  When
    the file ends after the records [records] although [natoms]
    announces [missing] more atoms, no error is raised: every missing
    atom is stored as a copy of the last atom read, and the species are
    those of the atoms read. *)
Theorem parseAtoms_repeats_last_atom st header lines records last_record missing :
  last records = Some last_record ->
  natoms st = Z.of_nat (length records + missing) ->
  m_file st = header :: lines ->
  Forall2 (fun line r => atom_of_line line = Some r) lines records ->
  exists st',
    parseAtoms st = Ret st' /\
    motif st' = map (motif_row (nub (map r_label records)))
                    (records ++ replicate missing last_record) /\
    nspecies st' = Z.of_nat (length (nub (map r_label records))) /\
    m_file st' = [].
Proof.
  intros Hlast Hn Hf HF. unfold parseAtoms, zeros. rewrite Hn, Hf.
  replace (Z.of_nat (length records + missing) <? 0) with false
    by (symmetry; apply Z.ltb_ge; lia).
  rewrite Nat2Z.id. change (Z.to_nat 4) with 4%nat.
  cbn [orb Z.ltb Z.compare getline mbind outcome_bind bind].
  rewrite parseAtoms_loop_app.
  edestruct (parseAtoms_loop_section [] records lines [] O
    {| al_file := lines; al_line := header; al_vars := no_atom_vars;
       al_species := []; al_to_index := ∅; al_shells := []; al_nspecies := 0;
       al_motif := replicate (length records + missing) (replicate 4 0%Q) |}
    [] (replicate (length records) (replicate 4 0%Q))
    (replicate missing (replicate 4 0%Q)))
    as (s1 & Hl & Hf1 & Hs1 & Hsh1 & Hm1 & Hn1 & Hmotif1 & Hline);
    try reflexivity; try assumption.
  - simpl. by rewrite app_nil_r.
  - apply species_map_empty.
  - simpl. by rewrite replicate_add.
  - apply length_replicate.
  - rewrite Hl. cbn [mbind outcome_bind bind]. simpl in Hmotif1, Hs1.
    edestruct (parseAtoms_loop_eof last_record missing (0 + length records) s1
      (map (motif_row (al_species s1)) records)
      (replicate missing (replicate 4 0%Q)) [])
      as (s2 & Hl2 & Hf2 & Hs2 & Hsh2 & Hn2 & Hmotif2); try assumption.
    + by apply Hline.
    + rewrite Hs1, nub_elem, map_fmap, list_elem_of_fmap.
      exists last_record. split; [reflexivity|].
      apply last_Some in Hlast as [l' ->]. set_solver.
    + by rewrite app_nil_r.
    + by rewrite length_map.
    + apply length_replicate.
    + rewrite Hl2. cbn [mbind outcome_bind bind].
      rewrite app_nil_r in Hmotif2. rewrite Hmotif2.
      destruct records as [|r records]; [discriminate Hlast|].
      cbn [map app row lookup list_lookup mbind outcome_bind bind].
      eexists. split; [reflexivity|]. cbn -[nub].
      rewrite Hn2, Hn1, Hs1. split; [|split; [reflexivity|exact Hf2]].
      rewrite map_app. simpl. do 2 f_equal.
      clear. induction missing as [|k IH]; [reflexivity|].
      simpl. by rewrite IH.
Qed.

Lemma parseAtoms_repeats_last_atom_witness :
  exists st',
    parseAtoms (set_natoms 4 (fresh cut_atoms)) = Ret st' /\
    motif st' = [[1; 2; 3; 0]; [0; 1 # 2; 0; 1]; [0; 1 # 2; 0; 1];
                 [0; 1 # 2; 0; 1]]%Q /\
    nspecies st' = 2 /\
    m_file st' = [].
Proof.
  refine (parseAtoms_repeats_last_atom (set_natoms 4 (fresh cut_atoms))
    " *******************************************************************"
    (tail cut_atoms)
    [ {| r_index := 1; r_natom := 6; r_label := "C"; r_nshells := 3;
         r_x := 1; r_y := 2; r_z := 3 |};
      {| r_index := 2; r_natom := 1; r_label := "H"; r_nshells := 1;
         r_x := 0; r_y := 1 # 2; r_z := 0 |} ]
    {| r_index := 2; r_natom := 1; r_label := "H"; r_nshells := 1;
       r_x := 0; r_y := 1 # 2; r_z := 0 |} 2 _ _ _ _).
  - reflexivity.
  - reflexivity.
  - reflexivity.
  - repeat constructor.
Defined.

(** X13.  The locals of [parseAtoms] are not initialised.  When the
    first line after the header does not give a shell count (it has
    fewer than four fields, or the file has ended), the label read, or
    the empty label, is new, and the shell count pushed for it is an
    uninitialised [int]: undefined behaviour instead of an error. *)
Theorem parseAtoms_unreadable_first_atom st :
  0 < natoms st ->
  a_nshells (read_atom (getline (tail (m_file st))
                          (getline (m_file st) "").1.2).1.2 no_atom_vars)
    = None ->
  parseAtoms st = Undefined.
Proof.
  intros Hn Hr. unfold parseAtoms, zeros.
  replace (natoms st <? 0) with false by (symmetry; apply Z.ltb_ge; lia).
  cbn [orb Z.ltb Z.compare mbind outcome_bind bind].
  destruct (Z.to_nat (natoms st)) as [|n] eqn:En; [lia|].
  assert (Hfile : (getline (m_file st) "").2 = tail (m_file st))
    by (destruct (m_file st); reflexivity).
  destruct (getline (m_file st) "") as [[ok line] file]. simpl in Hr, Hfile.
  subst file. cbn [parseAtoms_loop]. unfold parseAtoms_body. cbn [al_file al_line al_vars].
  destruct (getline (tail (m_file st)) line) as [[ok1 line1] file1].
  simpl in Hr. cbn [al_species absent existsb negb].
  rewrite Hr. reflexivity.
Qed.

Lemma parseAtoms_unreadable_first_atom_witness :
  parseAtoms (set_natoms 2 (fresh [" ****"; "    1    6 C"])) = Undefined /\
  parseAtoms (set_natoms 2 (fresh [])) = Undefined.
Proof.
  split.
  - apply (parseAtoms_unreadable_first_atom
             (set_natoms 2 (fresh [" ****"; "    1    6 C"])));
      [reflexivity|vm_compute; reflexivity].
  - apply (parseAtoms_unreadable_first_atom (set_natoms 2 (fresh [])));
      [reflexivity|vm_compute; reflexivity].
Defined.

(** ** Flags and stacks along the scan *)

Lemma parseBravaisLattice_spin threshold st st' :
  parseBravaisLattice threshold st = Ret st' -> same_spin st st'.
Proof.
  unfold parseBravaisLattice.
  destruct (getline (m_file st) "") as [[? l1] f1].
  destruct (getline f1 l1) as [[? l2] f2].
  destruct (getline f2 l2) as [[? l3] f3].
  intros H. bind_inv H. unfold extractDimension in H. bind_inv H.
  injection H as <-. repeat split.
Qed.

Lemma parseAtoms_spin st st' : parseAtoms st = Ret st' -> same_spin st st'.
Proof.
  unfold parseAtoms. intros H. bind_inv H.
  destruct (getline (m_file st) "") as [[? line] file].
  do 2 bind_inv H. injection H as <-. repeat split.
Qed.

Lemma parseAtomicBasis_spin st st' :
  parseAtomicBasis st = Ret st' -> same_spin st st'.
Proof.
  unfold parseAtomicBasis.
  destruct (getline (m_file st) "") as [[? l1] f1].
  destruct (getline f1 l1) as [[? l2] f2].
  destruct (getline f2 l2) as [[? l3] f3].
  intros H. bind_inv H. injection H as <-. repeat split.
Qed.

Lemma scan_rel_refl st : scan_rel st st.
Proof.
  split; [|split].
  - repeat split; auto.
  - repeat split; reflexivity.
  - repeat split; auto.
Qed.

Lemma scan_rel_trans st1 st2 st3 :
  scan_rel st1 st2 -> scan_rel st2 st3 -> scan_rel st1 st3.
Proof.
  intros ((S1 & M1 & A1) & (O1 & F1 & Al1 & B1 & V1) & (Ra1 & Rb1 & Rc1 & Rd1))
         ((S2 & M2 & A2) & (O2 & F2 & Al2 & B2 & V2) & (Ra2 & Rb2 & Rc2 & Rd2)).
  split; [|split].
  - repeat split; auto.
  - repeat split; etrans; eauto.
  - split; [|split; [|split]].
    + intros H3.
      assert (H2 : MAGNETIC_FLAG st2 = false).
      { destruct (MAGNETIC_FLAG st2) eqn:E; [|reflexivity].
        rewrite M2 in H3 by reflexivity. discriminate H3. }
      destruct (Ra1 H2) as [E1 E2]. destruct (Ra2 H3) as [E3 E4].
      split; congruence.
    + intros H1. rewrite <- (Rb1 H1). apply Rb2. destruct H1; auto.
    + intros H1. rewrite <- (Rc1 H1). apply Rc2. auto.
    + intros H1 H3.
      assert (H2 : alpha_electrons st2 = true).
      { destruct (alpha_electrons st2) eqn:E; [reflexivity|].
        rewrite A2 in H3 by reflexivity. discriminate H3. }
      rewrite <- (Rd1 H1 H2). apply Rd2; auto.
Qed.

(** A branch that changes neither a flag nor a stack. *)
Lemma scan_rel_same st st' :
  same_spin st st' -> same_matrices st st' -> scan_rel st st'.
Proof.
  intros (HS & HM & HA) (HO & HF & HAl & HB & HV).
  unfold scan_rel, flags_kept, stacks_grow, routed.
  rewrite HS, HM, HA, HO, HF, HAl, HB, HV.
  split; [|split]; repeat split; auto.
Qed.

Lemma dispatch_rel ncells threshold line st line' st' :
  dispatch ncells threshold line st = Ret (line', st') -> scan_rel st st'.
Proof.
  unfold dispatch, parseCount. intros H. destruct (classify line).
  - bind_inv H. injection H as <- <-.
    apply scan_rel_same;
      [eapply parseBravaisLattice_spin|eapply parseBravaisLattice_matrices]; eauto.
  - bind_inv H. destruct a. bind_inv Hm. injection Hm as <- <-.
    injection H as <- <-. apply scan_rel_same; repeat split.
  - bind_inv H. destruct a. bind_inv Hm. injection Hm as <- <-.
    injection H as <- <-. apply scan_rel_same; repeat split.
  - bind_inv H. destruct a. bind_inv Hm. injection Hm as <- <-.
    injection H as <- <-. apply scan_rel_same; repeat split.
  - bind_inv H. destruct a. bind_inv Hm. injection Hm as <- <-.
    injection H as <- <-. apply scan_rel_same; repeat split.
  - bind_inv H. destruct a. bind_inv Hm. injection Hm as <- <-.
    injection H as <- <-. apply scan_rel_same; repeat split.
  - destruct (natoms st =? 0); [discriminate|]. bind_inv H. injection H as <- <-.
    apply scan_rel_same; [eapply parseAtoms_spin|eapply parseAtoms_matrices]; eauto.
  - bind_inv H. injection H as <- <-.
    apply scan_rel_same;
      [eapply parseAtomicBasis_spin|eapply parseAtomicBasis_matrices]; eauto.
  - unfold parseOverlap in H. bind_inv H.
    destruct (parseCell a) as [cellIndex coefs]. bind_inv H.
    destruct (a0 <=? ncells).
    + do 3 bind_inv H. destruct a3 as [M file]. bind_inv H.
      injection H as <- <-.
      apply join_vert_Ret in Hm2. apply join_slices_Ret in Hm4. subst.
      unfold scan_rel, flags_kept, stacks_grow, routed. simpl.
      split; [|split]; repeat split; auto; try reflexivity;
        by apply prefix_app_r.
    + injection H as <- <-. apply scan_rel_refl.
  - injection H as <- <-.
    unfold scan_rel, flags_kept, stacks_grow, routed. simpl.
    split; [|split]; repeat split; auto.
  - injection H as <- <-.
    unfold scan_rel, flags_kept, stacks_grow, routed. simpl.
    split; [|split]; repeat split; auto; discriminate.
  - injection H as <- <-. apply scan_rel_refl.
Qed.

Lemma parseFock_rel ncells line st st' :
  parseFock ncells line st = Ret st' -> scan_rel st st'.
Proof.
  unfold parseFock. intros H. bind_inv H.
  destruct (parseCell a) as [cellIndex coefs]. bind_inv H.
  destruct (a0 <=? ncells); [|injection H as <-; apply scan_rel_refl].
  bind_inv H. destruct a1 as [M file]. simpl in H.
  unfold scan_rel, flags_kept, stacks_grow, routed.
  destruct (MAGNETIC_FLAG st) eqn:EM.
  - destruct (alpha_electrons st) eqn:EA; bind_inv H; injection H as <-;
      apply join_slices_Ret in Hm2; subst; simpl; rewrite ?EM, ?EA;
      (split; [|split]); repeat split; auto; try reflexivity;
      try (by apply prefix_app_r); try discriminate; try congruence.
  - destruct (SOC_FLAG st) eqn:ES.
    + injection H as <-. simpl. rewrite ?EM, ?ES.
      (split; [|split]); repeat split; auto.
    + bind_inv H. injection H as <-. apply join_slices_Ret in Hm2. subst. simpl.
      rewrite ?EM, ?ES.
      (split; [|split]); repeat split; auto; try reflexivity;
        try (by apply prefix_app_r); try discriminate.
      intros [?|?]; discriminate.
Qed.

Lemma scan_line_rel ncells threshold line st st' :
  scan_line ncells threshold line st = Ret st' -> scan_rel st st'.
Proof.
  unfold scan_line. intros H. bind_inv H. destruct a as [line' st1].
  apply dispatch_rel in Hm.
  set (st2 := if contains line' "BETA" && contains line' "ELECTRONS"
              then set_alpha_electrons false st1 else st1) in H.
  assert (H12 : scan_rel st1 st2).
  { subst st2. destruct (_ && _); [|apply scan_rel_refl].
    unfold scan_rel, flags_kept, stacks_grow, routed. simpl.
    split; [|split]; repeat split; auto; discriminate. }
  destruct (contains line' "FOCK MATRIX").
  - apply parseFock_rel in H. eauto using scan_rel_trans.
  - injection H as <-. eauto using scan_rel_trans.
Qed.

Lemma parseContent_loop_rel ncells threshold fuel : forall st st',
  parseContent_loop fuel ncells threshold st = Ret st' -> scan_rel st st'.
Proof.
  induction fuel as [|fuel IH]; intros st st' H.
  - injection H as <-. apply scan_rel_refl.
  - simpl in H. destruct (m_file st) as [|line file] eqn:E.
    + injection H as <-. apply scan_rel_refl.
    + bind_inv H. apply scan_line_rel in Hm. apply IH in H.
      eapply scan_rel_trans; [|exact H].
      eapply scan_rel_trans; [|exact Hm].
      apply scan_rel_same; repeat split.
Qed.

(** X14.  The scan never takes a spin flag back: once the spin-orbit
    or the magnetic flag is set it stays set to the end of the file, and
    once a line with BETA and ELECTRONS has cleared the alpha flag it is
    never set again, so that all later Fock matrices of an unrestricted
    calculation are beta matrices. *)
Theorem parseContent_keeps_flags ncells threshold st st' :
  parseContent ncells threshold st = Ret st' ->
  (SOC_FLAG st = true -> SOC_FLAG st' = true) /\
  (MAGNETIC_FLAG st = true -> MAGNETIC_FLAG st' = true) /\
  (alpha_electrons st = false -> alpha_electrons st' = false).
Proof. intros H. apply parseContent_loop_rel in H. apply H. Qed.

(** X15.  The scan only appends: each of the four matrix stacks and the
    list of translation vectors of the state returned starts with what
    it held before, in the same order; no matrix read earlier is removed,
    replaced or moved. *)
Theorem parseContent_appends ncells threshold st st' :
  parseContent ncells threshold st = Ret st' ->
  overlapMatrices st `prefix_of` overlapMatrices st' /\
  fockMatrices st `prefix_of` fockMatrices st' /\
  alphaMatrices st `prefix_of` alphaMatrices st' /\
  betaMatrices st `prefix_of` betaMatrices st' /\
  bravaisVectors st `prefix_of` bravaisVectors st'.
Proof. intros H. apply parseContent_loop_rel in H. apply H. Qed.

(** X16.  Where the Fock matrices go.  If the magnetic flag is clear
    at the end of the scan, the alpha and the beta stack are untouched.
    If the magnetic or the spin-orbit flag is set at the start, the Fock
    stack is untouched: under spin-orbit coupling without the magnetic
    flag every Fock matrix read is dropped.  After the alpha flag is
    cleared the alpha stack is untouched, and in a magnetic scan the
    beta stack is untouched as long as the alpha flag is set. *)
Theorem parseContent_routes_fock ncells threshold st st' :
  parseContent ncells threshold st = Ret st' ->
  (MAGNETIC_FLAG st' = false ->
   alphaMatrices st' = alphaMatrices st /\ betaMatrices st' = betaMatrices st) /\
  (MAGNETIC_FLAG st = true \/ SOC_FLAG st = true ->
   fockMatrices st' = fockMatrices st) /\
  (alpha_electrons st = false -> alphaMatrices st' = alphaMatrices st) /\
  (MAGNETIC_FLAG st = true -> alpha_electrons st' = true ->
   betaMatrices st' = betaMatrices st).
Proof. intros H. apply parseContent_loop_rel in H. apply H. Qed.

Lemma parseContent_keeps_flags_witness :
  let st := set_norbitals 1 (set_alpha_electrons false (set_MAGNETIC_FLAG true
              (fresh (drop 8 two_fock_blocks)))) in
  exists st',
    parseContent 5 100 st = Ret st' /\
    MAGNETIC_FLAG st' = true /\ alpha_electrons st' = false.
Proof.
  intros st.
  destruct (parseContent 5 100 st) as [st'| |] eqn:E;
    [|vm_compute in E; discriminate E..].
  exists st'. split; [reflexivity|].
  destruct (parseContent_keeps_flags 5 100 st st' E) as (_ & HM & HA).
  split; [apply HM|apply HA]; reflexivity.
Defined.

Lemma parseContent_appends_witness :
  let st := set_alphaMatrices [[[(3 # 2, 0)]]]%Q (set_norbitals 1
              (set_alpha_electrons false (set_MAGNETIC_FLAG true
                (fresh (drop 8 two_fock_blocks))))) in
  exists st',
    parseContent 5 100 st = Ret st' /\
    [[[(3 # 2, 0)]]]%Q `prefix_of` alphaMatrices st' /\
    [] `prefix_of` betaMatrices st'.
Proof.
  intros st.
  destruct (parseContent 5 100 st) as [st'| |] eqn:E;
    [|vm_compute in E; discriminate E..].
  exists st'. split; [reflexivity|].
  destruct (parseContent_appends 5 100 st st' E) as (_ & _ & HA & HB & _).
  split; [exact HA|exact HB].
Defined.

Lemma parseContent_routes_fock_witness :
  let st := set_alphaMatrices [[[(3 # 2, 0)]]]%Q (set_norbitals 1
              (set_alpha_electrons false (set_MAGNETIC_FLAG true
                (fresh (drop 8 two_fock_blocks))))) in
  exists st',
    parseContent 5 100 st = Ret st' /\
    fockMatrices st' = [] /\
    alphaMatrices st' = [[[(3 # 2, 0)]]]%Q.
Proof.
  intros st.
  destruct (parseContent 5 100 st) as [st'| |] eqn:E;
    [|vm_compute in E; discriminate E..].
  exists st'. split; [reflexivity|].
  destruct (parseContent_routes_fock 5 100 st st' E) as (_ & HF & HA & _).
  split; [apply HF; left|apply HA]; reflexivity.
Defined.

(** ** Slices of one size *)












(** ** The magnetic branch on stacks of different lengths *)

Lemma combineSpin_short d : forall n alpha beta overlap pa pb po fock newOverlap,
  length alpha = n ->
  (length beta < n \/ length overlap < n)%nat ->
  length pb = length pa -> length po = length pa ->
  Forall (square d) alpha -> Forall (square d) beta -> Forall (square d) overlap ->
  Forall (square (2 * d)) fock -> Forall (square (2 * d)) newOverlap ->
  combineSpin (pa ++ alpha) (pb ++ beta) (po ++ overlap) n (length pa) fock newOverlap
  = Throw (logic_error "Cube::slice(): index out of bounds").
Proof.
  induction n as [|n IH];
    intros alpha beta overlap pa pb po fock newOverlap La Hshort Epb Epo
           Ha Hb Ho Hf Hn; [lia|].
  destruct alpha as [|A alpha]; [discriminate|].
  apply Forall_cons_1 in Ha as [HA Ha].
  cbn [combineSpin]. unfold slice.
  rewrite (list_lookup_middle pa alpha A (length pa) eq_refl).
  cbn [mbind outcome_bind bind].
  destruct beta as [|B beta].
  { rewrite app_nil_r, (lookup_ge_None_2 pb (length pa)) by lia. reflexivity. }
  apply Forall_cons_1 in Hb as [HB Hb].
  rewrite (list_lookup_middle pb beta B (length pa) (eq_sym Epb)).
  cbn [mbind outcome_bind bind].
  rewrite (spin_blocks_sum d) by assumption. cbn [mbind outcome_bind bind].
  rewrite (join_slices_square (2 * d) fock (spin_blocks A B) Hf
             (spin_blocks_square d A B HA HB)).
  cbn [mbind outcome_bind bind].
  destruct overlap as [|Sm overlap].
  { rewrite app_nil_r, (lookup_ge_None_2 po (length pa)) by lia. reflexivity. }
  apply Forall_cons_1 in Ho as [HSm Ho].
  rewrite (list_lookup_middle po overlap Sm (length pa) (eq_sym Epo)).
  cbn [mbind outcome_bind bind].
  rewrite (join_slices_square (2 * d) newOverlap (kron Sm eye2) Hn
             (kron_square d Sm _ _ _ _ HSm)).
  cbn [mbind outcome_bind bind].
  specialize (IH alpha beta overlap (pa ++ [A]) (pb ++ [B]) (po ++ [Sm])
                (fock ++ [spin_blocks A B]) (newOverlap ++ [kron Sm eye2])).
  rewrite <- !app_assoc in IH. simpl in IH.
  rewrite !length_app in IH. simpl in IH.
  replace (length pa + 1)%nat with (S (length pa)) in IH by lia.
  apply IH; try assumption; try (simpl in *; lia).
  - apply Forall_app. split; [exact Hf|]. constructor; [|constructor].
    by apply spin_blocks_square.
  - apply Forall_app. split; [exact Hn|]. constructor; [|constructor].
    by apply kron_square.
Qed.

(** X18.  The magnetic branch of [mapContent] runs over the alpha
    stack and takes the slice of the same index from the beta and from
    the overlap stack.  When one of these two has fewer slices than the
    alpha stack (an unrestricted output cut before its beta matrices, or
    with fewer overlap than Fock sections within the cell limit),
    [mapContent] throws Armadillo's bounds error; it does not build a
    shorter or a padded Hamiltonian. *)
Theorem mapContent_short_stack d st :
  SOC_FLAG st = false ->
  MAGNETIC_FLAG st = true ->
  (length (betaMatrices st) < length (alphaMatrices st) \/
   length (overlapMatrices st) < length (alphaMatrices st))%nat ->
  Forall (square d) (alphaMatrices st) ->
  Forall (square d) (betaMatrices st) ->
  Forall (square d) (overlapMatrices st) ->
  Forall (square (2 * d)) (fockMatrices st) ->
  mapContent st = Throw (logic_error "Cube::slice(): index out of bounds").
Proof.
  intros HS HM Hshort Ha Hb Ho Hf. unfold mapContent. rewrite HS, HM.
  unfold n_slices.
  pose proof (combineSpin_short d (length (alphaMatrices st)) (alphaMatrices st)
                (betaMatrices st) (overlapMatrices st) [] [] [] (fockMatrices st) []
                eq_refl Hshort eq_refl eq_refl Ha Hb Ho Hf (Forall_nil_2 _)) as Hc.
  cbn [app length] in Hc. rewrite Hc. reflexivity.
Qed.

Lemma mapContent_short_stack_witness :
  alphaMatrices alpha_only_state = [[[(-1 # 2, 0)]]]%Q /\
  betaMatrices alpha_only_state = [] /\
  mapContent alpha_only_state
  = Throw (logic_error "Cube::slice(): index out of bounds").
Proof.
  split; [reflexivity|]. split; [reflexivity|].
  apply (mapContent_short_stack 1 alpha_only_state).
  - reflexivity.
  - reflexivity.
  - left. simpl. lia.
  - repeat constructor.
  - constructor.
  - repeat constructor.
  - constructor.
Defined.

(** ** A file without markers *)

(** X19.  A file in which no line holds a marker is not refused: the
    scan reads it to its end and returns the object as it was, with
    nothing parsed and no exception. *)
Theorem parseContent_unmarked_file ncells threshold st :
  Forall unmarked (m_file st) ->
  parseContent ncells threshold st = Ret (set_m_file [] st).
Proof.
  intros H.
  assert (Hst : st = set_m_file (m_file st ++ []) st)
    by (destruct st; simpl; by rewrite app_nil_r).
  rewrite Hst at 1. rewrite parseContent_skip_lines.
  - reflexivity.
  - eapply Forall_impl; [exact H|]. intros line [Hc Hq] st'.
    by apply scan_line_inert.
Qed.

Lemma parseContent_unmarked_file_witness :
  parseContent 1 100 (fresh plain_text) = Ret (fresh []).
Proof.
  apply (parseContent_unmarked_file 1 100 (fresh plain_text)).
  repeat (apply List.Forall_cons; [split; vm_compute; reflexivity|]).
  apply List.Forall_nil.
Defined.

(** ** The basis section: shell types and tables *)

Lemma shells_cumul shells :
  Forall (fun sh => exists c, shell_counts_to sh c) shells ->
  exists cumul, Forall2 shell_counts_to shells cumul.
Proof.
  induction 1 as [|sh shells [c Hc] _ [cumul IH]].
  - exists []. constructor.
  - exists (c :: cumul). by constructor.
Qed.

Lemma parseShell_tables s sh c file :
  bl_file s = shell_lines sh ++ file ->
  shell_counts_to sh c -> ends_table file ->
  bl_shellTypes (parseShell s) = bl_shellTypes s ++ [shell_type sh] /\
  bl_gaussian (parseShell s) = bl_gaussian s ++ [shell_table sh] /\
  bl_shellTypesPerSpecies (parseShell s) = bl_shellTypesPerSpecies s /\
  bl_gaussianCoefficients (parseShell s)
    = <[bl_nspecies s := bl_gaussian s ++ [shell_table sh]]>
        (bl_gaussianCoefficients s).
Proof.
  intros Hf ((ty & Hh) & _ & Hrows) Hend. unfold parseShell. rewrite Hf.
  simpl getline. cbv iota beta.
  rewrite (read_shell_header _ c ty) by exact Hh.
  destruct (parseCoefficients_rows (sh_rows sh) file (sh_header sh) Hrows Hend)
    as [line' ->].
  unfold shell_type, shell_table. rewrite Hh. simpl. repeat split.
Qed.

Lemma parseShells_tables : forall shells s file,
  Forall (fun sh => exists c, shell_counts_to sh c) shells ->
  bl_file s = concat (map shell_lines shells) ++ file ->
  ends_table file ->
  bl_shellTypes (parseShells (length shells) s)
    = bl_shellTypes s ++ map shell_type shells /\
  bl_gaussian (parseShells (length shells) s)
    = bl_gaussian s ++ map shell_table shells /\
  bl_shellTypesPerSpecies (parseShells (length shells) s)
    = bl_shellTypesPerSpecies s /\
  (shells <> [] ->
   bl_gaussianCoefficients (parseShells (length shells) s)
     = <[bl_nspecies s := bl_gaussian s ++ map shell_table shells]>
         (bl_gaussianCoefficients s)).
Proof.
  induction shells as [|sh shells IH]; intros s file HF Hf Hend.
  - simpl. rewrite !app_nil_r. repeat split. congruence.
  - apply Forall_cons_1 in HF as [[c Hsh] HF].
    simpl in Hf. rewrite <- app_assoc in Hf.
    destruct (shells_cumul shells HF) as [cumul Hcumul].
    pose proof (shells_end _ _ _ Hcumul Hend) as Hend1.
    destruct (parseShell_tables s sh c _ Hf Hsh Hend1) as (Ht1 & Hg1 & Hm1 & Hc1).
    destruct (parseShell_text s sh c _ Hf Hsh Hend1) as (Hf1 & _ & (_ & Hn1 & _)).
    destruct (IH (parseShell s) file HF Hf1 Hend) as (Ht2 & Hg2 & Hm2 & Hc2).
    simpl parseShells. simpl length. simpl map.
    rewrite Ht2, Hg2, Hm2, Ht1, Hg1, Hm1, <- !app_assoc. simpl.
    do 3 (split; [reflexivity|]). intros _.
    destruct shells as [|sh' shells].
    + simpl. rewrite Hc1. reflexivity.
    + rewrite Hc2 by discriminate. rewrite Hg1, Hc1, Hn1, <- app_assoc.
      simpl. apply insert_insert_eq.
Qed.

Lemma basis_shells_ends sps motif i species atoms lines rest :
  basis_shells sps motif i species atoms lines ->
  ends_table rest -> ends_table (lines ++ rest).
Proof. intros H Hend. destruct H; simpl; assumption. Qed.

Lemma holds_shells_snoc done shells types tables :
  holds_shells done types tables ->
  holds_shells (done ++ [shells])
    (<[Z.of_nat (length done) := map shell_type shells]> types)
    (<[Z.of_nat (length done) := map shell_table shells]> tables).
Proof.
  intros H k sh Hk. destruct (decide (k = length done)) as [->|Hne].
  - rewrite list_lookup_middle in Hk by reflexivity. injection Hk as <-.
    by rewrite !lookup_insert_eq.
  - assert (k < length done)%nat as Hlt.
    { apply lookup_lt_Some in Hk. rewrite length_app in Hk. simpl in Hk. lia. }
    rewrite lookup_app_l in Hk by exact Hlt.
    rewrite !lookup_insert_ne by lia. by apply H.
Qed.

(** The loop of [parseAtomicBasis] on the lines of a basis section: the
    two maps gain the shells of every species that the section opens. *)
Lemma parseAtomicBasis_loop_shells sps motif rest i species atoms lines :
  basis_shells sps motif i species atoms lines ->
  ends_table rest ->
  forall s done,
    bl_file s = lines ++ rest ->
    bl_species s = species ->
    bl_nspecies s = Z.of_nat (length species) ->
    length (bl_orbitalsPerSpecies s) = length species ->
    length done = length species ->
    holds_shells done (bl_shellTypesPerSpecies s) (bl_gaussianCoefficients s) ->
    exists s',
      parseAtomicBasis_loop motif sps (length atoms) i s = Ret s' /\
      bl_file s' = rest /\
      holds_shells (done ++ species_shells atoms)
        (bl_shellTypesPerSpecies s') (bl_gaussianCoefficients s').
Proof.
  intros H Hend.
  induction H as [i species
                 |i species label line shs atoms lines Hnew Hline _ Hsh Hne HF Hrest IH
                 |i species label line atoms lines tags Hold Hline _ Hrow Htag Hrest IH];
    intros s done Hf Hs Hn Hc Hd Hh.
  - exists s. simpl in *. rewrite app_nil_r. auto.
  - simpl length. cbn [parseAtomicBasis_loop]. unfold parseAtomicBasis_body.
    rewrite Hf. simpl getline. cbv iota beta.
    destruct (basis_atom_read line label (bl_natom s) (bl_species_name s) Hline)
      as (n & r & r' & -> & ->).
    rewrite Hs. replace (absent species label) with true
      by (symmetry; by apply absent_spec).
    rewrite Hn, Nat2Z.id. unfold at_. rewrite Hsh. cbn [mbind outcome_bind bind].
    rewrite Nat2Z.id.
    match goal with |- context [parseShells _ ?s0] => set (s1 := s0) end.
    destruct (shells_cumul shs HF) as [cumul Hcumul].
    destruct (parseShells_text shs cumul s1 (lines ++ rest) Hcumul)
      as (Hf1 & (Ht1 & Hn1 & Hs1 & Hc1) & Hno1).
    { subst s1. simpl. by rewrite <- app_assoc. }
    { eapply basis_shells_ends; eauto. }
    destruct (parseShells_tables shs s1 (lines ++ rest) HF)
      as (Hty & Hg & Hm & Hgc).
    { subst s1. simpl. by rewrite <- app_assoc. }
    { eapply basis_shells_ends; eauto. }
    specialize (Hgc Hne).
    assert (exists c, last cumul = Some c) as [c Hlast].
    { destruct (last cumul) eqn:E; [eauto|]. apply last_None in E. subst cumul.
      inversion Hcumul. congruence. }
    rewrite Hlast in Hno1. rewrite Hno1. cbn [use mbind outcome_bind bind].
    match goal with |- context [parseAtomicBasis_loop _ _ _ _ ?s0] => set (s2 := s0) end.
    destruct (IH s2 (done ++ [shs])) as (s' & Hl & Hf' & Hh').
    + subst s2. simpl. exact Hf1.
    + subst s2. simpl. rewrite Hs1. subst s1. reflexivity.
    + subst s2. simpl. rewrite Hn1. subst s1. simpl. rewrite length_app. simpl. lia.
    + subst s2. simpl. rewrite !length_app, Hc1. subst s1. simpl. lia.
    + rewrite !length_app. simpl. lia.
    + subst s2. simpl. rewrite Hn1, Hty, Hm, Hgc. subst s1. simpl.
      rewrite <- Hd. by apply holds_shells_snoc.
    + exists s'. split; [exact Hl|]. split; [exact Hf'|].
      destruct shs as [|sh shs]; [congruence|].
      simpl species_shells. by rewrite <- app_assoc in Hh'.
  - simpl length. cbn [parseAtomicBasis_loop]. unfold parseAtomicBasis_body.
    rewrite Hf. simpl getline. cbv iota beta.
    destruct (basis_atom_read line label (bl_natom s) (bl_species_name s) Hline)
      as (n & r & r' & -> & ->).
    rewrite Hs. replace (absent species label) with false
      by (symmetry; by apply absent_false).
    unfold row. rewrite Hrow. cbn [mbind outcome_bind bind]. rewrite Htag.
    cbn [mbind outcome_bind bind]. rewrite index_of_tag. cbn [mbind outcome_bind bind].
    pose proof (position_lt label species Hold) as Hlt.
    destruct (bl_orbitalsPerSpecies s !! position label species) as [k|] eqn:Ek;
      [|apply lookup_ge_None in Ek; lia].
    unfold at_. rewrite Ek. cbn [mbind outcome_bind bind].
    match goal with |- context [parseAtomicBasis_loop _ _ _ _ ?s0] => set (s2 := s0) end.
    destruct (IH s2 done) as (s' & Hl & Hf' & Hh').
    + subst s2. simpl. reflexivity.
    + subst s2. simpl. reflexivity.
    + subst s2. simpl. exact Hn.
    + subst s2. simpl. exact Hc.
    + exact Hd.
    + subst s2. simpl. exact Hh.
    + exists s'. split; [exact Hl|]. split; [exact Hf'|exact Hh'].
Qed.

(** X20.  On a basis section read after the atoms, [parseAtomicBasis]
    stores, under the index of every species, the type label of each of
    its shells and the table of each shell as rows of four numbers, in
    the order of the file.  Only the first atom of a species is read for
    them: a repeat adds nothing. *)
Theorem parseAtomicBasis_shell_tables st l1 l2 l3 lines rest atoms :
  m_file st = l1 :: l2 :: l3 :: lines ++ rest ->
  natoms st = Z.of_nat (length atoms) ->
  orbitalsPerSpecies st = [] ->
  basis_shells (shellsPerSpecies st) (motif st) 0 [] atoms lines ->
  ends_table rest ->
  exists st',
    parseAtomicBasis st = Ret st' /\
    m_file st' = rest /\
    forall k shells,
      species_shells atoms !! k = Some shells ->
      shellTypesPerSpecies st' !! Z.of_nat k = Some (map shell_type shells) /\
      gaussianCoefficients st' !! Z.of_nat k = Some (map shell_table shells).
Proof.
  intros Hf Hn Ho Ht Hend. unfold parseAtomicBasis. rewrite Hf, Hn, Ho, Nat2Z.id.
  cbn [getline].
  match goal with |- context [parseAtomicBasis_loop _ _ _ _ ?s0] => set (s := s0) end.
  destruct (parseAtomicBasis_loop_shells _ _ rest _ _ _ _ Ht Hend s [])
    as (s' & Hl & Hf' & Hh'); try reflexivity.
  { intros k shells Hk. discriminate Hk. }
  rewrite Hl. cbn [mbind outcome_bind bind]. eexists. split; [reflexivity|].
  simpl. split; [exact Hf'|]. exact Hh'.
Qed.

Ltac shell_ok :=
  eexists; split; [eexists; vm_compute; reflexivity|];
  split; [let E := fresh in intros E; vm_compute in E; discriminate E|];
  repeat (apply List.Forall_cons; [vm_compute; reflexivity|]); apply List.Forall_nil.

Lemma parseAtomicBasis_shell_tables_witness :
  exists st',
    parseAtomicBasis (basis_state "                                  21-  24 SP ")
      = Ret st' /\
    shellTypesPerSpecies st' !! 0 = Some ["S"; "SP"; "D"] /\
    shellTypesPerSpecies st' !! 1 = Some ["SP"] /\
    gaussianCoefficients st' !! 1
      = Some [[[1873 # 100; 3349 # 100000; 0; 0]]]%Q.
Proof.
  destruct (parseAtomicBasis_shell_tables
    (basis_state "                                  21-  24 SP ")
    " *******************************************************************"
    "   ATOM   X(AU)   Y(AU)   Z(AU)  N. TYPE  EXPONENT  S COEF   P COEF   D/F/G COEF"
    " *******************************************************************"
    (take 12 (drop 11 (three_atoms "                                  21-  24 SP ")))
    [" *******************************************************************"]
    [("C",
      [ {| sh_header := "                                   1 S  ";
           sh_rows := ["                                         3.048E+03 1.826E-03 0.000E+00 0.000E+00";
                       "                                         4.564E+02 1.406E-02 0.000E+00 0.000E+00"] |};
        {| sh_header := "                                   2-   5 SP ";
           sh_rows := ["                                         7.868E+00-1.193E-01 6.899E-02 0.000E+00"] |};
        {| sh_header := "                                   6-  10 D  ";
           sh_rows := ["                                         8.000E-01 0.000E+00 0.000E+00 1.000E+00"] |} ]);
     ("C", []);
     ("H",
      [ {| sh_header := "                                  21-  24 SP ";
           sh_rows := ["                                         1.873E+01 3.349E-02 0.000E+00 0.000E+00"] |} ])])
    as (st' & H & _ & Hk).
  - reflexivity.
  - reflexivity.
  - reflexivity.
  - apply (section_new _ _ 0 [] "C" "   1 C     0.000   0.000   0.000"
      [ {| sh_header := "                                   1 S  ";
           sh_rows := ["                                         3.048E+03 1.826E-03 0.000E+00 0.000E+00";
                       "                                         4.564E+02 1.406E-02 0.000E+00 0.000E+00"] |};
        {| sh_header := "                                   2-   5 SP ";
           sh_rows := ["                                         7.868E+00-1.193E-01 6.899E-02 0.000E+00"] |};
        {| sh_header := "                                   6-  10 D  ";
           sh_rows := ["                                         8.000E-01 0.000E+00 0.000E+00 1.000E+00"] |} ]).
    + apply absent_spec. reflexivity.
    + reflexivity.
    + intros E. vm_compute in E. discriminate E.
    + reflexivity.
    + discriminate.
    + repeat (apply List.Forall_cons; [shell_ok|]). apply List.Forall_nil.
    + apply (section_seen _ _ 1 ["C"] "C" "   2 C     1.889   1.889   0.000" _ _
               [1; 1; 0; 0]%Q).
      * apply absent_false. reflexivity.
      * reflexivity.
      * intros E. vm_compute in E. discriminate E.
      * reflexivity.
      * reflexivity.
      * apply (section_new _ _ 2 ["C"] "H" "   3 H     3.779   0.000   0.000"
          [ {| sh_header := "                                  21-  24 SP ";
               sh_rows := ["                                         1.873E+01 3.349E-02 0.000E+00 0.000E+00"] |} ]
          [] []).
        -- apply absent_spec. reflexivity.
        -- reflexivity.
        -- intros E. vm_compute in E. discriminate E.
        -- reflexivity.
        -- discriminate.
        -- repeat (apply List.Forall_cons; [shell_ok|]). apply List.Forall_nil.
        -- constructor.
  - intros E. vm_compute in E. discriminate E.
  - exists st'. split; [exact H|].
    destruct (Hk 0%nat _ eq_refl) as [T0 _].
    destruct (Hk 1%nat _ eq_refl) as [T1 G1].
    split; [exact T0|]. split; [exact T1|exact G1].
Defined.
